(** * PhotoMingle backend: invitations, notifications and photo ingestion

    A shallow embedding of the controllers of [backend/src] and of the
    properties the specification states about them.

    - Documents are records, one module per Mongoose schema, with the field
      names of the schema.  Fields that none of the embedded controllers
      reads or writes (timestamps, [coverImage], the file metadata of a
      photo) are left out.  An ObjectId is the string [toString()] gives,
      24 hexadecimal digits in lower case, and the collections hold ids in
      that form.  Where a controller hands a string of the request body or
      of Rekognition to Mongoose ([User.findById], a path of type ObjectId),
      the string is cast ([castObjectId]): another spelling of the digits
      names the same id, and a string that is no id is refused with a
      [CastError].  The ids of the route ([req.params]) and of the
      authenticated user ([req.user.id]) are taken in the stored form.  A
      subdocument is the object the controller pushes, path by path, as the
      schema casts it.
    - The handlers are [async] functions over a document store and three
      external clients (uuid, SendGrid, Rekognition).  They are written in a
      state-and-exception monad [M] over a [World]: the collections, the log
      of every effect performed so far, and the counters of the two
      fresh-name sources.  What the outside answers is an [Env]: a handler
      is a function of the environment, its arguments and the world.
    - An Express handler ends in [res.status(s).json(d)] or [next(err)];
      that is a [Reply]. *)

From Stdlib Require Import QArith.QArith_base.
From stdpp Require Import gmap strings list fin_maps pretty.

Set Default Proof Using "Type".
Open Scope string_scope.

(** ** JavaScript values *)

(** A value that is [undefined] or a string.  JavaScript treats [undefined]
    and the empty string as false in a condition. *)
Definition truthy (v : option string) : bool :=
  match v with
  | Some s => negb (String.eqb s EmptyString)
  | None => false
  end.

(** [a === b] for a possibly undefined field [a] and a string [b]. *)
Definition strict_eq (a : option string) (b : string) : bool :=
  match a with
  | Some s => String.eqb s b
  | None => false
  end.

(** [xs.findIndex(p)], with [None] for [-1]. *)
Fixpoint findIndex {A} (p : A → bool) (xs : list A) : option nat :=
  match xs with
  | [] => None
  | x :: xs' => if p x then Some 0 else S <$> findIndex p xs'
  end.

(** ** Object ids *)

(** A hexadecimal digit, in lower case; [None] for any other character. *)
Definition hex_digit (c : Ascii.ascii) : option Ascii.ascii :=
  let n := Ascii.nat_of_ascii c in
  if Nat.leb 48 n && Nat.leb n 57 then Some c
  else if Nat.leb 97 n && Nat.leb n 102 then Some c
  else if Nat.leb 65 n && Nat.leb n 70 then Some (Ascii.ascii_of_nat (n + 32))
  else None.

Fixpoint hex_string (s : string) : option string :=
  match s with
  | EmptyString => Some EmptyString
  | String c s' =>
      match hex_digit c, hex_string s' with
      | Some c', Some r => Some (String c' r)
      | _, _ => None
      end
  end.

(** Mongoose's cast of a string to an ObjectId, as the string [toString()]
    prints for the result: a string of 24 hexadecimal digits is the id with
    these digits, printed in lower case.  For any other string the cast
    throws, which is [None] here.  (Drivers before bson 6 also read a string
    of twelve characters as twelve raw bytes; that reading is left out.) *)
Definition castObjectId (value : string) : option string :=
  if Nat.eqb (String.length value) 24 then hex_string value else None.

(** ** Errors and replies *)

(** What can be thrown or passed to [next]: an [AppError] with its message
    and status code (utils/appError.js), a Mongoose validation error, the
    [CastError] Mongoose throws for a value that is no ObjectId, the
    [TypeError] of reading a property of [null], and the rejection of a
    client call or a write, with the response body it may carry. *)
Inductive Error :=
| AppError (message : string) (statusCode : nat)
| ValidationError (message : string)
| CastError (value : string)
| TypeError
| Rejected (message : string) (response : option string).

(** [res.status(s).json(d)] or [next(err)]. *)
Inductive Reply (A : Type) :=
| Json (status : nat) (data : A)
| Next (err : Error).
Arguments Json {A} status data.
Arguments Next {A} err.

(** middleware/errorHandler.js: the status sent for an error passed to
    [next], [error.statusCode || 500] after the validation error has been
    turned into an [AppError] with status 400 and the cast error ("Mongoose
    bad ObjectId") into one with status 404. *)
Definition errorHandler (err : Error) : nat :=
  match err with
  | AppError _ statusCode => if Nat.eqb statusCode 0 then 500 else statusCode
  | ValidationError _ => 400
  | CastError _ => 404
  | TypeError | Rejected _ _ => 500
  end.

(** The error kinds of the specification, by HTTP status. *)
Inductive ErrorKind := InvalidInput | Unauthorized | NotFound | ServerError.

Definition error_kind (err : Error) : ErrorKind :=
  match errorHandler err with
  | 400 => InvalidInput
  | 401 => Unauthorized
  | 404 => NotFound
  | _ => ServerError
  end.

Definition fails_with {A} (r : Reply A) (k : ErrorKind) : Prop :=
  ∃ err, r = Next err ∧ error_kind err = k.

(** ** Documents *)

(** Modelled from the spec: models/User.js is not among the sources.  A
    user is an identity with what the controllers read of it, [user.name]
    and [user.email]; the identity is the key of the [users] collection. *)
Module User.
Record t := mk { name : string; email : string }.
End User.

Inductive Status := pending | accepted | declined.

#[global] Instance Status_eq_dec : EqDecision Status.
Proof. solve_decision. Defined.

(** models/Event.js, the [invitees] subdocument.  [_id] is assigned by the
    store when the subdocument is pushed; [status] defaults to [pending]. *)
Module Invitee.
Record t := mk {
  _id : string;
  user : option string;
  email : option string;
  status : Status;
  inviteCode : option string
}.

Definition set_status (s : Status) (i : t) : t :=
  mk (_id i) (user i) (email i) s (inviteCode i).
Definition set_user (u : option string) (i : t) : t :=
  mk (_id i) u (email i) (status i) (inviteCode i).
Definition set_email (e : option string) (i : t) : t :=
  mk (_id i) (user i) e (status i) (inviteCode i).
End Invitee.

#[global] Instance Invitee_eq_dec : EqDecision Invitee.t.
Proof. solve_decision. Defined.

(** models/Event.js.  A document's [_id] is the key it is stored under, so
    [event._id] is the id the event was found by. *)
Module Event.
Record t := mk {
  name : string;
  description : option string;
  date : Z;
  location : option string;
  creator : string;
  invitees : list Invitee.t;
  isPrivate : bool
}.

Definition set_invitees (l : list Invitee.t) (e : t) : t :=
  mk (name e) (description e) (date e) (location e) (creator e) l
     (isPrivate e).
End Event.

Inductive NotificationType :=
  event_invite | photo_tagged | event_reminder | system.

(** The object handed to [createNotification] and on to
    [Notification.create], with the ids as the schema casts them. *)
Module NotificationData.
Record t := mk {
  recipient : option string;
  email : option string;
  type : NotificationType;
  title : string;
  message : string;
  relatedEvent : option string;
  relatedPhoto : option string
}.
End NotificationData.

(** models/Notification.js. *)
Module Notification.
Record t := mk {
  recipient : option string;
  email : option string;
  type : NotificationType;
  title : string;
  message : string;
  relatedEvent : option string;
  relatedPhoto : option string;
  isRead : bool;
  isSent : bool
}.

(** The document [Notification.create] builds: the given fields and the
    schema defaults [isRead = false], [isSent = false]. *)
Definition of_data (d : NotificationData.t) : t :=
  mk (NotificationData.recipient d) (NotificationData.email d)
     (NotificationData.type d) (NotificationData.title d)
     (NotificationData.message d) (NotificationData.relatedEvent d)
     (NotificationData.relatedPhoto d) false false.

Definition set_isSent (b : bool) (n : t) : t :=
  mk (recipient n) (email n) (type n) (title n) (message n)
     (relatedEvent n) (relatedPhoto n) (isRead n) b.
End Notification.

(** Rekognition's bounding box and the responses of [detectFaces] and
    [searchFacesByImage], as far as the controllers read them. *)
Module BoundingBox.
Record t := mk { Width : Q; Height : Q; Left : Q; Top : Q }.

(** The object as JavaScript sees it: its keys with their values. *)
Definition entries (b : t) : list (string * Q) :=
  [("Width", Width b); ("Height", Height b); ("Left", Left b);
   ("Top", Top b)].
End BoundingBox.

(** [obj[key]] for an object given by its entries. *)
Fixpoint get_property (key : string) (obj : list (string * Q)) : option Q :=
  match obj with
  | [] => None
  | (k, v) :: rest => if String.eqb k key then Some v else get_property key rest
  end.

Module FaceDetail.
Record t := mk { BoundingBox : BoundingBox.t }.
End FaceDetail.

Module Face.
Record t := mk {
  FaceId : string;
  ExternalImageId : string;
  BoundingBox : BoundingBox.t
}.
End Face.

Module FaceMatch.
Record t := mk { Similarity : Q; Face : Face.t }.
End FaceMatch.

Module DetectResponse.
Record t := mk { FaceDetails : option (list FaceDetail.t) }.
End DetectResponse.

Module SearchResponse.
Record t := mk { FaceMatches : option (list FaceMatch.t) }.
End SearchResponse.

(** models/Photo.js: the nested path [boundingBox] of a detected face.  The
    schema declares [width], [height], [left] and [top]; each is a number or
    unset. *)
Module FaceBox.
Record t := mk {
  width : option Q;
  height : option Q;
  left : option Q;
  top : option Q
}.

(** What the schema keeps of an object assigned to [boundingBox]: the
    values under the four declared paths.  The schema is strict (the
    default), so a key that is no path of the schema is dropped. *)
Definition cast (obj : list (string * Q)) : t :=
  mk (get_property "width" obj) (get_property "height" obj)
     (get_property "left" obj) (get_property "top" obj).
End FaceBox.

(** models/Photo.js: the [detectedFaces] subdocument, and the photo, keyed
    by its [_id] like an event.  [user] is a path of type ObjectId. *)
Module DetectedFace.
Record t := mk {
  faceId : string;
  user : option string;
  boundingBox : FaceBox.t;
  confidence : Q
}.
End DetectedFace.

Module Photo.
Record t := mk {
  filename : string;
  path : string;
  event : string;
  uploader : string;
  detectedFaces : list DetectedFace.t;
  isProcessed : bool
}.

Definition set_detectedFaces (l : list DetectedFace.t) (p : t) : t :=
  mk (filename p) (path p) (event p) (uploader p) l (isProcessed p).
Definition set_isProcessed (b : bool) (p : t) : t :=
  mk (filename p) (path p) (event p) (uploader p) (detectedFaces p) b.
End Photo.

(** The message handed to SendGrid. *)
Module Email.
Record t := mk {
  from : string;
  to : option string;
  subject : string;
  html : string
}.
End Email.

(** The body [verifyInvitation] answers with. *)
Module EventView.
Record t := mk {
  id : string;
  name : string;
  date : Z;
  location : option string;
  description : option string;
  creator : string
}.
End EventView.

Module InvitationView.
Record t := mk { id : string; status : Status; inviteCode : option string }.
End InvitationView.

Module Verified.
Record t := mk { event : EventView.t; invitation : InvitationView.t }.
End Verified.

(** The body [sendInvitations] answers with. *)
Module SentInvitation.
Record t := mk { id : string; email : option string }.
End SentInvitation.

Module FailedInvitation.
Record t := mk { id : string; email : option string; reason : string }.
End FailedInvitation.

Module Invitations.
Record t := mk {
  sent : list SentInvitation.t;
  failed : list FailedInvitation.t
}.
End Invitations.

(** An element of [req.body.invitees]. *)
Module InviteeSpec.
Record t := mk { userId : option string; email : option string }.
End InviteeSpec.

(** ** The world and the environment *)

(** What a handler does to the outside, in the order it does it.  A write
    carries the document it writes. *)
Inductive Effect :=
| Log (message : string)
| DetectFaces (path : string)
| SearchFaces (path : string)
| SgSend (msg : Email.t)
| EventSave (id : string) (e : Event.t)
| PhotoSave (id : string) (p : Photo.t)
| NotificationCreate (d : NotificationData.t)
| NotificationSave (handle : nat) (n : Notification.t).

(** The collections, the effects performed so far (oldest first) and the
    number of names drawn from [uuidv4] and from the store's id source.  A
    notification is addressed by its position in the collection, which is the
    handle [Notification.create] returns. *)
Record World := mkWorld {
  users : gmap string User.t;
  events : gmap string Event.t;
  photos : gmap string Photo.t;
  notifications : list Notification.t;
  trace : list Effect;
  uuids : nat;
  oids : nat
}.

Definition set_events (f : gmap string Event.t → gmap string Event.t)
    (w : World) : World :=
  mkWorld (users w) (f (events w)) (photos w) (notifications w) (trace w)
          (uuids w) (oids w).
Definition set_photos (f : gmap string Photo.t → gmap string Photo.t)
    (w : World) : World :=
  mkWorld (users w) (events w) (f (photos w)) (notifications w) (trace w)
          (uuids w) (oids w).
Definition set_notifications (f : list Notification.t → list Notification.t)
    (w : World) : World :=
  mkWorld (users w) (events w) (photos w) (f (notifications w)) (trace w)
          (uuids w) (oids w).
Definition record (eff : Effect) (w : World) : World :=
  mkWorld (users w) (events w) (photos w) (notifications w) (trace w ++ [eff])
          (uuids w) (oids w).
Definition next_uuid (w : World) : World :=
  mkWorld (users w) (events w) (photos w) (notifications w) (trace w)
          (S (uuids w)) (oids w).
Definition next_oid (w : World) : World :=
  mkWorld (users w) (events w) (photos w) (notifications w) (trace w)
          (uuids w) (S (oids w)).

(** The answers of the outside.  [uuidv4 n] and [ObjectId n] are the [n]-th
    names the two sources hand out.  An external call or a write made when
    [t] effects have been performed is answered by the entry at [t]:
    [rejects t eff] is the error a write or a send fails with, if it fails;
    the Rekognition entries are [None] when the client (or reading the image
    file) throws. *)
Record Env := mkEnv {
  uuidv4 : nat → string;
  ObjectId : nat → string;
  EMAIL_FROM : string;
  toLocaleDateString : Z → string;
  rekognition_detectFaces : nat → string → option DetectResponse.t;
  rekognition_searchFaces : nat → string → option SearchResponse.t;
  rejects : nat → Effect → option Error
}.

(** ** The monad of handlers *)

Inductive Res (A : Type) :=
| Ok (a : A)
| Throw (e : Error).
Arguments Ok {A} a.
Arguments Throw {A} e.

Definition M (A : Type) : Type := World → Res A * World.

#[global] Instance M_ret : MRet M := λ A a w, (Ok a, w).
#[global] Instance M_bind : MBind M := λ A B f m w,
  match m w with
  | (Ok a, w') => f a w'
  | (Throw e, w') => (Throw e, w')
  end.

Definition throw {A} (e : Error) : M A := λ w, (Throw e, w).

(** [try { m } catch (error) { h error }]. *)
Definition try_catch {A} (m : M A) (h : Error → M A) : M A := λ w,
  match m w with
  | (Ok a, w') => (Ok a, w')
  | (Throw e, w') => h e w'
  end.

(** The outcome of [m] as a value, for a [try] block whose [catch] needs the
    locals as they were when the exception was thrown. *)
Definition attempt {A} (m : M A) : M (Error + A) := λ w,
  match m w with
  | (Ok a, w') => (Ok (inr a), w')
  | (Throw e, w') => (Ok (inl e), w')
  end.

(** An Express handler: [try { m } catch (error) { next(error) }]. *)
Definition Handler (A : Type) : Type := World → Reply A * World.

Definition handler {A} (m : M (Reply A)) : Handler A := λ w,
  match m w with
  | (Ok reply, w') => (reply, w')
  | (Throw error, w') => (Next error, w')
  end.

Definition gets {A} (f : World → A) : M A := λ w, (Ok (f w), w).

(** [console.error]. *)
Definition console_error (message : string) : M unit :=
  λ w, (Ok tt, record (Log message) w).

Section Handlers.
Variable env : Env.

(** A write or a send: recorded, then rejected by the outside or applied. *)
Definition perform (eff : Effect) (apply : World → World) : M unit := λ w,
  match rejects env (length (trace w)) eff with
  | Some e => (Throw e, record eff w)
  | None => (Ok tt, apply (record eff w))
  end.

Definition uuidv4_call : M string :=
  λ w, (Ok (uuidv4 env (uuids w)), next_uuid w).

Definition new_ObjectId : M string :=
  λ w, (Ok (ObjectId env (oids w)), next_oid w).

(** *** Models *)

(** [populate] of a path that holds the id of a user: the user, or [null]
    when there is none with that id. *)
Definition User_populate (id : string) : M (option User.t) :=
  gets (λ w, users w !! id).

(** [User.findById(id)] for a string [id] that comes from outside: the
    query casts it first, and throws when it is no ObjectId. *)
Definition User_findById (id : string) : M (option User.t) :=
  match castObjectId id with
  | Some id => gets (λ w, users w !! id)
  | None => throw (CastError id)
  end.

Definition Event_findById (id : string) : M (option Event.t) :=
  gets (λ w, events w !! id).

Definition Event_save (id : string) (e : Event.t) : M unit :=
  perform (EventSave id e) (set_events <[id := e]>).

Definition Photo_findById (id : string) : M (option Photo.t) :=
  gets (λ w, photos w !! id).

Definition Photo_save (id : string) (p : Photo.t) : M unit :=
  perform (PhotoSave id p) (set_photos <[id := p]>).

Definition Notification_create (d : NotificationData.t)
    : M (nat * Notification.t) := λ w,
  let handle := length (notifications w) in
  let n := Notification.of_data d in
  match perform (NotificationCreate d) (set_notifications (.++ [n])) w with
  | (Ok _, w') => (Ok (handle, n), w')
  | (Throw e, w') => (Throw e, w')
  end.

Definition Notification_save (handle : nat) (n : Notification.t) : M unit :=
  perform (NotificationSave handle n) (set_notifications <[handle := n]>).

(** *** controllers/eventController.js *)

(** [event.invitees.push(doc)]: the store gives the subdocument its [_id]
    and the schema casts [doc.user], a path of type ObjectId; [addInvitees]
    pushes a user only after [User.findById] has cast the same string. *)
Definition push_invitee (event : Event.t) (user email : option string)
    (inviteCode : string) : M Event.t :=
  id ← new_ObjectId;
  mret (Event.set_invitees
          (Event.invitees event ++
             [Invitee.mk id (user ≫= castObjectId) email pending
                (Some inviteCode)])
          event).

(** The body of [for (const invitee of invitees)]. *)
Definition addInvitees_step (event : Event.t) (invitee : InviteeSpec.t)
    : M Event.t :=
  inviteCode ← uuidv4_call;
  if truthy (InviteeSpec.userId invitee) then
    let userId := default EmptyString (InviteeSpec.userId invitee) in
    user ← User_findById userId;
    match user with
    | None => mret event
    | Some user =>
        let alreadyInvited :=
          existsb (λ inv, strict_eq (Invitee.user inv) userId)
                  (Event.invitees event) in
        if negb alreadyInvited then
          push_invitee event (Some userId) (Some (User.email user)) inviteCode
        else mret event
    end
  else if truthy (InviteeSpec.email invitee) then
    let email := default EmptyString (InviteeSpec.email invitee) in
    let alreadyInvited :=
      existsb (λ inv, strict_eq (Invitee.email inv) email)
              (Event.invitees event) in
    if negb alreadyInvited then
      push_invitee event None (Some email) inviteCode
    else mret event
  else mret event.

Fixpoint addInvitees_loop (event : Event.t) (invitees : list InviteeSpec.t)
    : M Event.t :=
  match invitees with
  | [] => mret event
  | invitee :: rest =>
      event ← addInvitees_step event invitee;
      addInvitees_loop event rest
  end.

(** [addInvitees]: [id] is [req.params.id], [requester] is [req.user.id]
    (the route is behind [protect]) and [invitees] is [req.body.invitees],
    [None] when it is missing or not an array. *)
Definition addInvitees (id requester : string)
    (invitees : option (list InviteeSpec.t)) : Handler Event.t :=
  handler
    (match invitees with
     | None => mret (Next (AppError "Please provide invitees array" 400))
     | Some invitees =>
         event ← Event_findById id;
         match event with
         | None =>
             mret (Next (AppError ("Event not found with id of " ++ id) 404))
         | Some event =>
             if negb (String.eqb (Event.creator event) requester) then
               mret (Next (AppError
                             "Not authorized to add invitees to this event"
                             401))
             else
               event ← addInvitees_loop event invitees;
               Event_save id event;;
               mret (Json 200 event)
         end
     end).

(** [['accepted', 'declined'].includes(status)], with the value to store. *)
Definition parse_status (status : option string) : option Status :=
  match status with
  | Some s =>
      if String.eqb s "accepted" then Some accepted
      else if String.eqb s "declined" then Some declined
      else None
  | None => None
  end.

(** [respondToInvite]: [id] is [req.params.id], [caller] is [req.user.id],
    [status] and [inviteCode] are the two fields of the body. *)
Definition respondToInvite (id caller : string)
    (status inviteCode : option string) : Handler Event.t :=
  handler
    (match parse_status status with
     | None =>
         mret (Next (AppError
                       "Please provide valid status (accepted/declined)" 400))
     | Some status =>
         if negb (truthy inviteCode) then
           mret (Next (AppError "Please provide invite code" 400))
         else
           let inviteCode := default EmptyString inviteCode in
           event ← Event_findById id;
           match event with
           | None =>
               mret (Next (AppError ("Event not found with id of " ++ id) 404))
           | Some event =>
               match findIndex
                       (λ inv, strict_eq (Invitee.inviteCode inv) inviteCode)
                       (Event.invitees event) with
               | None => mret (Next (AppError "Invalid invite code" 400))
               | Some inviteeIndex =>
                   let invitees :=
                     alter (Invitee.set_status status) inviteeIndex
                           (Event.invitees event) in
                   let invitees :=
                     alter (λ inv,
                              if negb (bool_decide
                                         (is_Some (Invitee.user inv)))
                              then Invitee.set_user (Some caller) inv
                              else inv)
                           inviteeIndex invitees in
                   let event := Event.set_invitees invitees event in
                   Event_save id event;;
                   mret (Json 200 event)
               end
           end
     end).

(** *** config/sendgrid.js *)

Definition sendEmail (to : option string) (subject html : string) : M unit :=
  try_catch
    (perform (SgSend (Email.mk (EMAIL_FROM env) to subject html)) id)
    (λ error,
       console_error "SendGrid Error:";;
       match error with
       | Rejected _ (Some body) => console_error body
       | _ => mret tt
       end;;
       throw error).

(** *** controllers/notificationController.js *)

(** A line break inside a template literal. *)
Definition newline : string := String (Ascii.ascii_of_nat 10) EmptyString.

(** [sendNotificationEmail]: the [catch] swallows a failed send and a failed
    save alike.  The result is the caller's document as the function leaves
    it: [isSent] is set between the send and the save.  The message is the
    template literal as written, line breaks and indentation included. *)
Definition sendNotificationEmail (handle : nat) (notification : Notification.t)
    : M Notification.t :=
  sent ← attempt
    (sendEmail (Notification.email notification)
       (Notification.title notification)
       (newline ++ "        <h1>" ++ Notification.title notification ++
        "</h1>" ++ newline ++ "        <p>" ++
        Notification.message notification ++ "</p>" ++ newline ++ "      "));
  match sent with
  | inl error =>
      console_error "Error sending notification email:";;
      mret notification
  | inr _ =>
      let notification := Notification.set_isSent true notification in
      saved ← attempt (Notification_save handle notification);
      match saved with
      | inl error =>
          console_error "Error sending notification email:";;
          mret notification
      | inr _ => mret notification
      end
  end.

Definition createNotification (notificationData : NotificationData.t)
    : M Notification.t :=
  try_catch
    ('(handle, notification) ← Notification_create notificationData;
     if truthy (Notification.email notification) then
       sendNotificationEmail handle notification
     else mret notification)
    (λ error,
       console_error "Error creating notification:";;
       throw error).

(** *** controllers/inviteController.js *)

(** A value inside a template literal. *)
Definition interpolate (v : option string) : string :=
  default "undefined" v.

Definition dquote : string := String (Ascii.ascii_of_nat 34) EmptyString.

(** The invitation message; the layout whitespace of the template literal is
    left out. *)
Definition invitation_html (event : Event.t) (creator : User.t)
    (inviteUrl : string) : string :=
  "<h1>You're invited to " ++ Event.name event ++ "</h1>" ++
  "<p><strong>Date:</strong> " ++ toLocaleDateString env (Event.date event) ++
  "</p>" ++
  "<p><strong>Location:</strong> " ++ interpolate (Event.location event) ++
  "</p>" ++
  "<p><strong>Description:</strong> " ++
  (if truthy (Event.description event)
   then interpolate (Event.description event)
   else "No description provided") ++ "</p>" ++
  "<p><strong>Host:</strong> " ++ User.name creator ++ "</p>" ++
  "<p>Click the link below to view the event and respond:</p>" ++
  "<a href=" ++ dquote ++ inviteUrl ++ dquote ++ " style=" ++ dquote ++
  "padding: 10px 15px; background-color: #4CAF50; color: white; " ++
  "text-decoration: none; border-radius: 4px;" ++ dquote ++
  ">View Invitation</a>".

(** The body of [for (const inviteeId of inviteeIds)], on the two result
    arrays. *)
Definition sendInvitations_step (protocol host eventId : string)
    (event : Event.t) (creator : User.t) (acc : Invitations.t)
    (inviteeId : string)
    : M Invitations.t :=
  match find (λ inv, String.eqb (Invitee._id inv) inviteeId)
             (Event.invitees event) with
  | None =>
      mret (Invitations.mk (Invitations.sent acc)
              (Invitations.failed acc ++
                 [FailedInvitation.mk inviteeId None
                    "Invitee not found in event"]))
  | Some invitee =>
      let inviteUrl :=
        protocol ++ "://" ++ host ++ "/events/" ++ eventId ++
        "/join?code=" ++ interpolate (Invitee.inviteCode invitee) in
      done ← attempt
        (sendEmail (Invitee.email invitee)
           ("You're invited to " ++ Event.name event)
           (invitation_html event creator inviteUrl);;
         if bool_decide (is_Some (Invitee.user invitee)) then
           createNotification
             (NotificationData.mk (Invitee.user invitee) None event_invite
                ("You're invited to " ++ Event.name event)
                (User.name creator ++ " has invited you to " ++
                 Event.name event)
                (Some eventId) None);;
           mret tt
         else mret tt);
      match done with
      | inr _ =>
          mret (Invitations.mk
                  (Invitations.sent acc ++
                     [SentInvitation.mk inviteeId (Invitee.email invitee)])
                  (Invitations.failed acc))
      | inl error =>
          console_error "Failed to send invitation:";;
          mret (Invitations.mk (Invitations.sent acc)
                  (Invitations.failed acc ++
                     [FailedInvitation.mk inviteeId (Invitee.email invitee)
                        "Failed to send email"]))
      end
  end.

Fixpoint sendInvitations_loop (protocol host eventId : string)
    (event : Event.t) (creator : User.t) (acc : Invitations.t)
    (inviteeIds : list string)
    : M Invitations.t :=
  match inviteeIds with
  | [] => mret acc
  | inviteeId :: rest =>
      acc ← sendInvitations_step protocol host eventId event creator acc
              inviteeId;
      sendInvitations_loop protocol host eventId event creator acc rest
  end.

(** [sendInvitations]: [eventId] is [req.params.eventId], [caller] is
    [req.user.id], [inviteeIds] is [req.body.inviteeIds] ([None] when missing
    or not an array).  [populate('creator', 'name email')] leaves [null] for
    a creator that is no user, and reading [event.creator._id] then throws. *)
Definition sendInvitations (protocol host eventId caller : string)
    (inviteeIds : option (list string)) : Handler Invitations.t :=
  handler
    (event ← Event_findById eventId;
     match event with
     | None =>
         mret (Next (AppError ("Event not found with id of " ++ eventId) 404))
     | Some event =>
         creator ← User_populate (Event.creator event);
         match creator with
         | None => throw TypeError
         | Some creator =>
             if negb (String.eqb (Event.creator event) caller) then
               mret (Next (AppError
                       "Not authorized to send invitations for this event"
                       401))
             else
               match inviteeIds with
               | None | Some [] =>
                   mret (Next (AppError "Please provide invitee IDs" 400))
               | Some inviteeIds =>
                   result ← sendInvitations_loop protocol host eventId event
                              creator (Invitations.mk [] []) inviteeIds;
                   mret (Json 200 result)
               end
         end
     end).

(** [.select('-invitees.user -invitees.email')]. *)
Definition select_without_user_email (event : Event.t) : Event.t :=
  Event.set_invitees
    (map (λ inv, Invitee.set_email None (Invitee.set_user None inv))
         (Event.invitees event))
    event.

(** [verifyInvitation]: the two route parameters.  [event.creator.name] is
    read when the answer is built, and throws when [populate] left [null]. *)
Definition verifyInvitation (eventId code : string) : Handler Verified.t :=
  handler
    (event ← Event_findById eventId;
     match event with
     | None => mret (Next (AppError "Event not found" 404))
     | Some event =>
         let event := select_without_user_email event in
         creator ← User_populate (Event.creator event);
         match find (λ inv, strict_eq (Invitee.inviteCode inv) code)
                    (Event.invitees event) with
         | None => mret (Next (AppError "Invalid invitation code" 400))
         | Some invitation =>
             match creator with
             | None => throw TypeError
             | Some creator =>
                 mret (Json 200
                   (Verified.mk
                      (EventView.mk eventId (Event.name event)
                         (Event.date event) (Event.location event)
                         (Event.description event) (User.name creator))
                      (InvitationView.mk (Invitee._id invitation)
                         (Invitee.status invitation)
                         (Invitee.inviteCode invitation))))
             end
         end
     end).

(** *** utils/rekognition.js *)

Definition detectFaces (imagePath : string) : M DetectResponse.t := λ w,
  match rekognition_detectFaces env (length (trace w)) imagePath with
  | Some response => (Ok response, record (DetectFaces imagePath) w)
  | None =>
      (Throw (AppError "Failed to detect faces" 500),
       record (Log "Error detecting faces:") (record (DetectFaces imagePath) w))
  end.

Definition searchFaces (imagePath : string) : M SearchResponse.t := λ w,
  match rekognition_searchFaces env (length (trace w)) imagePath with
  | Some response => (Ok response, record (SearchFaces imagePath) w)
  | None =>
      (Throw (AppError "Failed to search faces" 500),
       record (Log "Error searching faces:") (record (SearchFaces imagePath) w))
  end.

(** *** controllers/photoController.js *)

(** The subdocument [photo.detectedFaces.push({ faceId, user: userId,
    boundingBox: match.Face.BoundingBox, confidence: match.Similarity })]
    stores for a match: the schema casts [user] to an ObjectId and keeps of
    Rekognition's bounding box the paths it declares. *)
Definition detected_face (m : FaceMatch.t) : DetectedFace.t :=
  DetectedFace.mk (Face.FaceId (FaceMatch.Face m))
    (castObjectId (Face.ExternalImageId (FaceMatch.Face m)))
    (FaceBox.cast (BoundingBox.entries (Face.BoundingBox (FaceMatch.Face m))))
    (FaceMatch.Similarity m).

(** The notification created for a match.  [recipient] is a path of type
    ObjectId: it holds the id [userId] is cast to, which is the id
    [User.findById] has looked up. *)
Definition tagged_notification (eventId : string) (event : Event.t)
    (photoId : string) (m : FaceMatch.t) : NotificationData.t :=
  NotificationData.mk (castObjectId (Face.ExternalImageId (FaceMatch.Face m)))
    None photo_tagged "You were recognized in a photo"
    ("You were recognized in a photo from the event: " ++ Event.name event)
    (Some eventId) (Some photoId).

(** The body of [for (const match of searchResult.FaceMatches)]. *)
Definition processPhoto_step (eventId : string) (event : Event.t)
    (photoId : string) (photo : Photo.t) (m : FaceMatch.t) : M Photo.t :=
  let userId := Face.ExternalImageId (FaceMatch.Face m) in
  user ← User_findById userId;
  match user with
  | Some _ =>
      let photo :=
        Photo.set_detectedFaces
          (Photo.detectedFaces photo ++ [detected_face m]) photo in
      createNotification (tagged_notification eventId event photoId m);;
      mret photo
  | None => mret photo
  end.

Fixpoint processPhoto_loop (eventId : string) (event : Event.t)
    (photoId : string) (photo : Photo.t) (matches : list FaceMatch.t)
    : M Photo.t :=
  match matches with
  | [] => mret photo
  | m :: rest =>
      photo ← processPhoto_step eventId event photoId photo m;
      processPhoto_loop eventId event photoId photo rest
  end.

Definition no_faces (detectResult : DetectResponse.t) : bool :=
  match DetectResponse.FaceDetails detectResult with
  | None | Some [] => true
  | Some (_ :: _) => false
  end.

Definition processPhoto (photoId : string) : M unit :=
  try_catch
    (photo ← Photo_findById photoId;
     match photo with
     | None => console_error ("Photo not found with id: " ++ photoId)
     | Some photo =>
         event ← Event_findById (Photo.event photo);
         match event with
         | None => console_error ("Event not found for photo: " ++ photoId)
         | Some event =>
             detectResult ← detectFaces (Photo.path photo);
             if no_faces detectResult then
               Photo_save photoId (Photo.set_isProcessed true photo)
             else
               searchResult ← searchFaces (Photo.path photo);
               photo ← processPhoto_loop (Photo.event photo) event photoId
                         photo
                         (default [] (SearchResponse.FaceMatches searchResult));
               Photo_save photoId (Photo.set_isProcessed true photo)
         end
     end)
    (λ error, console_error "Error processing photo:").

End Handlers.

(** ** Further handlers *)

(** [getEvent] answers with the event as [populate] leaves it: the creator
    and, entry by entry, the user of an invitee, [None] where the path is
    unset or names no user. *)
Module PopulatedEvent.
Record t := mk {
  event : Event.t;
  creator : User.t;
  inviteeUsers : list (option User.t)
}.
End PopulatedEvent.

(** [notification.isRead = b]. *)
Definition Notification_set_isRead (b : bool) (n : Notification.t)
    : Notification.t :=
  Notification.mk (Notification.recipient n) (Notification.email n)
    (Notification.type n) (Notification.title n) (Notification.message n)
    (Notification.relatedEvent n) (Notification.relatedPhoto n) b
    (Notification.isSent n).

Section MoreHandlers.
Variable env : Env.

(** [removeInvitee] of controllers/eventController.js: [id] is
    [req.params.id], [requester] is [req.user.id], [inviteeId] is
    [req.params.inviteeId].  [splice(inviteeIndex, 1)] removes the entry at
    the index. *)
Definition removeInvitee (id requester inviteeId : string) : Handler Event.t :=
  handler
    (event ← Event_findById id;
     match event with
     | None =>
         mret (Next (AppError ("Event not found with id of " ++ id) 404))
     | Some event =>
         if negb (String.eqb (Event.creator event) requester) then
           mret (Next (AppError
                         "Not authorized to remove invitees from this event"
                         401))
         else
           match findIndex
                   (λ inv, String.eqb (Invitee._id inv) inviteeId)
                   (Event.invitees event) with
           | None => mret (Next (AppError "Invitee not found" 404))
           | Some inviteeIndex =>
               let event :=
                 Event.set_invitees
                   (delete inviteeIndex (Event.invitees event)) event in
               Event_save env id event;;
               mret (Json 200 event)
           end
     end).

(** [populate('invitees.user', 'name email')] on one entry. *)
Definition populate_user (us : gmap string User.t) (inv : Invitee.t)
    : option User.t :=
  match Invitee.user inv with
  | Some u => us !! u
  | None => None
  end.

(** [getEvent] of controllers/eventController.js: [id] is [req.params.id],
    [caller] is [req.user.id].  [event.creator._id] is read first and throws
    when [populate] left [null]; an invitee counts when its populated user
    is not [null] and has the caller's id. *)
Definition getEvent (id caller : string) : Handler PopulatedEvent.t :=
  handler
    (event ← Event_findById id;
     match event with
     | None =>
         mret (Next (AppError ("Event not found with id of " ++ id) 404))
     | Some event =>
         creator ← User_populate (Event.creator event);
         us ← gets users;
         match creator with
         | None => throw TypeError
         | Some creator =>
             let isCreator := String.eqb (Event.creator event) caller in
             let isInvitee :=
               existsb
                 (λ invitee,
                    bool_decide (is_Some (populate_user us invitee))
                    && strict_eq (Invitee.user invitee) caller)
                 (Event.invitees event) in
             if negb isCreator && negb isInvitee && Event.isPrivate event then
               mret (Next (AppError "Not authorized to access this event" 401))
             else
               mret (Json 200
                       (PopulatedEvent.mk event creator
                          (populate_user us <$> Event.invitees event)))
         end
     end).

(** [markAsRead] of controllers/notificationController.js: [handle] is the
    notification [req.params.id] names, [caller] is [req.user.id].  Reading
    [notification.recipient.toString()] throws when the notification has no
    recipient. *)
Definition markAsRead (handle : nat) (caller : string)
    : Handler Notification.t :=
  handler
    (notification ← gets (λ w, notifications w !! handle);
     match notification with
     | None =>
         mret (Next (AppError
                       ("Notification not found with id of " ++ pretty handle)
                       404))
     | Some notification =>
         match Notification.recipient notification with
         | None => throw TypeError
         | Some recipient =>
             if negb (String.eqb recipient caller) then
               mret (Next (AppError
                             "Not authorized to update this notification" 401))
             else
               let notification := Notification_set_isRead true notification in
               Notification_save env handle notification;;
               mret (Json 200 notification)
         end
     end).

End MoreHandlers.

(** ** Concrete data *)

(** Ids in stored form: two users, a third caller who is no user, a
    well-formed id that names no user, an event, photos and subdocuments. *)
Abbreviation alice_id := ("64a1ce000000000000000001"%string).
Abbreviation bob_id := ("64b0b0000000000000000002"%string).
Abbreviation carol_id := ("64ca20000000000000000003"%string).
Abbreviation ghost_id := ("64dead000000000000000009"%string).
Abbreviation party_id := ("64e1e1000000000000000001"%string).
Abbreviation no_event_id := ("64e1e1000000000000000002"%string).
Abbreviation empty_photo_id := ("64f070000000000000000000"%string).
Abbreviation group_photo_id := ("64f070000000000000000001"%string).
Abbreviation no_photo_id := ("64f070000000000000000009"%string).
Abbreviation oid_0 := ("64f000000000000000000000"%string).
Abbreviation oid_1 := ("64f000000000000000000001"%string).
Abbreviation oid_7 := ("64f000000000000000000007"%string).
Abbreviation oid_9 := ("64f000000000000000000009"%string).

Definition env0 : Env :=
  mkEnv (λ n, "code-" ++ pretty n) (λ n, "64f00000000000000000000" ++ pretty n)
    "noreply@photomingle.test" (λ _, "1/1/2025")
    (λ _ _, Some (DetectResponse.mk (Some [])))
    (λ _ _, Some (SearchResponse.mk (Some [])))
    (λ _ _, None).

Definition alice : User.t := User.mk "Alice" "alice@x.com".
Definition bob : User.t := User.mk "Bob" "bob@x.com".

Definition party : Event.t :=
  Event.mk "Party" None 0 (Some "Home") alice_id [] true.

Definition world0 : World :=
  mkWorld {[ alice_id := alice; bob_id := bob ]} {[ party_id := party ]} ∅ []
    [] 0 0.

(** The event after Bob and a@x.com were invited. *)
Definition bob_entry : Invitee.t :=
  Invitee.mk oid_0 (Some bob_id) (Some "bob@x.com") pending (Some "code-0").
Definition a_x_entry : Invitee.t :=
  Invitee.mk oid_1 None (Some "a@x.com") pending (Some "code-1").

Definition party1 : Event.t := Event.set_invitees [bob_entry; a_x_entry] party.

Definition world1 : World :=
  mkWorld {[ alice_id := alice; bob_id := bob ]} {[ party_id := party1 ]} ∅ []
    [] 2 2.

(** [world1] with other users and emails on the entries. *)
Definition party1' : Event.t :=
  Event.set_invitees
    [Invitee.mk oid_0 None (Some "robert@y.org") pending (Some "code-0");
     Invitee.mk oid_1 (Some alice_id) None pending (Some "code-1")]
    party.

Definition world1' : World :=
  mkWorld {[ alice_id := alice; bob_id := bob ]} {[ party_id := party1' ]} ∅ []
    [] 2 2.

Definition a_x : InviteeSpec.t := InviteeSpec.mk None (Some "a@x.com").
Definition bob_spec : InviteeSpec.t := InviteeSpec.mk (Some bob_id) None.
Definition ghost_spec : InviteeSpec.t := InviteeSpec.mk (Some ghost_id) None.

(** Two calls by the creator, the second repeating both invitees of the
    first. *)
Definition two_calls : list (string * option (list InviteeSpec.t)) :=
  [(alice_id, Some [a_x; bob_spec; a_x]);
   (alice_id, Some [bob_spec; ghost_spec; a_x])].

(** ** Predicates of the statements *)

(** [count p l]: how many entries of [l] satisfy [p]. *)
Definition count {A} (p : A → bool) (l : list A) : nat :=
  length (List.filter p l).

(** The entry is bound to user [u]. *)
Definition bound_to (u : string) (inv : Invitee.t) : bool :=
  strict_eq (Invitee.user inv) u.

(** The entry has no user and carries email [e]. *)
Definition email_only (e : string) (inv : Invitee.t) : bool :=
  negb (bool_decide (is_Some (Invitee.user inv)))
  && strict_eq (Invitee.email inv) e.

(** At most one entry per user identity, and at most one per email among the
    entries with no user identity. *)
Definition unique_invitees (l : list Invitee.t) : Prop :=
  (∀ u, (count (bound_to u) l ≤ 1)%nat) ∧
  (∀ e, (count (email_only e) l ≤ 1)%nat).

(** [b] is [a], or [a] is zero and [b] is one. *)
Definition at_most_one_more (a b : nat) : Prop := (a ≤ b ∧ b ≤ max 1 a)%nat.

(** From [l] to [l'] no user identity and no email of an entry without user
    identity gains a second entry. *)
Definition grows_uniquely (l l' : list Invitee.t) : Prop :=
  (∀ u, at_most_one_more (count (bound_to u) l) (count (bound_to u) l')) ∧
  (∀ e, at_most_one_more (count (email_only e) l) (count (email_only e) l')).

(** The invite codes of a list of entries, in order. *)
Definition codes (l : list Invitee.t) : list string :=
  omap Invitee.inviteCode l.

(** The codes of [l] are pairwise distinct and none of them is a name the
    uuid source hands out from its [n]-th draw on. *)
Definition fresh_codes (env : Env) (n : nat) (l : list Invitee.t) : Prop :=
  NoDup (codes l) ∧ ∀ i, (n ≤ i)%nat → uuidv4 env i ∉ codes l.

(** The uuid source never repeats a name from its [n]-th draw on. *)
Definition uuid_injective_from (env : Env) (n : nat) : Prop :=
  ∀ i j, (n ≤ i)%nat → (n ≤ j)%nat → uuidv4 env i = uuidv4 env j → i = j.

(** The element of the batch names a user by a string that is no
    ObjectId. *)
Definition malformed (spec : InviteeSpec.t) : bool :=
  truthy (InviteeSpec.userId spec) &&
  negb (bool_decide
          (is_Some (castObjectId
                      (default EmptyString (InviteeSpec.userId spec))))).

(** No element of the batch does. *)
Definition well_formed (specs : list InviteeSpec.t) : bool :=
  forallb (λ spec, negb (malformed spec)) specs.

(** The element of the batch names no user, or names one by the id in
    stored form. *)
Definition in_stored_form (spec : InviteeSpec.t) : bool :=
  negb (truthy (InviteeSpec.userId spec)) ||
  bool_decide (InviteeSpec.userId spec ≫= castObjectId
               = InviteeSpec.userId spec).

(** What one element of the batch that is not [malformed] adds to the list
    [l], if anything: the user and email of the new entry. *)
Definition accepted_spec (us : gmap string User.t) (l : list Invitee.t)
    (spec : InviteeSpec.t) : option (option string * option string) :=
  if truthy (InviteeSpec.userId spec) then
    let userId := default EmptyString (InviteeSpec.userId spec) in
    match castObjectId userId ≫= (us !!.) with
    | None => None
    | Some user =>
        if existsb (bound_to userId) l then None
        else Some (castObjectId userId, Some (User.email user))
    end
  else if truthy (InviteeSpec.email spec) then
    let email := default EmptyString (InviteeSpec.email spec) in
    if existsb (λ inv, strict_eq (Invitee.email inv) email) l then None
    else Some (None, Some email)
  else None.

(** The entries hold user ids in stored form, as the entries of a stored
    event do. *)
Definition stored_users (l : list Invitee.t) : bool :=
  forallb (λ inv, bool_decide (Invitee.user inv ≫= castObjectId
                               = Invitee.user inv)) l.

(** The list [l] has an entry for the element of the batch: one bound to
    the user its id names, if that is a user, or, for an element that names
    no user, one with its email. *)
Definition covered (us : gmap string User.t) (l : list Invitee.t)
    (spec : InviteeSpec.t) : Prop :=
  if truthy (InviteeSpec.userId spec) then
    ∀ c, InviteeSpec.userId spec ≫= castObjectId = Some c →
         is_Some (us !! c) →
         ∃ inv, inv ∈ l ∧ Invitee.user inv = Some c
  else if truthy (InviteeSpec.email spec) then
    ∃ inv, inv ∈ l ∧ Invitee.email inv = InviteeSpec.email spec
  else True.

(** Bob's id with its letters in upper case, and a string that is no id. *)
Definition bob_again : InviteeSpec.t :=
  InviteeSpec.mk (Some "64B0B0000000000000000002") None.
Definition no_id_spec : InviteeSpec.t :=
  InviteeSpec.mk (Some "not-an-id") None.

(** A sequence of [addInvitees] calls on one event, each with its requester
    and body. *)
Fixpoint addInvitees_calls (env : Env) (id : string)
    (calls : list (string * option (list InviteeSpec.t))) (w : World)
    : World :=
  match calls with
  | [] => w
  | (requester, invitees) :: rest =>
      addInvitees_calls env id rest (addInvitees env id requester invitees w).2
  end.

(** The loop touches nothing but the two name counters. *)
Definition same_store (w w' : World) : Prop :=
  users w' = users w ∧ events w' = events w ∧ photos w' = photos w ∧
  notifications w' = notifications w ∧ trace w' = trace w.

(** The list [respondToInvite] saves when the code is found at [i]. *)
Definition responded (caller : string) (st : Status) (i : nat)
    (l : list Invitee.t) : list Invitee.t :=
  alter (λ inv, if negb (bool_decide (is_Some (Invitee.user inv)))
                then Invitee.set_user (Some caller) inv else inv)
        i (alter (Invitee.set_status st) i l).

(** The entry carries the code. *)
Definition carries (code : string) (inv : Invitee.t) : bool :=
  strict_eq (Invitee.inviteCode inv) code.

(** The answer for the entry [inv] of the event [ev] and its creator. *)
Definition verified (eventId : string) (ev : Event.t) (creator : User.t)
    (inv : Invitee.t) : Verified.t :=
  Verified.mk
    (EventView.mk eventId (Event.name ev) (Event.date ev) (Event.location ev)
       (Event.description ev) (User.name creator))
    (InvitationView.mk (Invitee._id inv) (Invitee.status inv)
       (Invitee.inviteCode inv)).

(** The message [sendNotificationEmail] hands to SendGrid for a notification
    created from [d]. *)
Definition notification_email (env : Env) (d : NotificationData.t) : Email.t :=
  Email.mk (EMAIL_FROM env) (NotificationData.email d)
    (NotificationData.title d)
    (newline ++ "        <h1>" ++ NotificationData.title d ++ "</h1>" ++
     newline ++ "        <p>" ++ NotificationData.message d ++ "</p>" ++
     newline ++ "      ").

(** What [sendEmail] logs when the send fails with [e]. *)
Definition sendgrid_logs (e : Error) : list Effect :=
  Log "SendGrid Error:" ::
  match e with
  | Rejected _ (Some body) => [Log body]
  | _ => []
  end.

Definition record_all (effs : list Effect) (w : World) : World :=
  foldl (λ w eff, record eff w) w effs.

Definition mail_down : Env :=
  mkEnv (uuidv4 env0) (ObjectId env0) (EMAIL_FROM env0)
    (toLocaleDateString env0) (rekognition_detectFaces env0)
    (rekognition_searchFaces env0)
    (λ _ eff, match eff with
              | SgSend _ => Some (Rejected "Service Unavailable" None)
              | _ => None
              end).

Definition hello_bob : NotificationData.t :=
  NotificationData.mk (Some bob_id) (Some "bob@x.com") system "Hello"
    "Hello Bob" None None.

(** The message and the notification of an invitation. *)
Definition invitation_email (env : Env) (protocol host eventId : string)
    (event : Event.t) (creator : User.t) (invitee : Invitee.t) : Email.t :=
  Email.mk (EMAIL_FROM env) (Invitee.email invitee)
    ("You're invited to " ++ Event.name event)
    (invitation_html env event creator
       (protocol ++ "://" ++ host ++ "/events/" ++ eventId ++
        "/join?code=" ++ interpolate (Invitee.inviteCode invitee))).

Definition invite_notification (eventId : string) (event : Event.t)
    (creator : User.t) (invitee : Invitee.t) : NotificationData.t :=
  NotificationData.mk (Invitee.user invitee) None event_invite
    ("You're invited to " ++ Event.name event)
    (User.name creator ++ " has invited you to " ++ Event.name event)
    (Some eventId) None.

Definition add_sent (x : SentInvitation.t) (acc : Invitations.t)
    : Invitations.t :=
  Invitations.mk (Invitations.sent acc ++ [x]) (Invitations.failed acc).

Definition add_failed (x : FailedInvitation.t) (acc : Invitations.t)
    : Invitations.t :=
  Invitations.mk (Invitations.sent acc) (Invitations.failed acc ++ [x]).

Definition has_id (inviteeId : string) (inv : Invitee.t) : bool :=
  String.eqb (Invitee._id inv) inviteeId.

(** A notification of an invitation to an entry of the event that has a
    user identity and is named by the batch. *)
Definition invite_of_bound (event : Event.t) (ids : list string)
    (n : Notification.t) : Prop :=
  Notification.type n = event_invite ∧
  ∃ invitee, invitee ∈ Event.invitees event ∧ Invitee._id invitee ∈ ids ∧
    is_Some (Invitee.user invitee) ∧
    Notification.recipient n = Invitee.user invitee.

(** The id names an entry that has a user identity. *)
Definition names_bound (event : Event.t) (inviteeId : string) : bool :=
  match find (has_id inviteeId) (Event.invitees event) with
  | Some invitee => bool_decide (is_Some (Invitee.user invitee))
  | None => false
  end.

Open Scope list_scope.
Open Scope nat_scope.

(** ** The photo pipeline: data and predicates *)

(** The external identity of the match is the id of a user. *)
Definition resolves (us : gmap string User.t) (m : FaceMatch.t) : bool :=
  bool_decide
    (is_Some (castObjectId (Face.ExternalImageId (FaceMatch.Face m))
              ≫= (us !!.))).

(** The external identity of the match is a well-formed id. *)
Definition identified (m : FaceMatch.t) : bool :=
  bool_decide
    (is_Some (castObjectId (Face.ExternalImageId (FaceMatch.Face m)))).

(** The matches that resolve, in match order. *)
Definition resolved (us : gmap string User.t) (matches : list FaceMatch.t)
    : list FaceMatch.t :=
  List.filter (resolves us) matches.

(** The photo with the faces appended. *)
Definition add_faces (faces : list DetectedFace.t) (photo : Photo.t)
    : Photo.t :=
  Photo.set_detectedFaces (Photo.detectedFaces photo ++ faces) photo.

Definition box : BoundingBox.t :=
  BoundingBox.mk (1 # 4)%Q (1 # 4)%Q (1 # 2)%Q (1 # 2)%Q.

Definition bob_match : FaceMatch.t :=
  FaceMatch.mk (95 # 1)%Q (Face.mk "face-bob" bob_id box).

Definition ghost_match : FaceMatch.t :=
  FaceMatch.mk (92 # 1)%Q (Face.mk "face-ghost" ghost_id box).

(** Rekognition finds no face in [uploads/empty.jpg], two faces in any other
    image, and in the collection a match for Bob and one for an identity
    that is no user. *)
Definition studio : Env :=
  mkEnv (uuidv4 env0) (ObjectId env0) (EMAIL_FROM env0)
    (toLocaleDateString env0)
    (λ _ path,
       Some (DetectResponse.mk
               (Some (if String.eqb path "uploads/empty.jpg" then []
                      else [FaceDetail.mk box; FaceDetail.mk box]))))
    (λ _ _, Some (SearchResponse.mk (Some [bob_match; ghost_match])))
    (λ _ _, None).

Definition group_photo : Photo.t :=
  Photo.mk "group.jpg" "uploads/group.jpg" party_id alice_id [] false.

Definition empty_photo : Photo.t :=
  Photo.mk "empty.jpg" "uploads/empty.jpg" party_id alice_id [] false.

Definition world2 : World :=
  mkWorld {[ alice_id := alice; bob_id := bob ]} {[ party_id := party1 ]}
    {[ empty_photo_id := empty_photo; group_photo_id := group_photo ]} [] [] 2 2.

(** ** Predicates of the further statements *)

(** An entry as [addInvitees] appends it for a spec of the batch: pending,
    with a code and an email; bound to a user of the collection, with that
    user's email, for a spec whose user id is cast to the id of the user,
    or without user, with the email of a spec that names no user. *)
Definition appended_for (us : gmap string User.t)
    (specs : list InviteeSpec.t) (inv : Invitee.t) : Prop :=
  Invitee.status inv = pending ∧ is_Some (Invitee.inviteCode inv) ∧
  match Invitee.user inv with
  | Some u =>
      ∃ user spec, us !! u = Some user ∧
        Invitee.email inv = Some (User.email user) ∧
        spec ∈ specs ∧ InviteeSpec.userId spec ≫= castObjectId = Some u
  | None =>
      ∃ spec, spec ∈ specs ∧ truthy (InviteeSpec.userId spec) = false ∧
        truthy (InviteeSpec.email spec) = true ∧
        Invitee.email inv = InviteeSpec.email spec
  end.

(** The ids the two result lists of [sendInvitations] report, the sent ones
    first. *)
Definition reported_ids (r : Invitations.t) : list string :=
  (SentInvitation.id <$> Invitations.sent r) ++
  (FailedInvitation.id <$> Invitations.failed r).

(** An effect [sendInvitations] may perform for the batch [ids] on [event]:
    the invitation message of an entry the batch names, the creation of a
    notification, or a log line; no save of any document and no call to
    Rekognition. *)
Definition invitation_effect (env : Env) (protocol host eventId : string)
    (event : Event.t) (creator : User.t) (ids : list string) (eff : Effect)
    : Prop :=
  match eff with
  | SgSend msg =>
      ∃ invitee, invitee ∈ Event.invitees event ∧
        Invitee._id invitee ∈ ids ∧
        msg = invitation_email env protocol host eventId event creator invitee
  | NotificationCreate _ | Log _ => True
  | _ => False
  end.

(** The store rejects every new notification; everything else goes
    through, and Rekognition answers as in [studio]. *)
Definition notifications_down : Env :=
  mkEnv (uuidv4 env0) (ObjectId env0) (EMAIL_FROM env0)
    (toLocaleDateString env0) (rekognition_detectFaces studio)
    (rekognition_searchFaces studio)
    (λ _ eff, match eff with
              | NotificationCreate _ =>
                  Some (ValidationError "Notification validation failed")
              | _ => None
              end).

(** An effect [processPhoto] may perform for the photo [photoId]: a call to
    Rekognition, the creation of a notification, a log line, or a save of
    that photo; no message, no save of an event, of a notification or of
    another photo. *)
Definition pipeline_effect (photoId : string) (eff : Effect) : Prop :=
  match eff with
  | DetectFaces _ | SearchFaces _ | NotificationCreate _ | Log _ => True
  | PhotoSave id _ => id = photoId
  | _ => False
  end.

(** Rekognition is unreachable. *)
Definition rekognition_down : Env :=
  mkEnv (uuidv4 env0) (ObjectId env0) (EMAIL_FROM env0)
    (toLocaleDateString env0) (λ _ _, None) (λ _ _, None) (λ _ _, None).

Definition alice_match : FaceMatch.t :=
  FaceMatch.mk (91 # 1)%Q (Face.mk "face-alice" alice_id box).

(** Faces are found, the search matches Bob and Alice, and the store rejects
    what it is asked as fourth effect. *)
Definition fourth_effect_fails : Env :=
  mkEnv (uuidv4 env0) (ObjectId env0) (EMAIL_FROM env0)
    (toLocaleDateString env0) (rekognition_detectFaces studio)
    (λ _ _, Some (SearchResponse.mk (Some [bob_match; alice_match])))
    (λ t _, if Nat.eqb t 3 then Some (Rejected "write failed" None)
            else None).

(** The store accepts a new notification and rejects the save of one. *)
Definition notification_save_fails : Env :=
  mkEnv (uuidv4 env0) (ObjectId env0) (EMAIL_FROM env0)
    (toLocaleDateString env0) (rekognition_detectFaces env0)
    (rekognition_searchFaces env0)
    (λ _ eff, match eff with
              | NotificationSave _ _ => Some (Rejected "write failed" None)
              | _ => None
              end).

(** The caller may read the event: it is the creator, or the event is not
    private, or an entry of the event has the caller as user and that user
    is in the collection. *)
Definition may_read (us : gmap string User.t) (ev : Event.t)
    (caller : string) : Prop :=
  Event.creator ev = caller ∨ Event.isPrivate ev = false ∨
  ∃ inv, inv ∈ Event.invitees ev ∧ Invitee.user inv = Some caller ∧
         is_Some (us !! caller).

(** [world1] with a notification for Bob and one without recipient. *)
Definition bob_note : Notification.t :=
  Notification.mk (Some bob_id) None system "Hello" "Hello Bob" None None
    false false.

Definition stray_note : Notification.t :=
  Notification.mk None (Some "a@x.com") system "Hello" "Hello" None None
    false false.

Definition world3 : World :=
  mkWorld {[ alice_id := alice; bob_id := bob ]} {[ party_id := party1 ]} ∅
    [bob_note; stray_note] [] 2 2.

(** * Proofs *)

Ltac run :=
  unfold handler, try_catch, attempt, gets, throw, console_error, perform,
    mbind, M_bind, mret, M_ret in *; simpl in *.

Lemma count_app {A} (p : A → bool) l1 l2 :
  count p (l1 ++ l2) = (count p l1 + count p l2)%nat.
Proof. unfold count. by rewrite List.filter_app, length_app. Qed.

Lemma count_zero_existsb {A} (p : A → bool) l :
  existsb p l = false → count p l = 0.
Proof.
  unfold count. induction l as [|x l IH]; simpl; [done|].
  destruct (p x); simpl; [done|]. exact IH.
Qed.

(** **** Object ids *)

Lemma hex_digit_stored c c' : hex_digit c = Some c' → hex_digit c' = Some c'.
Proof.
  unfold hex_digit. set (n := Ascii.nat_of_ascii c). intros H.
  destruct (Nat.leb 48 n && Nat.leb n 57) eqn:H1.
  { injection H as <-. fold n. by rewrite H1. }
  destruct (Nat.leb 97 n && Nat.leb n 102) eqn:H2.
  { injection H as <-. fold n. by rewrite H1, H2. }
  destruct (Nat.leb 65 n && Nat.leb n 70) eqn:H3; [|done].
  injection H as <-.
  apply andb_true_iff in H3 as [Ha%Nat.leb_le Hb%Nat.leb_le].
  rewrite Ascii.nat_ascii_embedding by lia.
  replace (Nat.leb (n + 32) 57) with false
    by (symmetry; apply Nat.leb_gt; lia).
  replace (Nat.leb 97 (n + 32)) with true by (symmetry; apply Nat.leb_le; lia).
  replace (Nat.leb (n + 32) 102) with true
    by (symmetry; apply Nat.leb_le; lia).
  by rewrite andb_false_r.
Qed.

Lemma hex_string_stored s c :
  hex_string s = Some c →
  hex_string c = Some c ∧ String.length c = String.length s.
Proof.
  revert c. induction s as [|a s IH]; intros c; simpl.
  - by intros [= <-].
  - destruct (hex_digit a) as [a'|] eqn:Ha; [|done].
    destruct (hex_string s) as [r|]; [|done]. intros [= <-].
    destruct (IH r eq_refl) as [Hr Hlen]. simpl.
    by rewrite (hex_digit_stored _ _ Ha), Hr, Hlen.
Qed.

(** The cast of an id in stored form is that id. *)
Lemma castObjectId_stored s c : castObjectId s = Some c → castObjectId c = Some c.
Proof.
  unfold castObjectId. destruct (Nat.eqb_spec (String.length s) 24) as [Hs|];
    [|done].
  intros [Hc Hlen]%hex_string_stored. by rewrite Hlen, Hs.
Qed.

Lemma castObjectId_truthy s c : castObjectId s = Some c → truthy (Some s) = true.
Proof. unfold castObjectId. by destruct s. Qed.

Lemma in_stored_form_well s :
  in_stored_form s = true → malformed s = false.
Proof.
  unfold in_stored_form, malformed.
  destruct (truthy (InviteeSpec.userId s)) eqn:Ht; simpl; [|done].
  intros H%bool_decide_eq_true.
  destruct (InviteeSpec.userId s) as [raw|]; [|done]. simpl in *.
  rewrite H. by rewrite bool_decide_eq_true_2 by eauto.
Qed.

Lemma forallb_in_stored_form_well specs :
  forallb in_stored_form specs = true → well_formed specs = true.
Proof.
  unfold well_formed. induction specs as [|s specs IH]; simpl; [done|].
  intros [Hs Hall]%andb_true_iff.
  by rewrite (in_stored_form_well _ Hs), IH.
Qed.

Section AddInvitees.
Variable env : Env.

Lemma addInvitees_step_eq event spec w :
  addInvitees_step env event spec w =
  if malformed spec then
    (Throw (CastError (default EmptyString (InviteeSpec.userId spec))),
     next_uuid w)
  else
    match accepted_spec (users w) (Event.invitees event) spec with
    | None => (Ok event, next_uuid w)
    | Some (u, e) =>
        (Ok (Event.set_invitees
               (Event.invitees event ++
                  [Invitee.mk (ObjectId env (oids w)) u e pending
                     (Some (uuidv4 env (uuids w)))])
               event),
         next_oid (next_uuid w))
    end.
Proof.
  unfold addInvitees_step, malformed, accepted_spec, push_invitee,
    User_findById, uuidv4_call, new_ObjectId, bound_to.
  run.
  destruct (truthy (InviteeSpec.userId spec)); simpl.
  - destruct (castObjectId _) as [c|]; simpl; [|done].
    destruct (users w !! c); simpl; [|done].
    by destruct (existsb _ _).
  - destruct (truthy (InviteeSpec.email spec)); simpl; [|done].
    by destruct (existsb _ _).
Qed.

(** A step changes nothing but the two name counters, however it ends. *)
Lemma addInvitees_step_store event spec w r w' :
  addInvitees_step env event spec w = (r, w') → same_store w w'.
Proof.
  rewrite addInvitees_step_eq.
  destruct (malformed spec); [by intros [= <- <-]|].
  destruct (accepted_spec _ _ _) as [[??]|]; by intros [= <- <-].
Qed.

Lemma same_store_trans w1 w2 w3 :
  same_store w1 w2 → same_store w2 w3 → same_store w1 w3.
Proof.
  intros (?&?&?&?&?) (?&?&?&?&?). unfold same_store.
  split_and!; congruence.
Qed.

(** The loop returns when no spec is malformed, and then keeps whatever
    every step keeps. *)
Lemma addInvitees_loop_inv (P : Event.t → World → Prop) specs :
  well_formed specs = true →
  (∀ event w spec, spec ∈ specs → malformed spec = false → P event w →
     ∀ event' w', addInvitees_step env event spec w = (Ok event', w') →
     P event' w') →
  ∀ event w, P event w →
  ∃ event' w', addInvitees_loop env event specs w = (Ok event', w') ∧
               P event' w'.
Proof.
  unfold well_formed.
  induction specs as [|spec specs IH]; intros Hwf Hstep event w HP.
  - by exists event, w.
  - simpl in Hwf. apply andb_true_iff in Hwf as [Hs%negb_true_iff Hwf].
    simpl. unfold mbind, M_bind.
    pose proof (addInvitees_step_eq event spec w) as Heq.
    rewrite Hs in Heq.
    destruct (accepted_spec _ _ _) as [[u e]|]; rewrite Heq;
      (apply IH;
       [done
       |intros ??? Hin; apply Hstep; by right
       |eapply Hstep; [by left|done|done|done]]).
Qed.

(** With a malformed spec in the batch the loop throws the cast error,
    having changed nothing but the name counters. *)
Lemma addInvitees_loop_throws specs event w :
  well_formed specs = false →
  ∃ raw w', addInvitees_loop env event specs w = (Throw (CastError raw), w') ∧
            same_store w w'.
Proof.
  unfold well_formed. revert event w.
  induction specs as [|spec specs IH]; intros event w Hwf; [done|].
  simpl in Hwf. simpl. unfold mbind, M_bind.
  destruct (addInvitees_step env event spec w) as [[ev1|e] w1] eqn:Hstep.
  - pose proof (addInvitees_step_store _ _ _ _ _ Hstep) as Hs.
    rewrite addInvitees_step_eq in Hstep.
    destruct (malformed spec); [done|]. simpl in Hwf.
    destruct (IH ev1 w1 Hwf) as (raw&w'&->&Hs').
    exists raw, w'. split; [done|]. by eapply same_store_trans.
  - pose proof (addInvitees_step_store _ _ _ _ _ Hstep) as Hs.
    rewrite addInvitees_step_eq in Hstep.
    destruct (malformed spec).
    + injection Hstep as <- <-. by eexists _, _.
    + by destruct (accepted_spec _ _ _) as [[??]|].
Qed.

Lemma accepted_spec_Some us l spec u e :
  accepted_spec us l spec = Some (u, e) →
  (∃ userId c user,
     InviteeSpec.userId spec = Some userId ∧ castObjectId userId = Some c ∧
     us !! c = Some user ∧
     u = Some c ∧ e = Some (User.email user) ∧
     existsb (bound_to userId) l = false) ∨
  (∃ email,
     truthy (InviteeSpec.userId spec) = false ∧
     InviteeSpec.email spec = Some email ∧ u = None ∧ e = Some email ∧
     existsb (λ inv, strict_eq (Invitee.email inv) email) l = false).
Proof.
  unfold accepted_spec.
  destruct (truthy (InviteeSpec.userId spec)) eqn:Hu.
  - destruct (InviteeSpec.userId spec) as [userId|]; [|done]. simpl.
    destruct (castObjectId userId) as [c|] eqn:Hc; [|done]. simpl.
    destruct (us !! c) as [user|] eqn:Hus; [|done].
    destruct (existsb _ _) eqn:Hex; [done|].
    intros [= <- <-]. left. by exists userId, c, user.
  - destruct (truthy (InviteeSpec.email spec)) eqn:He; [|done].
    destruct (InviteeSpec.email spec) as [email|]; [|done]. simpl.
    destruct (existsb _ _) eqn:Hex; [done|].
    intros [= <- <-]. right. by exists email.
Qed.

Lemma addInvitees_loop_store specs event w r w' :
  addInvitees_loop env event specs w = (r, w') → same_store w w'.
Proof.
  revert event w. induction specs as [|spec specs IH]; intros event w.
  - by intros [= <- <-].
  - simpl. unfold mbind, M_bind.
    destruct (addInvitees_step env event spec w) as [[ev1|e] w1] eqn:Hstep;
      pose proof (addInvitees_step_store _ _ _ _ _ Hstep) as Hs.
    + intros Hl%IH. by eapply same_store_trans.
    + by intros [= <- <-].
Qed.

Lemma addInvitees_loop_returns specs event w :
  well_formed specs = true →
  ∃ event' w', addInvitees_loop env event specs w = (Ok event', w') ∧
               same_store w w'.
Proof.
  intros Hwf.
  destruct (addInvitees_loop_inv (λ _ _, True) specs Hwf) with event w
    as (ev'&w'&Hl&_); [done..|].
  exists ev', w'. split; [done|]. by eapply addInvitees_loop_store.
Qed.

(** One call: it leaves without an effect, or is stopped by a malformed
    user id with no effect either, or runs the loop on the stored event and
    saves the result once. *)
Lemma addInvitees_call id requester body w :
  (∃ err, addInvitees env id requester body w = (Next err, w) ∧
     (body = None ∨ events w !! id = None ∨
      ∃ ev, events w !! id = Some ev ∧ Event.creator ev ≠ requester)) ∨
  (∃ specs ev raw w1,
     body = Some specs ∧ events w !! id = Some ev ∧
     Event.creator ev = requester ∧ well_formed specs = false ∧
     addInvitees env id requester body w = (Next (CastError raw), w1) ∧
     same_store w w1) ∨
  (∃ specs ev ev' w1,
     body = Some specs ∧ events w !! id = Some ev ∧
     Event.creator ev = requester ∧ well_formed specs = true ∧
     addInvitees_loop env ev specs w = (Ok ev', w1) ∧ same_store w w1 ∧
     match rejects env (length (trace w)) (EventSave id ev') with
     | Some err =>
         addInvitees env id requester body w =
         (Next err, record (EventSave id ev') w1)
     | None =>
         addInvitees env id requester body w =
         (Json 200 ev', set_events <[id := ev']> (record (EventSave id ev') w1))
     end).
Proof.
  unfold addInvitees, Event_findById, Event_save.
  destruct body as [specs|]; [|left; run; eauto].
  destruct (events w !! id) as [ev|] eqn:Hev; [|left; run; rewrite Hev; eauto].
  destruct (String.eqb_spec (Event.creator ev) requester) as [Hc|Hc].
  - right. destruct (well_formed specs) eqn:Hwf.
    + right. destruct (addInvitees_loop_returns specs ev w Hwf)
        as (ev'&w1&Hl&Hs).
      exists specs, ev, ev', w1. split_and!; try done.
      run. rewrite Hev. simpl.
      destruct (String.eqb_spec (Event.creator ev) requester); [|done]. simpl.
      rewrite Hl. destruct Hs as (_&_&_&_&->).
      by destruct (rejects env _ _).
    + left. destruct (addInvitees_loop_throws specs ev w Hwf)
        as (raw&w1&Hl&Hs).
      exists specs, ev, raw, w1. split_and!; try done.
      run. rewrite Hev. simpl.
      destruct (String.eqb_spec (Event.creator ev) requester); [|done]. simpl.
      by rewrite Hl.
  - left. run. rewrite Hev. simpl.
    destruct (String.eqb_spec (Event.creator ev) requester); [done|].
    simpl. eauto 10.
Qed.

(** **** No second entry for a user or an email *)

Lemma count_snoc {A} (p : A → bool) l x :
  count p (l ++ [x]) = (count p l + if p x then 1 else 0)%nat.
Proof. rewrite count_app. unfold count. simpl. by destruct (p x). Qed.

Lemma count_zero_weaken {A} (p q : A → bool) l :
  (∀ x, p x = true → q x = true) → existsb q l = false → count p l = 0.
Proof.
  intros Hpq Hq. apply count_zero_existsb.
  induction l as [|x l IH]; simpl in *; [done|].
  apply orb_false_iff in Hq as [Hx Hl]. rewrite (IH Hl), orb_false_r.
  destruct (p x) eqn:Hp; [|done]. apply Hpq in Hp. congruence.
Qed.

Lemma grows_uniquely_refl l : grows_uniquely l l.
Proof. split; intros; unfold at_most_one_more; lia. Qed.

Lemma grows_uniquely_trans l1 l2 l3 :
  grows_uniquely l1 l2 → grows_uniquely l2 l3 → grows_uniquely l1 l3.
Proof.
  unfold grows_uniquely, at_most_one_more. intros [Hu1 He1] [Hu2 He2].
  split; [intros u; specialize (Hu1 u); specialize (Hu2 u)
         |intros e; specialize (He1 e); specialize (He2 e)]; lia.
Qed.

Lemma grows_uniquely_unique l l' :
  grows_uniquely l l' → unique_invitees l → unique_invitees l'.
Proof.
  unfold grows_uniquely, at_most_one_more, unique_invitees.
  intros [Hu He] [Hu1 He1].
  split; [intros u; specialize (Hu u); specialize (Hu1 u)
         |intros e; specialize (He e); specialize (He1 e)]; lia.
Qed.

Lemma accepted_spec_grows us l spec u e id c :
  in_stored_form spec = true →
  accepted_spec us l spec = Some (u, e) →
  grows_uniquely l (l ++ [Invitee.mk id u e pending c]).
Proof.
  intros Hform
    [(userId&c'&user&Hid&Hc&_&->&->&Hex)|(email&_&_&->&->&Hex)]%accepted_spec_Some;
    split; intros x; rewrite count_snoc; unfold at_most_one_more;
    set (n := count _ l); unfold bound_to, email_only; simpl.
  - assert (c' = userId) as ->.
    { unfold in_stored_form in Hform.
      rewrite Hid, (castObjectId_truthy _ _ Hc) in Hform. simpl in Hform.
      apply bool_decide_eq_true in Hform. congruence. }
    destruct (String.eqb_spec userId x) as [<-|]; [|lia].
    subst n. rewrite (count_zero_existsb _ _ Hex). lia.
  - lia.
  - lia.
  - destruct (String.eqb_spec email x) as [<-|]; [|lia].
    subst n.
    rewrite (count_zero_weaken (email_only email)
               (λ inv, strict_eq (Invitee.email inv) email) l); [lia| |done].
    by intros ? [_ ?]%andb_true_iff.
Qed.

Lemma addInvitees_loop_grows specs event w :
  forallb in_stored_form specs = true →
  ∃ event' w', addInvitees_loop env event specs w = (Ok event', w') ∧
    grows_uniquely (Event.invitees event) (Event.invitees event').
Proof.
  intros Hform.
  apply (addInvitees_loop_inv
           (λ ev' _, grows_uniquely (Event.invitees event)
                                    (Event.invitees ev')));
    [by apply forallb_in_stored_form_well| |apply grows_uniquely_refl].
  intros ev w1 spec Hin Hwf Hg ev' w'. rewrite addInvitees_step_eq, Hwf.
  destruct (accepted_spec _ _ _) as [[u e]|] eqn:Hacc; intros [= <- <-];
    [|done].
  eapply grows_uniquely_trans; [exact Hg|].
  simpl. eapply accepted_spec_grows; [|done].
  rewrite forallb_forall in Hform. apply Hform.
  by apply list_elem_of_In.
Qed.

Lemma addInvitees_calls_grows id calls w ev :
  Forall (λ call, forallb in_stored_form (default [] call.2) = true) calls →
  events w !! id = Some ev →
  ∃ ev', events (addInvitees_calls env id calls w) !! id = Some ev' ∧
    grows_uniquely (Event.invitees ev) (Event.invitees ev').
Proof.
  revert w ev. induction calls as [|[requester body] calls IH];
    intros w ev Hform Hev.
  - exists ev. split; [done|apply grows_uniquely_refl].
  - apply Forall_cons in Hform as [Hbody Hform]. simpl.
    destruct (addInvitees_call id requester body w)
      as [(err&->&_)
         |[(specs&ev0&raw&w1&->&_&_&Hwf&_)
          |(specs&ev0&ev1&w1&->&Hev0&_&_&Hl&Hs&Hr)]]; [by apply IH| |].
    { simpl in Hbody. apply forallb_in_stored_form_well in Hbody. congruence. }
    rewrite Hev in Hev0. injection Hev0 as <-.
    destruct (addInvitees_loop_grows specs ev w Hbody) as (ev1'&w1'&Hl'&Hg).
    rewrite Hl in Hl'. injection Hl' as <- <-.
    destruct Hs as (_&Hevs&_).
    destruct (rejects env _ _); rewrite Hr; simpl.
    + apply IH; [done|]. simpl. by rewrite Hevs.
    + destruct (IH (set_events <[id:=ev1]> (record (EventSave id ev1) w1)) ev1)
        as (ev'&Hev'&Hg'); [done|simpl; apply lookup_insert_eq|].
      exists ev'. split; [done|]. by eapply grows_uniquely_trans.
Qed.

(** **** Issued entries stay, and codes stay distinct *)

Lemma fresh_codes_mono n m l :
  (n ≤ m)%nat → fresh_codes env n l → fresh_codes env m l.
Proof. intros Hnm [Hnd Hfr]. split; [done|]. intros i Hi. apply Hfr. lia. Qed.

Lemma fresh_codes_snoc n0 n l id u e :
  uuid_injective_from env n0 → (n0 ≤ n)%nat → fresh_codes env n l →
  fresh_codes env (S n)
    (l ++ [Invitee.mk id u e pending (Some (uuidv4 env n))]).
Proof.
  intros Hinj Hn0 [Hnd Hfr]. unfold fresh_codes, codes in *.
  rewrite omap_app. simpl. split.
  - apply NoDup_app. split_and!; [done| |apply NoDup_singleton].
    intros c Hc ->%list_elem_of_singleton. by apply (Hfr n).
  - intros i Hi [Hin|Hin%list_elem_of_singleton]%elem_of_app.
    + apply (Hfr i); [lia|done].
    + apply Hinj in Hin; lia.
Qed.

(** However the loop ends it has drawn uuids only; when it returns, the
    old list is a prefix of the new one and fresh codes stay fresh. *)
Lemma addInvitees_loop_codes n0 specs event w r w' :
  addInvitees_loop env event specs w = (r, w') →
  (uuids w ≤ uuids w')%nat ∧
  ∀ event', r = Ok event' →
    Event.invitees event `prefix_of` Event.invitees event' ∧
    (uuid_injective_from env n0 → (n0 ≤ uuids w)%nat →
     fresh_codes env (uuids w) (Event.invitees event) →
     fresh_codes env (uuids w') (Event.invitees event')).
Proof.
  revert event w. induction specs as [|spec specs IH]; intros event w.
  - intros [= <- <-]. split; [done|]. by intros ? [= <-].
  - simpl. unfold mbind, M_bind. rewrite addInvitees_step_eq.
    destruct (malformed spec).
    { intros [= <- <-]. simpl. split; [lia|done]. }
    destruct (accepted_spec _ _ _) as [[u e]|].
    + intros [Hle Hok]%IH. simpl in *. split; [lia|].
      intros event' Hr. destruct (Hok _ Hr) as [Hpre Hfr]. split.
      * etrans; [|exact Hpre]. by apply prefix_app_r.
      * intros Hinj Hn0 H. apply Hfr; [done|lia|].
        by eapply fresh_codes_snoc.
    + intros [Hle Hok]%IH. simpl in *. split; [lia|].
      intros event' Hr. destruct (Hok _ Hr) as [Hpre Hfr]. split; [done|].
      intros Hinj Hn0 H. apply Hfr; [done|lia|].
      eapply fresh_codes_mono; [|done]. lia.
Qed.

Lemma addInvitees_calls_codes n0 id calls w ev :
  events w !! id = Some ev →
  ∃ ev', events (addInvitees_calls env id calls w) !! id = Some ev' ∧
    Event.invitees ev `prefix_of` Event.invitees ev' ∧
    (uuid_injective_from env n0 → (n0 ≤ uuids w)%nat →
     fresh_codes env (uuids w) (Event.invitees ev) →
     fresh_codes env (uuids (addInvitees_calls env id calls w))
       (Event.invitees ev')).
Proof.
  revert w ev. induction calls as [|[requester body] calls IH]; intros w ev Hev.
  - by exists ev.
  - simpl.
    destruct (addInvitees_call id requester body w)
      as [(err&->&_)
         |[(specs&ev0&raw&w1&->&_&_&Hwf&Hr&Hs)
          |(specs&ev0&ev1&w1&->&Hev0&_&_&Hl&Hs&Hr)]]; [by apply IH| |].
    { rewrite Hr. simpl.
      destruct (addInvitees_loop_throws specs ev w Hwf) as (raw'&w1'&Hl&_).
      pose proof (addInvitees_loop_codes n0 _ _ _ _ _ Hl) as [Hle _].
      assert (w1' = w1) as ->.
      { revert Hr. unfold addInvitees, Event_findById. run. rewrite Hev.
        simpl. destruct (String.eqb _ _); simpl; [|by intros [= _ <-]].
        rewrite Hl. by intros [= _ <-]. }
      destruct Hs as (_&Hevs&_).
      destruct (IH w1 ev) as (ev'&Hev'&Hpre'&Hfr'); [by rewrite Hevs|].
      exists ev'. split_and!; [done..|]. intros Hinj Hn0 H.
      apply Hfr'; [done|lia|]. by eapply fresh_codes_mono. }
    rewrite Hev in Hev0. injection Hev0 as <-.
    destruct (addInvitees_loop_codes n0 _ _ _ _ _ Hl) as (Hle&Hok).
    destruct (Hok _ eq_refl) as (Hpre&Hfr).
    destruct Hs as (_&Hevs&_).
    destruct (rejects env _ _); rewrite Hr; simpl.
    + destruct (IH (record (EventSave id ev1) w1) ev)
        as (ev'&Hev'&Hpre'&Hfr'); [simpl; by rewrite Hevs|].
      exists ev'. split_and!; [done..|]. intros Hinj Hn0 H.
      apply Hfr'; simpl; [done|lia|]. by eapply fresh_codes_mono.
    + destruct (IH (set_events <[id:=ev1]> (record (EventSave id ev1) w1)) ev1)
        as (ev'&Hev'&Hpre'&Hfr'); [simpl; apply lookup_insert_eq|].
      exists ev'. split_and!; [done|by etrans|]. intros Hinj Hn0 H.
      apply Hfr'; simpl; [done|lia|]. by apply Hfr.
Qed.

(** **** A spec that names no user is passed over *)

Lemma addInvitees_loop_app event l1 l2 w :
  addInvitees_loop env event (l1 ++ l2) w =
  (event1 ← addInvitees_loop env event l1;
   addInvitees_loop env event1 l2) w.
Proof.
  revert event w. induction l1 as [|spec l1 IH]; intros event w; [done|].
  simpl. unfold mbind, M_bind in *.
  destruct (addInvitees_step env event spec w) as [[ev1|e] w1]; [|done].
  apply IH.
Qed.

Lemma addInvitees_step_unresolved event spec w raw c :
  InviteeSpec.userId spec = Some raw →
  castObjectId raw = Some c →
  users w !! c = None →
  addInvitees_step env event spec w = (Ok event, next_uuid w).
Proof.
  intros Hraw Hc Hu. rewrite addInvitees_step_eq.
  unfold malformed, accepted_spec.
  rewrite Hraw, (castObjectId_truthy _ _ Hc). simpl. rewrite Hc. simpl.
  by rewrite Hu.
Qed.

End AddInvitees.

(** ** Properties of the invitation manager: [addInvitees] *)

(** In a list of stored entries none is bound to a string that is another
    spelling of an id. *)
Lemma stored_users_not_bound l raw c :
  stored_users l = true → castObjectId raw = Some c → raw ≠ c →
  existsb (bound_to raw) l = false.
Proof.
  unfold stored_users. intros Hst Hc Hne.
  induction l as [|inv l IH]; [done|]. simpl in *.
  apply andb_true_iff in Hst as [Hinv%bool_decide_eq_true Hst].
  rewrite (IH Hst), orb_false_r. unfold bound_to, strict_eq.
  destruct (Invitee.user inv) as [u|]; [|done]. simpl in Hinv.
  destruct (String.eqb_spec u raw) as [->|]; [|done]. congruence.
Qed.

Lemma stored_users_bound l raw c :
  stored_users l = true → castObjectId raw = Some c →
  existsb (bound_to raw) l = true →
  ∃ inv, inv ∈ l ∧ Invitee.user inv = Some c.
Proof.
  unfold stored_users. intros Hst Hc Hex.
  induction l as [|inv l IH]; [done|]. simpl in *.
  apply andb_true_iff in Hst as [Hinv%bool_decide_eq_true Hst].
  apply orb_true_iff in Hex as [Hb|Hex].
  - exists inv. split; [by left|]. unfold bound_to, strict_eq in Hb.
    destruct (Invitee.user inv) as [u|]; [|done].
    apply String.eqb_eq in Hb as ->. simpl in Hinv. congruence.
  - destruct (IH Hst Hex) as (inv'&?&?). exists inv'. split; [by right|done].
Qed.

Lemma stored_users_snoc l id u e st code :
  stored_users l = true → u ≫= castObjectId = u →
  stored_users (l ++ [Invitee.mk id u e st code]) = true.
Proof.
  unfold stored_users. intros Hl Hu. rewrite forallb_app, Hl. simpl.
  by rewrite bool_decide_eq_true_2.
Qed.

(** The creator names, by another spelling of the id, a user the list has
    no entry for under that spelling: the call appends an entry bound to
    the user, with the next code, and saves the event. *)
Lemma addInvitees_other_spelling env id requester w ev raw c user :
  events w !! id = Some ev → Event.creator ev = requester →
  castObjectId raw = Some c → users w !! c = Some user →
  existsb (bound_to raw) (Event.invitees ev) = false →
  let entry :=
    Invitee.mk (ObjectId env (oids w)) (Some c) (Some (User.email user))
      pending (Some (uuidv4 env (uuids w))) in
  let ev' := Event.set_invitees (Event.invitees ev ++ [entry]) ev in
  rejects env (length (trace w)) (EventSave id ev') = None →
  addInvitees env id requester (Some [InviteeSpec.mk (Some raw) None]) w =
    (Json 200 ev',
     set_events <[id := ev']>
       (record (EventSave id ev') (next_oid (next_uuid w)))).
Proof.
  intros Hev Hc Hcast Hu Hex entry ev' Hok.
  assert (addInvitees_loop env ev [InviteeSpec.mk (Some raw) None] w =
          (Ok ev', next_oid (next_uuid w))) as Hl.
  { simpl. unfold mbind, M_bind. rewrite addInvitees_step_eq.
    unfold malformed, accepted_spec. cbn [InviteeSpec.userId].
    rewrite (castObjectId_truthy _ _ Hcast). simpl default.
    rewrite Hcast. simpl. by rewrite Hu, Hex. }
  revert Hl. generalize [InviteeSpec.mk (Some raw) None]. intros specs Hl.
  unfold addInvitees, Event_findById, Event_save. run. rewrite Hev. simpl.
  destruct (String.eqb_spec (Event.creator ev) requester); [|done]. simpl.
  rewrite Hl. simpl. by rewrite Hok.
Qed.

(** C2.  The duplicate test compares the stored id of each entry with the
    string of the request, while the lookup and the push cast that string.
    So when the creator names a user of the collection by another spelling
    of the id (the same digits, a letter in upper case) and the store
    accepts the save, the call answers 200 and the stored list has one
    more entry bound to that user than before: with an entry for the user
    already there, the list has two and is no longer unique per user. *)
Theorem addInvitees_second_entry_for_user
    env id requester w ev raw c user :
  events w !! id = Some ev →
  Event.creator ev = requester →
  stored_users (Event.invitees ev) = true →
  castObjectId raw = Some c → raw ≠ c →
  users w !! c = Some user →
  (∀ e, rejects env (length (trace w)) (EventSave id e) = None) →
  let run :=
    addInvitees env id requester (Some [InviteeSpec.mk (Some raw) None]) w in
  ∃ ev', run.1 = Json 200 ev' ∧ events run.2 !! id = Some ev' ∧
    count (bound_to c) (Event.invitees ev') =
      S (count (bound_to c) (Event.invitees ev)) ∧
    (0 < count (bound_to c) (Event.invitees ev) →
     ¬ unique_invitees (Event.invitees ev'))%nat.
Proof.
  intros Hev Hc Hst Hcast Hne Hu Hok run. subst run.
  rewrite (addInvitees_other_spelling env id requester w ev raw c user)
    by eauto using stored_users_not_bound.
  eexists. split; [done|]. simpl. split; [apply lookup_insert_eq|].
  assert (count (bound_to c)
            (Event.invitees ev ++
               [Invitee.mk (ObjectId env (oids w)) (Some c)
                  (Some (User.email user)) pending
                  (Some (uuidv4 env (uuids w)))]) =
          S (count (bound_to c) (Event.invitees ev))) as Hcount.
  { rewrite count_snoc. unfold bound_to at 2. simpl.
    rewrite String.eqb_refl. lia. }
  split; [done|]. intros Hpos [Huniq _]. specialize (Huniq c).
  rewrite Hcount in Huniq. lia.
Qed.

Lemma addInvitees_second_entry_for_user_witness :
  let run := addInvitees env0 party_id alice_id (Some [bob_again]) world1 in
  unique_invitees (Event.invitees party1) ∧
  ∃ ev', run.1 = Json 200 ev' ∧ events run.2 !! party_id = Some ev' ∧
    count (bound_to bob_id) (Event.invitees ev') = 2 ∧
    ¬ unique_invitees (Event.invitees ev').
Proof.
  intros run. split.
  - split; intros x; unfold count, bound_to, email_only; cbn -[String.eqb];
      repeat (destruct (String.eqb _ x)); cbn; lia.
  - destruct (addInvitees_second_entry_for_user env0 party_id alice_id world1
                party1 "64B0B0000000000000000002" bob_id bob)
      as (ev'&Hr&Hs&Hn&Hu); [reflexivity..|discriminate|reflexivity
                             |reflexivity|].
    exists ev'. split; [exact Hr|]. split; [exact Hs|]. split; [exact Hn|].
    apply Hu. vm_compute. lia.
Defined.

(** C7.  For the same reason a later call that names an invited user by
    another spelling of the id is not passed over: the entry the user has
    stays in the list as it is, with its code, and a second entry bound to
    the same user is appended, with the next name of the uuid source as its
    code. *)
Theorem addInvitees_second_code_for_user
    env id requester w ev raw c user inv code :
  events w !! id = Some ev →
  Event.creator ev = requester →
  stored_users (Event.invitees ev) = true →
  inv ∈ Event.invitees ev → Invitee.user inv = Some c →
  Invitee.inviteCode inv = Some code →
  castObjectId raw = Some c → raw ≠ c →
  users w !! c = Some user →
  (∀ e, rejects env (length (trace w)) (EventSave id e) = None) →
  let run :=
    addInvitees env id requester (Some [InviteeSpec.mk (Some raw) None]) w in
  ∃ ev' inv', run.1 = Json 200 ev' ∧ events run.2 !! id = Some ev' ∧
    Event.invitees ev' = (Event.invitees ev ++ [inv'])%list ∧
    inv ∈ Event.invitees ev' ∧
    Invitee.user inv' = Some c ∧
    Invitee.inviteCode inv' = Some (uuidv4 env (uuids w)) ∧
    uuids run.2 = S (uuids w).
Proof.
  intros Hev Hc Hst Hin Hinv Hcode Hcast Hne Hu Hok run. subst run.
  rewrite (addInvitees_other_spelling env id requester w ev raw c user)
    by eauto using stored_users_not_bound.
  eexists _, _. split; [done|]. simpl. split; [apply lookup_insert_eq|].
  split_and!; [done| |done..]. apply elem_of_app. by left.
Qed.

Lemma addInvitees_second_code_for_user_witness :
  let run := addInvitees env0 party_id alice_id (Some [bob_again]) world1 in
  ∃ ev' inv', run.1 = Json 200 ev' ∧ events run.2 !! party_id = Some ev' ∧
    Event.invitees ev' = [bob_entry; a_x_entry; inv'] ∧
    Invitee.user bob_entry = Some bob_id ∧
    Invitee.inviteCode bob_entry = Some "code-0"%string ∧
    Invitee.user inv' = Some bob_id ∧
    Invitee.inviteCode inv' = Some "code-2"%string.
Proof.
  intros run.
  destruct (addInvitees_second_code_for_user env0 party_id alice_id world1
              party1 "64B0B0000000000000000002" bob_id bob bob_entry
              "code-0")
    as (ev'&inv'&Hr&Hs&Hl&_&Hu&Hcode&_);
    [reflexivity|reflexivity|reflexivity|by left|reflexivity|reflexivity
    |reflexivity|discriminate|reflexivity|reflexivity|].
  exists ev', inv'. split; [exact Hr|]. split; [exact Hs|].
  split; [exact Hl|]. split; [reflexivity|]. split; [reflexivity|].
  split; [exact Hu|exact Hcode].
Defined.

(** **** What a batch appends *)

Lemma appended_for_cons us spec specs inv :
  appended_for us specs inv → appended_for us (spec :: specs) inv.
Proof.
  intros (Hs&Hc&H). split_and!; [done..|].
  destruct (Invitee.user inv).
  - destruct H as (user&sp&?&?&?&?). exists user, sp.
    split_and!; [done..| |done]. by right.
  - destruct H as (sp&?&?&?&?). exists sp. split_and!; [by right|done..].
Qed.

Lemma covered_app us l l' spec : covered us l spec → covered us (l ++ l') spec.
Proof.
  unfold covered. destruct (truthy (InviteeSpec.userId spec)).
  - intros H c Hc Hu. destruct (H c Hc Hu) as (inv&?&?).
    exists inv. split; [|done]. apply elem_of_app. by left.
  - destruct (truthy (InviteeSpec.email spec)); [|done].
    intros (inv&?&?). exists inv. split; [|done]. apply elem_of_app. by left.
Qed.

Lemma accepted_spec_Some_covered us l spec u e id st code :
  accepted_spec us l spec = Some (u, e) →
  covered us (l ++ [Invitee.mk id u e st code]) spec.
Proof.
  intros Hacc. pose proof Hacc as Hacc'.
  apply accepted_spec_Some in Hacc
    as [(userId&c&user&Hid&Hc&Hus&->&->&_)|(email&Hnu&He&->&->&_)];
    unfold covered.
  - rewrite Hid, (castObjectId_truthy _ _ Hc). simpl. intros c' Hc' _.
    eexists. split; [apply elem_of_app; right; by left|]. simpl. congruence.
  - rewrite Hnu. unfold accepted_spec in Hacc'. rewrite Hnu in Hacc'.
    destruct (truthy (InviteeSpec.email spec)); [|done].
    eexists. split; [apply elem_of_app; right; by left|]. done.
Qed.

Lemma accepted_spec_None_covered us l spec :
  malformed spec = false → stored_users l = true →
  accepted_spec us l spec = None → covered us l spec.
Proof.
  unfold malformed, accepted_spec, covered. intros Hwf Hst.
  destruct (truthy (InviteeSpec.userId spec)) eqn:Ht.
  - destruct (InviteeSpec.userId spec) as [raw|]; [|done]. simpl in *.
    destruct (castObjectId raw) as [c|] eqn:Hc; simpl in *; [|done].
    intros Hacc c' [= <-] [user Hu]. rewrite Hu in Hacc.
    destruct (existsb _ _) eqn:Hex; [|done].
    by eapply stored_users_bound.
  - destruct (truthy (InviteeSpec.email spec)) eqn:He; [|done].
    destruct (InviteeSpec.email spec) as [email|]; [|done]. simpl.
    destruct (existsb _ _) eqn:Hex; [|done]. intros _.
    apply existsb_exists in Hex as (inv&Hin&Heq).
    exists inv. split; [by apply list_elem_of_In|].
    unfold strict_eq in Heq. destruct (Invitee.email inv) as [e'|]; [|done].
    by apply String.eqb_eq in Heq as ->.
Qed.

(** With no malformed spec the loop appends entries for specs of the batch,
    draws one uuid per spec and one store id per appended entry, and leaves
    an entry for every spec that names a user or, naming none, an email. *)
Lemma addInvitees_loop_appends env specs event w :
  well_formed specs = true →
  ∃ added w',
    addInvitees_loop env event specs w =
      (Ok (Event.set_invitees (Event.invitees event ++ added) event), w') ∧
    Forall (appended_for (users w) specs) added ∧
    length added ≤ length specs ∧
    uuids w' = uuids w + length specs ∧
    oids w' = oids w + length added ∧
    same_store w w' ∧
    (stored_users (Event.invitees event) = true →
     Forall (covered (users w) (Event.invitees event ++ added)) specs).
Proof.
  unfold well_formed. revert event w.
  induction specs as [|spec specs IH]; intros event w Hwf.
  - exists [], w. simpl. rewrite app_nil_r.
    split_and!; [by destruct event|done|done|lia|lia|done|done].
  - simpl in Hwf. apply andb_true_iff in Hwf as [Hs%negb_true_iff Hwf].
    simpl. unfold mbind, M_bind. rewrite addInvitees_step_eq, Hs.
    destruct (accepted_spec _ _ _) as [[u e]|] eqn:Hacc.
    + destruct (IH (Event.set_invitees
                      (Event.invitees event ++
                         [Invitee.mk (ObjectId env (oids w)) u e pending
                            (Some (uuidv4 env (uuids w)))]) event)
                   (next_oid (next_uuid w)) Hwf)
        as (added&w'&->&Hall&Hlen&Hu&Ho&Hst&Hcov).
      eexists (_ :: added), w'. simpl in *.
      rewrite <- app_assoc. simpl.
      split_and!; [by destruct event| |lia|lia|lia|done|].
      * constructor; [|by eapply Forall_impl; [|apply appended_for_cons]].
        split_and!; [done|by eexists|]. simpl.
        pose proof Hacc as Hacc'.
        apply accepted_spec_Some in Hacc
          as [(userId&c&user&Hid&Hc&Hus&->&->&_)|(email&Hnu&He&->&->&_)].
        -- exists user, spec. split_and!; [done..|by left|].
           rewrite Hid. done.
        -- exists spec. split_and!; [by left|done| |done].
           unfold accepted_spec in Hacc'. rewrite Hnu in Hacc'.
           by destruct (truthy (InviteeSpec.email spec)).
      * intros Hstored. constructor.
        -- rewrite cons_middle, app_assoc. apply covered_app.
           by apply accepted_spec_Some_covered.
        -- rewrite cons_middle, app_assoc. apply Hcov.
           apply stored_users_snoc; [done|].
           apply accepted_spec_Some in Hacc
             as [(userId&c&user&_&Hc&_&->&_)|(email&_&_&->&_)]; [|done].
           simpl. by eapply castObjectId_stored.
    + destruct (IH event (next_uuid w) Hwf)
        as (added&w'&->&Hall&Hlen&Hu&Ho&Hst&Hcov).
      exists added, w'. simpl in *.
      split_and!; [done| |lia|lia|lia|done|].
      * by eapply Forall_impl; [|apply appended_for_cons].
      * intros Hstored. constructor; [|by apply Hcov].
        apply covered_app. by apply accepted_spec_None_covered.
Qed.

(** C8.  With the event found and an array in the body: a requester who is
    not the creator gets Unauthorized and nothing changes.  For the creator,
    when every user id of the batch is well formed, the loop runs over the
    whole batch and is followed by exactly one save, of the stored event
    with the appended entries: each appended entry is pending, carries a
    code and stands for a spec of the batch, and the saved list has an
    entry for every spec that names a user of the collection or, naming no
    user, an email.  The store then holds that event, or, if the save is
    rejected, what it held before.  Whatever the batch, the store is
    written at most once, after the loop.  A spec whose well-formed user id
    resolves to no user only costs a uuid: the specs before and after it
    are processed as if it were not there. *)
Theorem addInvitees_creator_batch_single_save
    env id requester specs w ev r w' :
  events w !! id = Some ev →
  addInvitees env id requester (Some specs) w = (r, w') →
  (Event.creator ev ≠ requester → fails_with r Unauthorized ∧ w' = w) ∧
  (Event.creator ev = requester → well_formed specs = true →
   stored_users (Event.invitees ev) = true →
   ∃ added,
     let ev' := Event.set_invitees (Event.invitees ev ++ added) ev in
     Forall (appended_for (users w) specs) added ∧
     Forall (covered (users w) (Event.invitees ev')) specs ∧
     trace w' = (trace w ++ [EventSave id ev'])%list ∧
     match rejects env (length (trace w)) (EventSave id ev') with
     | None => r = Json 200 ev' ∧ events w' = <[id := ev']> (events w)
     | Some err => r = Next err ∧ events w' = events w
     end) ∧
  (Event.creator ev = requester →
   (trace w' = trace w ∧ events w' = events w) ∨
   ∃ ev', trace w' = (trace w ++ [EventSave id ev'])%list ∧
          (events w' = events w ∨ events w' = <[id := ev']> (events w))) ∧
  (∀ event before spec after w0 raw c,
     InviteeSpec.userId spec = Some raw →
     castObjectId raw = Some c →
     users w0 !! c = None →
     addInvitees_loop env event (before ++ spec :: after) w0 =
     (event1 ← addInvitees_loop env event before;
      (λ w1, addInvitees_loop env event1 after (next_uuid w1)) : M Event.t)
       w0).
Proof.
  intros Hev Hrun. split_and!.
  - intros Hc. revert Hrun. unfold addInvitees, Event_findById. run.
    rewrite Hev. simpl.
    destruct (String.eqb_spec (Event.creator ev) requester); [done|]. simpl.
    intros [= <- <-]. split; [|done]. by eexists.
  - intros Hc Hwf Hst.
    destruct (addInvitees_call env id requester (Some specs) w)
      as [(err&Heq&[?|[?|(ev0&?&?)]])
         |[(specs'&ev0&raw&w1&[= <-]&_&_&Hwf'&_)
          |(specs'&ev0&ev'&w1&[= <-]&Hev0&_&_&Hl&Hs&Hr)]];
      [done|congruence|congruence|congruence|].
    rewrite Hev in Hev0. injection Hev0 as <-.
    destruct (addInvitees_loop_appends env specs ev w Hwf)
      as (added&w1'&Hl'&Hall&_&_&_&_&Hcov).
    rewrite Hl in Hl'. injection Hl' as -> <-.
    exists added. destruct Hs as (_&Hevs&_&_&Htr).
    cbv zeta. split; [done|]. split; [by apply Hcov|].
    destruct (rejects env _ _); rewrite Hr in Hrun; injection Hrun as <- <-;
      simpl; rewrite Htr, ?Hevs; done.
  - intros Hc.
    destruct (addInvitees_call env id requester (Some specs) w)
      as [(err&Heq&[?|[?|(ev0&?&?)]])
         |[(specs'&ev0&raw&w1&[= <-]&_&_&_&Hr&Hs)
          |(specs'&ev0&ev'&w1&[= <-]&Hev0&_&_&Hl&Hs&Hr)]];
      [done|congruence|congruence| |].
    + rewrite Hr in Hrun. injection Hrun as <- <-.
      destruct Hs as (_&?&_&_&?). by left.
    + right. exists ev'. destruct Hs as (_&Hevs&_&_&Htr).
      destruct (rejects env _ _); rewrite Hr in Hrun; injection Hrun as <- <-;
        simpl; rewrite Htr, ?Hevs; auto.
  - intros event before spec after w0 raw c Hraw Hcast Hu.
    rewrite addInvitees_loop_app. unfold mbind, M_bind.
    destruct (addInvitees_loop env event before w0) as [[ev1|e] w1] eqn:Hl;
      [|done].
    apply addInvitees_loop_store in Hl as (Hus&_).
    simpl. unfold mbind, M_bind.
    erewrite addInvitees_step_unresolved; [done..|]. by rewrite Hus.
Qed.

Lemma addInvitees_creator_batch_single_save_witness :
  let specs := [ghost_spec; InviteeSpec.mk None (Some "c@x.com"); bob_spec] in
  let run := addInvitees env0 party_id alice_id (Some specs) world1 in
  ∃ added,
    let ev' := Event.set_invitees (Event.invitees party1 ++ added) party1 in
    Forall (appended_for (users world1) specs) added ∧
    Forall (covered (users world1) (Event.invitees ev')) specs ∧
    trace run.2 = [EventSave party_id ev'] ∧
    run.1 = Json 200 ev' ∧
    events run.2 = <[party_id := ev']> (events world1).
Proof.
  intros specs run.
  destruct (addInvitees_creator_batch_single_save env0 party_id alice_id
              specs world1 party1 run.1 run.2)
    as (_&Hsave&_); [reflexivity|apply surjective_pairing|].
  destruct (Hsave eq_refl eq_refl eq_refl) as (added&Hall&Hcov&Htr&Hr).
  exists added. split; [exact Hall|]. split; [exact Hcov|].
  split; [exact Htr|]. exact Hr.
Defined.

(** A string that is no id is not passed over: the call ends with the cast
    error, which the error handler answers with 404, and the spec after it
    is not processed; nothing is saved. *)
Lemma addInvitees_malformed_id_not_skipped :
  let run :=
    addInvitees env0 party_id alice_id (Some [no_id_spec; a_x]) world0 in
  run.1 = Next (CastError "not-an-id") ∧ fails_with run.1 NotFound ∧
  events run.2 = events world0 ∧ trace run.2 = [] ∧
  (addInvitees env0 party_id alice_id (Some [a_x]) world0).1 =
    Json 200 (Event.set_invitees
                [Invitee.mk oid_0 None (Some "a@x.com") pending
                   (Some "code-0")] party).
Proof.
  split_and!; [reflexivity| |reflexivity..].
  eexists. split; reflexivity.
Qed.

(** The scenario of the specification: the same email twice in one call
    yields one entry. *)
Example addInvitees_same_email_twice :
  (addInvitees env0 party_id alice_id (Some [a_x; a_x]) world0).1
  = Json 200 (Event.set_invitees
                [Invitee.mk oid_0 None (Some "a@x.com") pending
                   (Some "code-0")] party).
Proof. vm_compute. reflexivity. Qed.

(** ** Properties of the invitation manager: [respondToInvite] *)

Lemma findIndex_None {A} (p : A → bool) l :
  (∀ x, x ∈ l → p x = false) → findIndex p l = None.
Proof.
  induction l as [|x l IH]; intros H; simpl; [done|].
  rewrite (H x) by (by left). rewrite IH; [done|].
  intros y Hy. apply H. by right.
Qed.

Lemma responded_keeps_binding caller st i l j inv u :
  l !! j = Some inv → Invitee.user inv = Some u →
  ∃ inv', responded caller st i l !! j = Some inv' ∧
          Invitee.user inv' = Some u ∧ Invitee._id inv' = Invitee._id inv.
Proof.
  intros Hj Hu. unfold responded.
  destruct (decide (i = j)) as [->|Hne].
  - rewrite !list_lookup_alter_eq, Hj. simpl. rewrite Hu. simpl.
    eexists. split; [done|]. by simpl.
  - rewrite !list_lookup_alter_ne by done. eauto.
Qed.

(** One call: it leaves without an effect, or saves the event once with the
    entry at the first index carrying the code updated. *)
Lemma respondToInvite_call env id caller status inviteCode w :
  (∃ err, respondToInvite env id caller status inviteCode w = (Next err, w) ∧
     (error_kind err = InvalidInput ∨
      error_kind err = NotFound ∧ events w !! id = None) ∧
     (parse_status status = None → error_kind err = InvalidInput)) ∨
  (∃ st code ev i,
     parse_status status = Some st ∧ inviteCode = Some code ∧
     events w !! id = Some ev ∧
     findIndex (λ inv, strict_eq (Invitee.inviteCode inv) code)
               (Event.invitees ev) = Some i ∧
     let ev' :=
       Event.set_invitees (responded caller st i (Event.invitees ev)) ev in
     match rejects env (length (trace w)) (EventSave id ev') with
     | Some err =>
         respondToInvite env id caller status inviteCode w =
         (Next err, record (EventSave id ev') w)
     | None =>
         respondToInvite env id caller status inviteCode w =
         (Json 200 ev', set_events <[id := ev']> (record (EventSave id ev') w))
     end).
Proof.
  unfold respondToInvite, Event_findById, Event_save.
  destruct (parse_status status) as [st|] eqn:Hst;
    [|left; run; eexists; split_and!; eauto].
  destruct inviteCode as [code|]; [|left; run; eexists; split_and!; eauto].
  destruct (truthy (Some code)) eqn:Hcode;
    [|left; run; eexists; split_and!; eauto; intros; done].
  destruct (events w !! id) as [ev|] eqn:Hev;
    [|left; run; rewrite Hev; simpl; eexists; split_and!; eauto;
      intros; done].
  destruct (findIndex (λ inv, strict_eq (Invitee.inviteCode inv) code)
              (Event.invitees ev)) as [i|] eqn:Hi.
  - right. exists st, code, ev, i. split_and!; try done.
    run. rewrite Hev. simpl. rewrite Hi. unfold responded.
    by destruct (rejects env _ _).
  - left. run. rewrite Hev. simpl. rewrite Hi.
    eexists; split_and!; eauto; intros; done.
Qed.

(** C4.  Whatever the code, the status and the caller, an entry that has a
    user identity before a [respondToInvite] call has the same one after it,
    at the same place in the list. *)
Theorem respondToInvite_keeps_binding
    env id caller status inviteCode w r w' ev i inv u :
  respondToInvite env id caller status inviteCode w = (r, w') →
  events w !! id = Some ev →
  Event.invitees ev !! i = Some inv →
  Invitee.user inv = Some u →
  ∃ ev' inv', events w' !! id = Some ev' ∧
    Event.invitees ev' !! i = Some inv' ∧
    Invitee.user inv' = Some u ∧ Invitee._id inv' = Invitee._id inv.
Proof.
  intros Hrun Hev Hi Hu.
  destruct (respondToInvite_call env id caller status inviteCode w)
    as [(err&Heq&_)|(st&code&ev0&j&_&_&Hev0&_&Hr)].
  - rewrite Heq in Hrun. injection Hrun as <- <-. by exists ev, inv.
  - rewrite Hev in Hev0. injection Hev0 as <-. simpl in Hr.
    destruct (responded_keeps_binding caller st j _ i inv u Hi Hu)
      as (inv'&Hi'&Hu'&Hid).
    destruct (rejects env _ _); rewrite Hr in Hrun; injection Hrun as <- <-;
      simpl.
    + by exists ev, inv.
    + eexists _, inv'. rewrite lookup_insert_eq. by split_and!.
Qed.

Lemma respondToInvite_keeps_binding_witness :
  let run :=
    respondToInvite env0 party_id alice_id (Some "declined") (Some "code-0")
      world1 in
  ∃ ev' inv', events run.2 !! party_id = Some ev' ∧
    Event.invitees ev' !! 0%nat = Some inv' ∧
    Invitee.user inv' = Some bob_id ∧ Invitee._id inv' = oid_0.
Proof.
  intros run.
  apply (respondToInvite_keeps_binding env0 party_id alice_id (Some "declined")
           (Some "code-0") world1 run.1 run.2 party1 0%nat bob_entry bob_id);
    [apply surjective_pairing|reflexivity..].
Defined.

(** Alice answers with Bob's code: the status changes, the binding does
    not. *)
Example respondToInvite_other_caller :
  (respondToInvite env0 party_id alice_id (Some "declined") (Some "code-0")
     world1).1
  = Json 200 (Event.set_invitees
                [Invitee.set_status declined bob_entry; a_x_entry] party1).
Proof. vm_compute. reflexivity. Qed.

(** C5.  A status other than accepted and declined is answered with
    InvalidInput; a code that no invitee of the event carries is answered
    with InvalidInput or NotFound; in both cases the world is left as it
    was: no write is attempted. *)
Theorem respondToInvite_rejects_without_effect
    env id caller status inviteCode w r w' :
  respondToInvite env id caller status inviteCode w = (r, w') →
  (parse_status status = None → fails_with r InvalidInput ∧ w' = w) ∧
  ((∀ ev inv, events w !! id = Some ev → inv ∈ Event.invitees ev →
      is_Some inviteCode → Invitee.inviteCode inv ≠ inviteCode) →
   (fails_with r InvalidInput ∨ fails_with r NotFound) ∧ w' = w).
Proof.
  intros Hrun.
  destruct (respondToInvite_call env id caller status inviteCode w)
    as [(err&Heq&Hk&Hs)|(st&code&ev&i&Hst&->&Hev&Hi&_)].
  - rewrite Heq in Hrun. injection Hrun as <- <-. split.
    + intros Hnone. split; [|done]. exists err. auto.
    + intros _. split; [|done].
      destruct Hk as [Hk|[Hk _]]; [left|right]; by exists err.
  - split; [congruence|]. intros Hno. exfalso.
    rewrite findIndex_None in Hi; [done|].
    intros inv Hinv. specialize (Hno ev inv Hev Hinv (mk_is_Some _ _ eq_refl)).
    unfold strict_eq. destruct (Invitee.inviteCode inv) as [c|]; [|done].
    apply String.eqb_neq. congruence.
Qed.

Lemma respondToInvite_rejects_without_effect_witness :
  let bad_status :=
    respondToInvite env0 party_id bob_id (Some "maybe") (Some "code-0") world1 in
  let bad_code :=
    respondToInvite env0 party_id bob_id (Some "accepted") (Some "code-9") world1
  in
  (fails_with bad_status.1 InvalidInput ∧ bad_status.2 = world1) ∧
  ((fails_with bad_code.1 InvalidInput ∨ fails_with bad_code.1 NotFound) ∧
   bad_code.2 = world1).
Proof.
  intros bad_status bad_code. split.
  - apply (respondToInvite_rejects_without_effect env0 party_id bob_id
             (Some "maybe") (Some "code-0") world1 bad_status.1 bad_status.2);
      [apply surjective_pairing|reflexivity].
  - apply (respondToInvite_rejects_without_effect env0 party_id bob_id
             (Some "accepted") (Some "code-9") world1 bad_code.1 bad_code.2);
      [apply surjective_pairing|].
    intros ev inv [= <-] Hin _.
    apply elem_of_cons in Hin as [->|Hin]; [discriminate|].
    apply elem_of_cons in Hin as [->|Hin]; [discriminate|].
    inversion Hin.
Defined.

(** ** Properties of the invitation manager: [verifyInvitation] *)

Lemma find_None_carries code (l : list Invitee.t) :
  (∀ inv, inv ∈ l → Invitee.inviteCode inv ≠ Some code) →
  find (carries code) l = None.
Proof.
  induction l as [|x l IH]; intros H; simpl; [done|].
  assert (carries code x = false) as ->.
  { unfold carries, strict_eq.
    pose proof (H x ltac:(by left)) as Hx.
    destruct (Invitee.inviteCode x) as [c|]; [|done].
    apply String.eqb_neq. congruence. }
  apply IH. intros y Hy. apply H. by right.
Qed.

Lemma find_Some_carries code (l : list Invitee.t) :
  (∃ inv, inv ∈ l ∧ Invitee.inviteCode inv = Some code) →
  ∃ inv, find (carries code) l = Some inv ∧ inv ∈ l ∧
         Invitee.inviteCode inv = Some code.
Proof.
  intros (inv&Hin&Hc).
  destruct (find (carries code) l) as [x|] eqn:Hf.
  - apply find_some in Hf as [Hx Hp]. exists x. split; [done|].
    split; [by apply list_elem_of_In|].
    unfold carries, strict_eq in Hp.
    destruct (Invitee.inviteCode x) as [c|]; [|done].
    by apply String.eqb_eq in Hp as ->.
  - apply list_elem_of_In in Hin. apply (find_none _ _ Hf) in Hin.
    unfold carries in Hin. rewrite Hc in Hin. simpl in Hin.
    by rewrite String.eqb_refl in Hin.
Qed.

Lemma find_carries_select code ev :
  find (carries code) (Event.invitees (select_without_user_email ev)) =
  (λ inv, Invitee.set_email None (Invitee.set_user None inv))
    <$> find (carries code) (Event.invitees ev).
Proof.
  unfold select_without_user_email. simpl.
  induction (Event.invitees ev) as [|x l IH]; simpl; [done|].
  unfold carries at 1 3. simpl. by destruct (strict_eq _ _).
Qed.

(** The reply is a function of the redacted event and the creator's name,
    and the world is returned as it was. *)
Lemma verifyInvitation_eq eventId code w :
  verifyInvitation eventId code w =
  (match select_without_user_email <$> events w !! eventId with
   | None => Next (AppError "Event not found" 404)
   | Some ev =>
       match find (carries code) (Event.invitees ev) with
       | None => Next (AppError "Invalid invitation code" 400)
       | Some inv =>
           match users w !! Event.creator ev with
           | None => Next TypeError
           | Some creator => Json 200 (verified eventId ev creator inv)
           end
       end
   end, w).
Proof.
  unfold verifyInvitation, Event_findById, User_populate. run.
  destruct (events w !! eventId) as [ev|]; simpl; [|done].
  fold (carries code).
  destruct (find (carries code) _) as [inv|]; simpl; [|done].
  by destruct (users w !! Event.creator ev).
Qed.

(** C3, as the code has it.  [verifyInvitation] leaves the world as it was.
    An event that does not exist is answered with NotFound; an event none of
    whose invitees carries the code is answered with InvalidInput.  When
    some invitee carries the code (and the creator of the event is a user),
    the answer is the event's id, name, date, location, description and
    creator name with the id, status and code of an invitee carrying the
    code.  The answer is the same in any world with the same users whose
    event differs only in the users and emails of its invitees. *)
Theorem verifyInvitation_redacted_view eventId code w :
  let r := (verifyInvitation eventId code w).1 in
  (verifyInvitation eventId code w).2 = w ∧
  (events w !! eventId = None → fails_with r NotFound) ∧
  (∀ ev, events w !! eventId = Some ev →
     (∀ inv, inv ∈ Event.invitees ev → Invitee.inviteCode inv ≠ Some code) →
     fails_with r InvalidInput) ∧
  (∀ ev creator,
     events w !! eventId = Some ev →
     users w !! Event.creator ev = Some creator →
     (∃ inv, inv ∈ Event.invitees ev ∧ Invitee.inviteCode inv = Some code) →
     ∃ inv, inv ∈ Event.invitees ev ∧ Invitee.inviteCode inv = Some code ∧
       r = Json 200
             (Verified.mk
                (EventView.mk eventId (Event.name ev) (Event.date ev)
                   (Event.location ev) (Event.description ev)
                   (User.name creator))
                (InvitationView.mk (Invitee._id inv) (Invitee.status inv)
                   (Some code)))) ∧
  (∀ w2, users w2 = users w →
     select_without_user_email <$> events w2 !! eventId =
     select_without_user_email <$> events w !! eventId →
     (verifyInvitation eventId code w2).1 = r).
Proof.
  intros r. subst r. rewrite verifyInvitation_eq.
  cbn [fst snd]. split_and!.
  - done.
  - intros ->. by eexists.
  - intros ev -> Hno. cbn [fmap option_fmap option_map].
    rewrite find_carries_select, find_None_carries by done. by eexists.
  - intros ev creator -> Hcr Hsome. cbn [fmap option_fmap option_map].
    rewrite find_carries_select.
    destruct (find_Some_carries code _ Hsome) as (inv&->&Hin&Hc).
    cbn [fmap option_fmap option_map].
    change (Event.creator _) with (Event.creator ev).
    rewrite Hcr. exists inv. split_and!; [done..|].
    unfold verified. simpl. by rewrite Hc.
  - intros w2 Hu Hev. rewrite verifyInvitation_eq. cbn [fst].
    by rewrite Hev, Hu.
Qed.

Lemma verifyInvitation_redacted_view_witness :
  (verifyInvitation party_id "code-1" world1).2 = world1 ∧
  (∃ inv, inv ∈ Event.invitees party1 ∧
     Invitee.inviteCode inv = Some "code-1" ∧
     (verifyInvitation party_id "code-1" world1).1 =
     Json 200
       (Verified.mk (EventView.mk party_id "Party" 0 (Some "Home") None "Alice")
          (InvitationView.mk (Invitee._id inv) (Invitee.status inv)
             (Some "code-1")))) ∧
  (verifyInvitation party_id "code-1" world1').1 =
  (verifyInvitation party_id "code-1" world1).1 ∧
  fails_with (verifyInvitation no_event_id "code-1" world1).1 NotFound ∧
  fails_with (verifyInvitation party_id "code-9" world1).1 InvalidInput.
Proof.
  destruct (verifyInvitation_redacted_view party_id "code-1" world1)
    as (Hro&_&_&Hview&Hred).
  split; [exact Hro|]. split.
  - apply (Hview party1 alice); [reflexivity..|].
    exists a_x_entry. split; [|reflexivity].
    apply list_elem_of_In. right. left. reflexivity.
  - split; [apply Hred; reflexivity|]. split.
    + destruct (verifyInvitation_redacted_view no_event_id "code-1" world1)
        as (_&Hnf&_). apply Hnf. reflexivity.
    + destruct (verifyInvitation_redacted_view party_id "code-9" world1)
        as (_&_&Hbad&_). apply (Hbad party1); [reflexivity|].
      intros inv Hin.
      apply elem_of_cons in Hin as [->|Hin]; [discriminate|].
      apply elem_of_cons in Hin as [->|Hin]; [discriminate|].
      inversion Hin.
Defined.

(** C3 as stated fails: the event exists, no invitee carries the code, and
    the answer is status 400, InvalidInput, not NotFound. *)
Lemma verifyInvitation_unknown_code_not_NotFound :
  events world1 !! party_id = Some party1 ∧
  (∀ inv, inv ∈ Event.invitees party1 →
     Invitee.inviteCode inv ≠ Some "code-9") ∧
  (verifyInvitation party_id "code-9" world1).1 =
    Next (AppError "Invalid invitation code" 400) ∧
  ¬ fails_with (verifyInvitation party_id "code-9" world1).1 NotFound.
Proof.
  split; [reflexivity|]. split.
  { intros inv Hin.
    apply elem_of_cons in Hin as [->|Hin]; [discriminate|].
    apply elem_of_cons in Hin as [->|Hin]; [discriminate|].
    inversion Hin. }
  split; [reflexivity|].
  intros (err&Heq&Hk). vm_compute in Heq. injection Heq as <-.
  discriminate Hk.
Qed.

(** ** Properties of the notification dispatcher *)

Lemma trace_record_all effs w :
  trace (record_all effs w) = (trace w ++ effs)%list.
Proof.
  revert w. induction effs as [|eff effs IH]; intros w; simpl.
  - by rewrite app_nil_r.
  - rewrite IH. simpl. by rewrite <- app_assoc.
Qed.

Lemma store_record_all effs w :
  users (record_all effs w) = users w ∧
  events (record_all effs w) = events w ∧
  photos (record_all effs w) = photos w ∧
  notifications (record_all effs w) = notifications w.
Proof.
  revert w. induction effs as [|eff effs IH]; intros w; simpl; [done|].
  destruct (IH (record eff w)) as (->&->&->&->). done.
Qed.

Lemma notifications_record_all effs w :
  notifications (record_all effs w) = notifications w.
Proof. apply store_record_all. Qed.

Lemma users_record_all effs w : users (record_all effs w) = users w.
Proof. apply store_record_all. Qed.

Lemma events_record_all effs w : events (record_all effs w) = events w.
Proof. apply store_record_all. Qed.

Lemma photos_record_all effs w : photos (record_all effs w) = photos w.
Proof. apply store_record_all. Qed.

Lemma sendEmail_eq env to subject html w :
  let msg := Email.mk (EMAIL_FROM env) to subject html in
  sendEmail env to subject html w =
  match rejects env (length (trace w)) (SgSend msg) with
  | None => (Ok tt, record (SgSend msg) w)
  | Some e => (Throw e, record_all (SgSend msg :: sendgrid_logs e) w)
  end.
Proof.
  unfold sendEmail. run. destruct (rejects env _ _) as [e|]; [|done].
  by destruct e as [| | | |? [?|]].
Qed.

(** [createNotification], outcome by outcome. *)
Lemma createNotification_eq env d w :
  let t := length (trace w) in
  let n := Notification.of_data d in
  let handle := length (notifications w) in
  let created :=
    set_notifications (.++ [n]) (record (NotificationCreate d) w) in
  let msg := notification_email env d in
  let sent := Notification.set_isSent true n in
  createNotification env d w =
  match rejects env t (NotificationCreate d) with
  | Some e =>
      (Throw e,
       record_all [NotificationCreate d; Log "Error creating notification:"] w)
  | None =>
      if truthy (NotificationData.email d) then
        match rejects env (S t) (SgSend msg) with
        | Some e =>
            (Ok n,
             record_all (SgSend msg :: sendgrid_logs e ++
                           [Log "Error sending notification email:"]) created)
        | None =>
            match rejects env (S (S t)) (NotificationSave handle sent) with
            | Some e =>
                (Ok sent,
                 record_all [SgSend msg; NotificationSave handle sent;
                             Log "Error sending notification email:"] created)
            | None =>
                (Ok sent,
                 set_notifications <[handle := sent]>
                   (record_all [SgSend msg; NotificationSave handle sent]
                      created))
            end
        end
      else (Ok n, created)
  end.
Proof.
  intros t n handle created msg sent.
  unfold createNotification, Notification_create, sendNotificationEmail,
    Notification_save.
  unfold try_catch at 1. unfold mbind at 1, M_bind at 1.
  unfold perform at 1. fold t.
  destruct (rejects env t (NotificationCreate d)) as [e|] eqn:Hc; [done|].
  fold n created.
  change (Notification.email n) with (NotificationData.email d).
  destruct (truthy (NotificationData.email d)); [|done].
  unfold mbind at 1, M_bind at 1, attempt at 1.
  rewrite sendEmail_eq.
  change (Email.mk _ _ _ _) with msg.
  assert (length (trace created) = S t) as ->.
  { subst created t. simpl. rewrite length_app. simpl. lia. }
  destruct (rejects env (S t) (SgSend msg)) as [e|] eqn:Hs.
  - unfold record_all. simpl. rewrite foldl_app. by run.
  - fold sent. run. rewrite length_app, length_app. simpl.
    replace (length (trace w) + 1 + 1)%nat with (S (S t)) by (subst t; lia).
    change (length (notifications w)) with handle.
    by destruct (rejects env (S (S t)) _).
Qed.

(** C6.  [createNotification] first asks the store to create the record,
    and throws exactly when the store rejects that (the collection is then
    as it was).  Otherwise it returns the notification, whose record is
    added to the collection, and if the notification has an email address
    the next effect is the send.  A rejected send is not thrown: the call
    returns with [isSent] false on the notification and on its record.
    [isSent] is true, on either, only when there was an address and the
    send was accepted. *)
Theorem createNotification_record_first_delivery_best_effort env d w :
  let t := length (trace w) in
  let run := createNotification env d w in
  let msg := notification_email env d in
  (∃ rest, trace run.2 = (trace w ++ NotificationCreate d :: rest)%list) ∧
  (∀ e, run.1 = Throw e ↔ rejects env t (NotificationCreate d) = Some e) ∧
  (is_Some (rejects env t (NotificationCreate d)) →
   notifications run.2 = notifications w) ∧
  (rejects env t (NotificationCreate d) = None →
   ∃ n stored,
     run.1 = Ok n ∧
     notifications run.2 = (notifications w ++ [stored])%list ∧
     Notification.set_isSent false n = Notification.of_data d ∧
     Notification.set_isSent false stored = Notification.of_data d ∧
     (truthy (NotificationData.email d) = true →
      trace run.2 !! S t = Some (SgSend msg)) ∧
     (truthy (NotificationData.email d) = false →
      trace run.2 = (trace w ++ [NotificationCreate d])%list) ∧
     (is_Some (rejects env (S t) (SgSend msg)) →
      Notification.isSent n = false ∧ Notification.isSent stored = false) ∧
     (Notification.isSent n = true ∨ Notification.isSent stored = true →
      truthy (NotificationData.email d) = true ∧
      rejects env (S t) (SgSend msg) = None)).
Proof.
  intros t run msg. subst run. rewrite createNotification_eq. fold t msg.
  assert (∀ effs : list Effect,
            (trace w ++ NotificationCreate d :: effs)%list !! S t =
            effs !! 0%nat) as Hnth.
  { intros effs. subst t.
    rewrite lookup_app_r by lia.
    by replace (S (length (trace w)) - length (trace w))%nat with 1%nat
      by lia. }
  destruct (rejects env t (NotificationCreate d)) as [e|] eqn:Hc.
  { cbn [fst snd]. rewrite trace_record_all, notifications_record_all.
    split_and!; [by eexists| |done|done].
    intros e'. split; congruence. }
  destruct (truthy (NotificationData.email d)) eqn:He;
    [destruct (rejects env (S t) (SgSend msg)) as [e|] eqn:Hs;
     [|destruct (rejects env (S (S t)) _) as [e|] eqn:Hn]|];
    cbn [fst snd];
    rewrite ?trace_record_all, ?notifications_record_all; simpl;
    rewrite <- ?app_assoc; simpl;
    (split_and!; [by eexists|done|by intros [? [=]]|]);
    intros _;
    [eexists _, _|eexists _, _
    |eexists _, (Notification.set_isSent true (Notification.of_data d))
    |eexists _, _];
    (split_and!;
     [done
     |try done; by rewrite insert_app_r_alt, Nat.sub_diag by lia
     |done|done
     |try done; intros _; by rewrite Hnth
     |done
     |try done; by intros [? [=]]
     |try done; by intros [[=]|[=]]]).
Qed.

Lemma createNotification_record_first_delivery_best_effort_witness :
  let run := createNotification mail_down hello_bob world0 in
  ∃ n stored,
    run.1 = Ok n ∧ notifications run.2 = [stored] ∧
    trace run.2 !! 1%nat
      = Some (SgSend (notification_email mail_down hello_bob)) ∧
    Notification.isSent n = false ∧ Notification.isSent stored = false.
Proof.
  intros run.
  destruct (createNotification_record_first_delivery_best_effort
              mail_down hello_bob world0) as (_&_&_&Hok).
  destruct (Hok eq_refl) as (n&stored&Hr&Hn&_&_&Hsend&_&Hrej&_).
  exists n, stored.
  split; [exact Hr|]. split; [exact Hn|]. split; [exact (Hsend eq_refl)|].
  apply Hrej. eexists. reflexivity.
Defined.

(** ** Properties of [sendInvitations] *)

Section SendInvitations.
Variable env : Env.
Variables protocol host eventId : string.
Variable event : Event.t.
Variable creator : User.t.

(** One turn of the loop, outcome by outcome. *)
Lemma sendInvitations_step_eq acc inviteeId w :
  let t := length (trace w) in
  sendInvitations_step env protocol host eventId event creator acc inviteeId w
  =
  match find (has_id inviteeId) (Event.invitees event) with
  | None =>
      (Ok (add_failed (FailedInvitation.mk inviteeId None
                         "Invitee not found in event") acc), w)
  | Some invitee =>
      let msg :=
        invitation_email env protocol host eventId event creator invitee in
      let d := invite_notification eventId event creator invitee in
      let failed :=
        add_failed (FailedInvitation.mk inviteeId (Invitee.email invitee)
                      "Failed to send email") acc in
      let sent :=
        add_sent (SentInvitation.mk inviteeId (Invitee.email invitee)) acc in
      match rejects env t (SgSend msg) with
      | Some e =>
          (Ok failed,
           record_all (SgSend msg :: sendgrid_logs e ++
                         [Log "Failed to send invitation:"]) w)
      | None =>
          if bool_decide (is_Some (Invitee.user invitee)) then
            match rejects env (S t) (NotificationCreate d) with
            | Some e =>
                (Ok failed,
                 record_all [SgSend msg; NotificationCreate d;
                             Log "Error creating notification:";
                             Log "Failed to send invitation:"] w)
            | None =>
                (Ok sent,
                 set_notifications (.++ [Notification.of_data d])
                   (record_all [SgSend msg; NotificationCreate d] w))
            end
          else (Ok sent, record (SgSend msg) w)
      end
  end.
Proof.
  intros t. unfold sendInvitations_step. fold (has_id inviteeId).
  destruct (find (has_id inviteeId) (Event.invitees event)) as [invitee|];
    [|done].
  unfold mbind at 1, M_bind at 1, attempt at 1.
  unfold mbind at 1, M_bind at 1. rewrite sendEmail_eq.
  fold (invitation_email env protocol host eventId event creator invitee).
  fold (invite_notification eventId event creator invitee).
  fold t.
  destruct (rejects env t (SgSend _)) as [e|] eqn:Hs.
  { unfold record_all. simpl. rewrite foldl_app. by run. }
  destruct (bool_decide (is_Some (Invitee.user invitee))); [|done].
  unfold mbind at 1, M_bind at 1. rewrite createNotification_eq. simpl.
  rewrite length_app. simpl.
  replace (length (trace w) + 1)%nat with (S t) by (subst t; lia).
  by destruct (rejects env (S t) (NotificationCreate _)).
Qed.

Abbreviation step :=
  (sendInvitations_step env protocol host eventId event creator).
Abbreviation loop :=
  (sendInvitations_loop env protocol host eventId event creator).

(** The loop returns, and keeps whatever every turn keeps. *)
Lemma sendInvitations_loop_inv (P : Invitations.t → World → Prop) ids0 :
  (∀ acc w inviteeId, inviteeId ∈ ids0 → P acc w →
     ∀ acc' w', step acc inviteeId w = (Ok acc', w') → P acc' w') →
  ∀ ids, ids ⊆ ids0 →
  ∀ acc w, P acc w →
  ∃ acc' w', loop acc ids w = (Ok acc', w') ∧ P acc' w'.
Proof.
  intros Hstep. induction ids as [|inviteeId ids IH]; intros Hsub acc w HP.
  - by exists acc, w.
  - simpl. unfold mbind, M_bind.
    assert (∃ acc1 w1, step acc inviteeId w = (Ok acc1, w1)) as (acc1&w1&Heq).
    { rewrite sendInvitations_step_eq. simpl.
      repeat case_match; eauto. }
    rewrite Heq. apply IH; [set_solver|].
    eapply Hstep; [|done..]. set_solver.
Qed.

Lemma find_has_id inviteeId l invitee :
  find (has_id inviteeId) l = Some invitee →
  invitee ∈ l ∧ Invitee._id invitee = inviteeId.
Proof.
  intros [Hin Hid]%find_some. split; [by apply list_elem_of_In|].
  by apply String.eqb_eq.
Qed.

Lemma invite_of_bound_cons inviteeId ids n :
  invite_of_bound event ids n → invite_of_bound event (inviteeId :: ids) n.
Proof.
  intros (Ht&invitee&?&?&?&?). split; [done|]. exists invitee.
  split_and!; [done| |done..]. by right.
Qed.

Lemma sendInvitations_step_notifications acc inviteeId w :
  ∃ acc' w' added,
    step acc inviteeId w = (Ok acc', w') ∧
    users w' = users w ∧ events w' = events w ∧
    notifications w' = (notifications w ++ added)%list ∧
    Forall (invite_of_bound event [inviteeId]) added ∧
    length added ≤ (if names_bound event inviteeId then 1 else 0)%nat ∧
    (∀ x, x ∈ Invitations.sent acc → x ∈ Invitations.sent acc').
Proof.
  rewrite sendInvitations_step_eq. unfold names_bound. simpl.
  destruct (find _ _) as [invitee|] eqn:Hf.
  2:{ eexists _, _, []. rewrite app_nil_r. split_and!; done. }
  apply find_has_id in Hf as [Hmem Hid].
  destruct (rejects env _ (SgSend _)).
  { eexists _, _, [].
    rewrite notifications_record_all, users_record_all, events_record_all,
      app_nil_r.
    split_and!; [done..|simpl; lia|done]. }
  destruct (bool_decide_reflect (is_Some (Invitee.user invitee))) as [Hb|Hb].
  2:{ eexists _, _, []. rewrite app_nil_r. split_and!; try done.
      simpl. intros x Hx. apply elem_of_app. by left. }
  destruct (rejects env _ (NotificationCreate _)).
  { eexists _, _, []. simpl. rewrite app_nil_r.
    split_and!; [done..|lia|done]. }
  eexists _, _, [_]. simpl. split_and!; try done.
  - apply Forall_singleton. split; [done|]. exists invitee.
    split_and!; [done| |done..]. rewrite Hid. by left.
  - intros x Hx. apply elem_of_app. by left.
Qed.

Lemma sendInvitations_loop_notifications ids acc w :
  ∃ acc' w' added,
    loop acc ids w = (Ok acc', w') ∧
    users w' = users w ∧ events w' = events w ∧
    notifications w' = (notifications w ++ added)%list ∧
    Forall (invite_of_bound event ids) added ∧
    length added ≤ count (names_bound event) ids ∧
    (∀ x, x ∈ Invitations.sent acc → x ∈ Invitations.sent acc').
Proof.
  revert acc w. induction ids as [|inviteeId ids IH]; intros acc w.
  - exists acc, w, []. rewrite app_nil_r. split_and!; try done.
  - simpl. unfold mbind, M_bind.
    destruct (sendInvitations_step_notifications acc inviteeId w)
      as (acc1&w1&added1&->&Hu1&He1&Hn1&Hall1&Hlen1&Hs1).
    destruct (IH acc1 w1) as (acc2&w2&added2&->&Hu2&He2&Hn2&Hall2&Hlen2&Hs2).
    exists acc2, w2, (added1 ++ added2)%list.
    split_and!; [done|congruence|congruence| | | |by auto].
    + by rewrite Hn2, Hn1, app_assoc.
    + apply Forall_app. split.
      * eapply Forall_impl; [exact Hall1|].
        intros n (Ht&invitee&?&Hin&?&?). split; [done|]. exists invitee.
        split_and!; [done| |done..].
        apply list_elem_of_singleton in Hin as ->. by left.
      * eapply Forall_impl; [exact Hall2|]. apply invite_of_bound_cons.
    + rewrite length_app. unfold count in *. simpl.
      destruct (names_bound event inviteeId); simpl; lia.
Qed.

(** An invitee without user identity whose message SendGrid accepts is
    reported as sent. *)
Lemma sendInvitations_loop_reports ids acc w inviteeId invitee :
  inviteeId ∈ ids →
  find (has_id inviteeId) (Event.invitees event) = Some invitee →
  Invitee.user invitee = None →
  (∀ t, rejects env t
          (SgSend (invitation_email env protocol host eventId event creator
                     invitee)) = None) →
  ∃ acc' w', loop acc ids w = (Ok acc', w') ∧
    SentInvitation.mk inviteeId (Invitee.email invitee)
      ∈ Invitations.sent acc'.
Proof.
  intros Hin Hf Hu Hok. revert acc w.
  induction ids as [|id ids IH]; intros acc w; [by inversion Hin|].
  simpl. unfold mbind, M_bind.
  destruct (decide (id = inviteeId)) as [->|Hne].
  - rewrite sendInvitations_step_eq, Hf. simpl. rewrite Hok, Hu. simpl.
    destruct (sendInvitations_loop_notifications ids
                (add_sent (SentInvitation.mk inviteeId (Invitee.email invitee))
                   acc)
                (record (SgSend (invitation_email env protocol host eventId
                                   event creator invitee)) w))
      as (acc'&w'&_&->&_&_&_&_&_&Hs).
    exists acc', w'. split; [done|]. apply Hs. simpl.
    apply elem_of_app. right. by left.
  - destruct (sendInvitations_step_notifications acc id w)
      as (acc1&w1&_&->&_). apply IH.
    apply elem_of_cons in Hin as [?|?]; [congruence|done].
Qed.

End SendInvitations.

(** C10.  For a call by the creator with a non-empty batch: the call
    answers with the two result lists; every notification record it adds is
    an [event_invite] addressed to the user identity of an entry of the batch
    that has one, and there are at most as many new records as ids naming
    such an entry, so an entry without user identity gets none; and such an
    entry is listed as sent whenever SendGrid accepts its message. *)
Theorem sendInvitations_notifies_bound_only
    env protocol host eventId caller ids w ev creator :
  events w !! eventId = Some ev →
  users w !! Event.creator ev = Some creator →
  Event.creator ev = caller →
  ids ≠ [] →
  let run := sendInvitations env protocol host eventId caller (Some ids) w in
  ∃ result added,
    run.1 = Json 200 result ∧
    notifications run.2 = notifications w ++ added ∧
    Forall (invite_of_bound ev ids) added ∧
    length added ≤ count (names_bound ev) ids ∧
    (∀ inviteeId invitee,
       inviteeId ∈ ids →
       find (has_id inviteeId) (Event.invitees ev) = Some invitee →
       Invitee.user invitee = None →
       (∀ t, rejects env t
               (SgSend (invitation_email env protocol host eventId ev creator
                          invitee)) = None) →
       SentInvitation.mk inviteeId (Invitee.email invitee)
         ∈ Invitations.sent result).
Proof.
  intros Hev Hcr Hc Hne run.
  destruct (sendInvitations_loop_notifications env protocol host eventId ev
              creator ids (Invitations.mk [] []) w)
    as (result&w'&added&Hloop&_&_&Hn&Hall&Hlen&_).
  assert (run = (Json 200 result, w')) as ->.
  { subst run. unfold sendInvitations, Event_findById, User_populate. run.
    rewrite Hev. simpl. rewrite Hcr. simpl.
    destruct (String.eqb_spec (Event.creator ev) caller); [|done]. simpl.
    destruct ids as [|inviteeId ids]; [done|]. by rewrite Hloop. }
  exists result, added. split_and!; [done..|].
  intros inviteeId invitee Hin Hf Hu Hok.
  destruct (sendInvitations_loop_reports env protocol host eventId ev creator
              ids (Invitations.mk [] []) w inviteeId invitee Hin Hf Hu Hok)
    as (acc'&w''&Hloop'&Hsent).
  rewrite Hloop in Hloop'. by injection Hloop' as <- <-.
Qed.

Lemma sendInvitations_notifies_bound_only_witness :
  let run :=
    sendInvitations env0 "https" "photomingle.test" party_id alice_id
      (Some [oid_1; oid_0]) world1 in
  ∃ result added,
    run.1 = Json 200 result ∧
    notifications run.2 = added ∧
    Forall (invite_of_bound party1 [oid_1; oid_0]) added ∧
    length added ≤ 1 ∧
    SentInvitation.mk oid_1 (Some "a@x.com") ∈ Invitations.sent result.
Proof.
  intros run.
  destruct (sendInvitations_notifies_bound_only env0 "https"
              "photomingle.test" party_id alice_id [oid_1; oid_0] world1
              party1 alice)
    as (result&added&Hr&Hn&Hall&Hlen&Hsent);
    [reflexivity|reflexivity|reflexivity|discriminate|].
  exists result, added.
  split; [exact Hr|]. split; [exact Hn|]. split; [exact Hall|].
  split; [exact Hlen|].
  apply (Hsent oid_1 a_x_entry);
    [apply list_elem_of_In; left; reflexivity|reflexivity..].
Defined.

(** The same batch, computed: both invitees are listed as sent and the one
    record is Bob's. *)
Example sendInvitations_email_only_no_record :
  let run :=
    sendInvitations env0 "https" "photomingle.test" party_id alice_id
      (Some [oid_1; oid_0]) world1 in
  run.1 = Json 200
            (Invitations.mk
               [SentInvitation.mk oid_1 (Some "a@x.com");
                SentInvitation.mk oid_0 (Some "bob@x.com")] []) ∧
  Notification.recipient <$> notifications run.2 = [Some bob_id].
Proof. vm_compute. split; reflexivity. Qed.

(** ** Properties of the photo ingest pipeline *)

Section ProcessPhoto.
Variable env : Env.
Variables eventId photoId : string.
Variable event : Event.t.

Abbreviation note := (tagged_notification eventId event photoId).

Lemma add_faces_nil photo : add_faces [] photo = photo.
Proof. unfold add_faces. rewrite app_nil_r. by destruct photo. Qed.

Lemma add_faces_app faces1 faces2 photo :
  add_faces faces2 (add_faces faces1 photo) =
  add_faces (faces1 ++ faces2) photo.
Proof. unfold add_faces. simpl. by rewrite app_assoc. Qed.

Lemma resolves_identified us m : resolves us m = true → identified m = true.
Proof.
  unfold resolves, identified. intros [u Hu]%bool_decide_eq_true.
  apply bool_decide_eq_true.
  destruct (castObjectId _); [by eexists|done].
Qed.

(** One turn of the loop, outcome by outcome. *)
Lemma processPhoto_step_eq photo m w :
  processPhoto_step env eventId event photoId photo m w =
  if identified m then
    if resolves (users w) m then
      match rejects env (length (trace w)) (NotificationCreate (note m)) with
      | Some e =>
          (Throw e,
           record_all [NotificationCreate (note m);
                       Log "Error creating notification:"] w)
      | None =>
          (Ok (add_faces [detected_face m] photo),
           set_notifications (.++ [Notification.of_data (note m)])
             (record (NotificationCreate (note m)) w))
      end
    else (Ok photo, w)
  else (Throw (CastError (Face.ExternalImageId (FaceMatch.Face m))), w).
Proof.
  unfold processPhoto_step, User_findById, resolves, identified.
  destruct (castObjectId _) as [c|] eqn:Hc.
  2:{ by rewrite bool_decide_eq_false_2 by (by intros [? [=]]). }
  rewrite bool_decide_eq_true_2 by eauto.
  change (Some c ≫= (users w !!.)) with (users w !! c).
  unfold mbind at 1, M_bind at 1, gets at 1.
  destruct (users w !! c) as [user|] eqn:Hu.
  - rewrite bool_decide_eq_true_2 by eauto.
    unfold mbind, M_bind. rewrite createNotification_eq. simpl.
    by destruct (rejects env _ _).
  - rewrite bool_decide_eq_false_2; [done|]. by intros [? [=]].
Qed.

(** The loop leaves the collections of users, events and photos as they
    were.  It throws, or returns the photo with one face per resolving
    match; and it returns if every external identity is a well-formed id
    and the store accepts every notification. *)
Lemma processPhoto_loop_spec matches photo w :
  ∃ w',
    users w' = users w ∧ events w' = events w ∧ photos w' = photos w ∧
    (processPhoto_loop env eventId event photoId photo matches w =
       (Ok (add_faces (detected_face <$> resolved (users w) matches) photo),
        w') ∨
     ∃ e, processPhoto_loop env eventId event photoId photo matches w =
            (Throw e, w')) ∧
    (forallb identified matches = true →
     (∀ t d, rejects env t (NotificationCreate d) = None) →
     processPhoto_loop env eventId event photoId photo matches w =
       (Ok (add_faces (detected_face <$> resolved (users w) matches) photo),
        w') ∧
     notifications w' =
       notifications w ++
       (Notification.of_data ∘ note <$> resolved (users w) matches) ∧
     trace w' =
       trace w ++ (NotificationCreate ∘ note <$> resolved (users w) matches)).
Proof.
  revert photo w. induction matches as [|m matches IH]; intros photo w.
  - exists w. simpl. rewrite add_faces_nil, !app_nil_r. split_and!; auto.
  - simpl. unfold mbind, M_bind. rewrite processPhoto_step_eq.
    destruct (identified m) eqn:Hid.
    2:{ exists w. split_and!; [done..|eauto|]. intros Hids. by simpl in Hids. }
    destruct (resolves (users w) m) eqn:Hm.
    2:{ destruct (IH photo w) as (w'&?&?&?&?&?). exists w'. by split_and!. }
    destruct (rejects env _ _) as [e|] eqn:Hrej.
    { eexists. rewrite users_record_all, events_record_all, photos_record_all.
      split_and!; [done..|eauto|]. intros _ Hok. by rewrite Hok in Hrej. }
    destruct (IH (add_faces [detected_face m] photo)
                 (set_notifications (.++ [Notification.of_data (note m)])
                    (record (NotificationCreate (note m)) w)))
      as (w'&Hu&He&Hp&Hres&Hok).
    simpl in Hu, He, Hp, Hres, Hok. rewrite add_faces_app in Hres, Hok.
    exists w'. split_and!; [done..|].
    intros Hids Hacc. destruct (Hok Hids Hacc) as (->&->&->).
    rewrite <- !app_assoc. done.
Qed.

End ProcessPhoto.

(** C9.  When the photo and its event are found and face detection reports
    no face, [processPhoto] returns after two effects, the detection and one
    save of the photo with [isProcessed] set and the face list as it was
    (and a log line if the store rejects the save): there is no search and
    no notification.  If the store accepts the save, the stored photo has
    [isProcessed] true and the face list it had. *)
Theorem processPhoto_no_faces env photoId w photo event response :
  photos w !! photoId = Some photo →
  events w !! Photo.event photo = Some event →
  rekognition_detectFaces env (length (trace w)) (Photo.path photo)
    = Some response →
  no_faces response = true →
  let run := processPhoto env photoId w in
  let saved := Photo.set_isProcessed true photo in
  run.1 = Ok tt ∧
  notifications run.2 = notifications w ∧
  (∀ path, SearchFaces path ∈ trace run.2 → SearchFaces path ∈ trace w) ∧
  match rejects env (S (length (trace w))) (PhotoSave photoId saved) with
  | None =>
      trace run.2 =
        trace w ++ [DetectFaces (Photo.path photo); PhotoSave photoId saved] ∧
      ∃ stored, photos run.2 !! photoId = Some stored ∧
        Photo.isProcessed stored = true ∧
        Photo.detectedFaces stored = Photo.detectedFaces photo
  | Some _ =>
      trace run.2 =
        trace w ++ [DetectFaces (Photo.path photo); PhotoSave photoId saved;
                    Log "Error processing photo:"] ∧
      photos run.2 = photos w
  end.
Proof.
  intros Hphoto Hevent Hdetect Hnone run saved.
  assert (run =
    match rejects env (S (length (trace w))) (PhotoSave photoId saved) with
    | None =>
        (Ok tt,
         set_photos <[photoId := saved]>
           (record_all [DetectFaces (Photo.path photo);
                        PhotoSave photoId saved] w))
    | Some _ =>
        (Ok tt,
         record_all [DetectFaces (Photo.path photo); PhotoSave photoId saved;
                     Log "Error processing photo:"] w)
    end) as ->.
  { subst run. unfold processPhoto, Photo_findById, Event_findById,
      Photo_save, detectFaces. run.
    rewrite Hphoto. simpl. rewrite Hevent. simpl. rewrite Hdetect, Hnone.
    simpl. rewrite length_app. simpl.
    replace (length (trace w) + 1) with (S (length (trace w))) by lia.
    fold saved. by destruct (rejects env _ _). }
  assert (∀ path effs, SearchFaces path ∈ trace w ++ effs →
            SearchFaces path ∉ effs → SearchFaces path ∈ trace w) as Hold.
  { by intros path effs [Hin|Hin]%elem_of_app Hnot. }
  destruct (rejects env _ _); simpl; rewrite <- ?app_assoc; simpl;
    (split_and!; [done|done| |done|]);
    [|done| |exists saved; by rewrite lookup_insert_eq];
    intros path Hin; apply (Hold _ _ Hin); intros Hmem;
    repeat (apply elem_of_cons in Hmem as [[=]|Hmem]); inversion Hmem.
Qed.

Lemma processPhoto_no_faces_witness :
  let run := processPhoto studio empty_photo_id world2 in
  run.1 = Ok tt ∧
  notifications run.2 = [] ∧
  trace run.2 =
    [DetectFaces "uploads/empty.jpg";
     PhotoSave empty_photo_id (Photo.set_isProcessed true empty_photo)] ∧
  ∃ stored, photos run.2 !! empty_photo_id = Some stored ∧
    Photo.isProcessed stored = true ∧ Photo.detectedFaces stored = [].
Proof.
  intros run.
  destruct (processPhoto_no_faces studio empty_photo_id world2 empty_photo party1
              (DetectResponse.mk (Some [])))
    as (Hr&Hn&_&Htr&Hst); [reflexivity..|].
  split; [exact Hr|]. split; [exact Hn|]. split; [exact Htr|]. exact Hst.
Defined.

(** The run when the photo and its event are found, a face is detected and
    the search answers: it returns; the stored photo is untouched or
    complete; and when every external identity is a well-formed id and the
    store accepts the notifications and the save, the photo stored is the
    complete one, one notification per resolving match has been added, and
    the save is the last effect. *)
Lemma processPhoto_run env photoId w photo event dresp sresp :
  photos w !! photoId = Some photo →
  events w !! Photo.event photo = Some event →
  rekognition_detectFaces env (length (trace w)) (Photo.path photo)
    = Some dresp →
  no_faces dresp = false →
  rekognition_searchFaces env (S (length (trace w))) (Photo.path photo)
    = Some sresp →
  let matches := default [] (SearchResponse.FaceMatches sresp) in
  let found := resolved (users w) matches in
  let complete :=
    Photo.set_isProcessed true (add_faces (detected_face <$> found) photo) in
  let notes :=
    tagged_notification (Photo.event photo) event photoId <$> found in
  let run := processPhoto env photoId w in
  run.1 = Ok tt ∧
  (photos run.2 = photos w ∨
   photos run.2 = <[photoId := complete]> (photos w)) ∧
  (forallb identified matches = true →
   (∀ t d, rejects env t (NotificationCreate d) = None) →
   (∀ t p, rejects env t (PhotoSave photoId p) = None) →
   photos run.2 = <[photoId := complete]> (photos w) ∧
   notifications run.2 = notifications w ++ (Notification.of_data <$> notes) ∧
   trace run.2 =
     trace w ++
     [DetectFaces (Photo.path photo); SearchFaces (Photo.path photo)] ++
     (NotificationCreate <$> notes) ++ [PhotoSave photoId complete]).
Proof.
  intros Hphoto Hevent Hdetect Hfaces Hsearch matches found complete notes run.
  set (w2 := record (SearchFaces (Photo.path photo))
               (record (DetectFaces (Photo.path photo)) w)).
  destruct (processPhoto_loop_spec env (Photo.event photo) photoId event
              matches photo w2) as (w3&Hu&He&Hp&Hres&Hok).
  change (users w2) with (users w) in *. fold found in Hres, Hok.
  assert (run =
    match processPhoto_loop env (Photo.event photo) event photoId photo
            matches w2 with
    | (Ok photo', w3) =>
        match rejects env (length (trace w3))
                (PhotoSave photoId (Photo.set_isProcessed true photo')) with
        | None =>
            (Ok tt,
             set_photos <[photoId := Photo.set_isProcessed true photo']>
               (record (PhotoSave photoId (Photo.set_isProcessed true photo'))
                  w3))
        | Some _ =>
            (Ok tt,
             record_all [PhotoSave photoId (Photo.set_isProcessed true photo');
                         Log "Error processing photo:"] w3)
        end
    | (Throw _, w3) => (Ok tt, record (Log "Error processing photo:") w3)
    end) as ->.
  { subst run. unfold processPhoto, Photo_findById, Event_findById,
      Photo_save, detectFaces, searchFaces.
    unfold try_catch, mbind, M_bind, gets, perform, console_error.
    rewrite Hphoto, Hevent, Hdetect, Hfaces.
    cbn [trace record]. rewrite length_app. cbn [length].
    replace (length (trace w) + 1) with (S (length (trace w))) by lia.
    rewrite Hsearch. fold matches w2.
    destruct (processPhoto_loop _ _ _ _ _ _ _) as [[photo'|e] w3']; [|done].
    by destruct (rejects env _ _). }
  split_and!.
  - destruct Hres as [->|[e ->]]; [|done]. by destruct (rejects env _ _).
  - destruct Hres as [->|[e ->]]; [|by left].
    destruct (rejects env _ _); simpl; [by left|right; by rewrite Hp].
  - intros Hids Hnote Hsave. destruct (Hok Hids Hnote) as (->&Hn&Htr).
    rewrite Hsave. simpl. rewrite Hp, Hn, Htr. subst w2 notes. simpl.
    rewrite <- !app_assoc, !list_fmap_compose. done.
Qed.

(** The schema keeps nothing of Rekognition's bounding box. *)
Lemma FaceBox_cast_entries b :
  FaceBox.cast (BoundingBox.entries b) = FaceBox.mk None None None None.
Proof. reflexivity. Qed.

(** C1.  The face pushed for a match carries Rekognition's bounding box
    under the keys [Width], [Height], [Left] and [Top], and the schema of
    the photo declares [width], [height], [left] and [top].  So when the
    photo and its event are found, a face is detected, the search answers
    with matches whose external identities are well-formed ids, and the
    store accepts the notifications and the save, the stored photo has
    [isProcessed] true and one appended face per resolving match, and not
    one of the appended faces has a bounding box: whatever box the match
    carried, the four paths of the stored face are unset. *)
Theorem processPhoto_stores_no_bounding_box
    env photoId w photo event dresp sresp :
  photos w !! photoId = Some photo →
  events w !! Photo.event photo = Some event →
  rekognition_detectFaces env (length (trace w)) (Photo.path photo)
    = Some dresp →
  no_faces dresp = false →
  rekognition_searchFaces env (S (length (trace w))) (Photo.path photo)
    = Some sresp →
  let matches := default [] (SearchResponse.FaceMatches sresp) in
  forallb identified matches = true →
  (∀ t d, rejects env t (NotificationCreate d) = None) →
  (∀ t p, rejects env t (PhotoSave photoId p) = None) →
  let run := processPhoto env photoId w in
  ∃ stored new,
    photos run.2 !! photoId = Some stored ∧
    Photo.isProcessed stored = true ∧
    Photo.detectedFaces stored = Photo.detectedFaces photo ++ new ∧
    length new = length (resolved (users w) matches) ∧
    Forall (λ face, DetectedFace.boundingBox face
                    = FaceBox.mk None None None None) new.
Proof.
  intros Hphoto Hevent Hdetect Hfaces Hsearch matches Hids Hnote Hsave run.
  destruct (processPhoto_run env photoId w photo event dresp sresp)
    as (_&_&Hok); [done..|].
  destruct (Hok Hids Hnote Hsave) as (Hp&_&_). fold run in Hp.
  eexists _, _. rewrite Hp, lookup_insert_eq.
  split_and!; [done|done|done|by rewrite length_fmap|].
  apply Forall_fmap, Forall_forall. intros m _. apply FaceBox_cast_entries.
Qed.

Lemma processPhoto_stores_no_bounding_box_witness :
  let run := processPhoto studio group_photo_id world2 in
  BoundingBox.Width (Face.BoundingBox (FaceMatch.Face bob_match)) = (1 # 4)%Q ∧
  ∃ stored new,
    photos run.2 !! group_photo_id = Some stored ∧
    Photo.isProcessed stored = true ∧
    Photo.detectedFaces stored = new ∧
    length new = 1 ∧
    Forall (λ face, DetectedFace.boundingBox face
                    = FaceBox.mk None None None None) new.
Proof.
  intros run. split; [reflexivity|].
  apply (processPhoto_stores_no_bounding_box studio group_photo_id world2
           group_photo party1
           (DetectResponse.mk (Some [FaceDetail.mk box; FaceDetail.mk box]))
           (SearchResponse.mk (Some [bob_match; ghost_match])));
    reflexivity.
Defined.

(** The stored face of the scenario, field by field. *)
Example processPhoto_stored_face :
  Photo.detectedFaces
    <$> photos (processPhoto studio group_photo_id world2).2
          !! group_photo_id
  = Some [DetectedFace.mk "face-bob" (Some bob_id)
            (FaceBox.mk None None None None) (95 # 1)%Q].
Proof. vm_compute. reflexivity. Qed.

(** * Further properties *)

(** ** [respondToInvite]: what an accepted response does *)

Lemma findIndex_Some {A} (p : A → bool) l i :
  findIndex p l = Some i →
  ∃ x, l !! i = Some x ∧ p x = true ∧
       ∀ j y, j < i → l !! j = Some y → p y = false.
Proof.
  revert i. induction l as [|a l IH]; intros i; simpl; [done|].
  destruct (p a) eqn:Hp.
  - intros [= <-]. exists a. split_and!; [done..|]. intros j y Hj. lia.
  - destruct (findIndex p l) as [k|]; simpl; [|done]. intros [= <-].
    destruct (IH k eq_refl) as (x&Hx&Hpx&Hlt). exists x.
    split_and!; [done..|]. intros [|j] y Hj; simpl.
    + by intros [= <-].
    + apply Hlt. lia.
Qed.

Lemma findIndex_alter {A} (p : A → bool) (f : A → A) l i :
  (∀ x, p (f x) = p x) → findIndex p (alter f i l) = findIndex p l.
Proof.
  intros Hf. revert i. induction l as [|a l IH]; intros [|i]; simpl; try done.
  - by rewrite Hf.
  - destruct (p a); [done|]. f_equal. apply IH.
Qed.

Lemma findIndex_responded code caller st i l :
  findIndex (carries code) (responded caller st i l) =
  findIndex (carries code) l.
Proof.
  unfold responded. rewrite !findIndex_alter; [done|done|].
  intros x. by destruct (negb _).
Qed.

Lemma responded_lookup caller st i l inv :
  l !! i = Some inv →
  responded caller st i l !! i =
  Some (Invitee.mk (Invitee._id inv)
          (Some (default caller (Invitee.user inv))) (Invitee.email inv) st
          (Invitee.inviteCode inv)).
Proof.
  intros Hi. unfold responded. rewrite !list_lookup_alter_eq, Hi. simpl.
  by destruct inv as [iid [u|] e s c].
Qed.

Lemma responded_lookup_ne caller st i l j :
  i ≠ j → responded caller st i l !! j = l !! j.
Proof. intros Hne. unfold responded. by rewrite !list_lookup_alter_ne. Qed.

Lemma responded_length caller st i l :
  length (responded caller st i l) = length l.
Proof. unfold responded. by rewrite !length_alter. Qed.

(** An accepted response, as an equation. *)
Lemma respondToInvite_accepted env id caller status code w st ev i :
  parse_status (Some status) = Some st →
  truthy (Some code) = true →
  events w !! id = Some ev →
  findIndex (carries code) (Event.invitees ev) = Some i →
  (∀ t e, rejects env t (EventSave id e) = None) →
  let ev' :=
    Event.set_invitees (responded caller st i (Event.invitees ev)) ev in
  respondToInvite env id caller (Some status) (Some code) w =
  (Json 200 ev', set_events <[id := ev']> (record (EventSave id ev') w)).
Proof.
  intros Hst Hcode Hev Hi Hok ev'.
  destruct (respondToInvite_call env id caller (Some status) (Some code) w)
    as [(err&Heq&Hk&_)|(st'&code'&ev0&j&Hst'&[= <-]&Hev0&Hj&Hr)].
  - exfalso. revert Heq.
    unfold respondToInvite, Event_findById, Event_save. rewrite Hst.
    run. rewrite Hcode. simpl. rewrite Hev. simpl.
    unfold carries in Hi. rewrite Hi. rewrite Hok. done.
  - rewrite Hev in Hev0. injection Hev0 as <-.
    rewrite Hst in Hst'. injection Hst' as <-.
    unfold carries in Hi. rewrite Hi in Hj. injection Hj as <-.
    simpl in Hr. by rewrite Hok in Hr.
Qed.

Lemma find_findIndex {A} (p : A → bool) l i :
  findIndex p l = Some i → find p l = l !! i.
Proof.
  revert i. induction l as [|a l IH]; intros i; simpl; [done|].
  destruct (p a); [by intros [= <-]|].
  destruct (findIndex p l) as [k|]; simpl; [|done]. intros [= <-].
  by apply IH.
Qed.

Lemma count_alter {A} (p : A → bool) (f : A → A) i l x :
  l !! i = Some x →
  count p (alter f i l) + (if p x then 1 else 0) =
  count p l + (if p (f x) then 1 else 0).
Proof.
  unfold count. revert i.
  induction l as [|a l IH]; intros [|i]; simpl; try done.
  - intros [= ->]. destruct (p x), (p (f x)); simpl; lia.
  - intros Hi. specialize (IH i Hi).
    change (list_alter f i l) with (alter f i l).
    destruct (p a); simpl; lia.
Qed.

Lemma carries_Some code inv :
  carries code inv = true → Invitee.inviteCode inv = Some code.
Proof.
  unfold carries, strict_eq. destruct (Invitee.inviteCode inv); [|done].
  by intros ->%String.eqb_eq.
Qed.

Lemma set_invitees_same ev l :
  Event.set_invitees (Event.invitees ev) (Event.set_invitees l ev) = ev.
Proof. by destruct ev. Qed.

(** X1.  A response with a valid status and a code that an invitee carries,
    whose save the store accepts, answers 200 with the stored event: the
    first entry carrying the code has the new status and, if it had no user,
    the caller as user; its id, email and code, every other entry and the
    rest of the event are as before. *)
Theorem respondToInvite_updates_first_match
    env id caller status code w st ev i inv :
  parse_status (Some status) = Some st →
  truthy (Some code) = true →
  events w !! id = Some ev →
  findIndex (carries code) (Event.invitees ev) = Some i →
  Event.invitees ev !! i = Some inv →
  (∀ t e, rejects env t (EventSave id e) = None) →
  let run := respondToInvite env id caller (Some status) (Some code) w in
  ∃ ev', run.1 = Json 200 ev' ∧ events run.2 !! id = Some ev' ∧
    Event.set_invitees (Event.invitees ev) ev' = ev ∧
    length (Event.invitees ev') = length (Event.invitees ev) ∧
    Event.invitees ev' !! i =
      Some (Invitee.mk (Invitee._id inv)
              (Some (default caller (Invitee.user inv))) (Invitee.email inv)
              st (Invitee.inviteCode inv)) ∧
    ∀ j, j ≠ i → Event.invitees ev' !! j = Event.invitees ev !! j.
Proof.
  intros Hst Hcode Hev Hi Hinv Hok run. subst run.
  rewrite (respondToInvite_accepted env id caller status code w st ev i)
    by done.
  eexists. split_and!; [done|simpl; apply lookup_insert_eq|..]; simpl.
  - apply set_invitees_same.
  - apply responded_length.
  - by apply responded_lookup.
  - intros j Hj. by apply responded_lookup_ne.
Qed.

Lemma respondToInvite_updates_first_match_witness :
  let run :=
    respondToInvite env0 party_id alice_id (Some "accepted") (Some "code-1")
      world1 in
  ∃ ev', run.1 = Json 200 ev' ∧ events run.2 !! party_id = Some ev' ∧
    Event.set_invitees (Event.invitees party1) ev' = party1 ∧
    length (Event.invitees ev') = 2 ∧
    Event.invitees ev' !! 1 =
      Some (Invitee.mk oid_1 (Some alice_id) (Some "a@x.com") accepted
              (Some "code-1")) ∧
    ∀ j, j ≠ 1 → Event.invitees ev' !! j = Event.invitees party1 !! j.
Proof.
  apply (respondToInvite_updates_first_match env0 party_id alice_id "accepted"
           "code-1" world1 accepted party1 1 a_x_entry); reflexivity.
Defined.

(** X2.  Two accepted responses with the same code to an entry that had no
    user: the entry ends with the user of the first caller and the status of
    the second response. *)
Theorem respondToInvite_first_binding_wins
    env id caller1 caller2 status1 status2 code w st1 st2 ev i inv :
  parse_status (Some status1) = Some st1 →
  parse_status (Some status2) = Some st2 →
  truthy (Some code) = true →
  events w !! id = Some ev →
  findIndex (carries code) (Event.invitees ev) = Some i →
  Event.invitees ev !! i = Some inv →
  Invitee.user inv = None →
  (∀ t e, rejects env t (EventSave id e) = None) →
  let w1 :=
    (respondToInvite env id caller1 (Some status1) (Some code) w).2 in
  let run := respondToInvite env id caller2 (Some status2) (Some code) w1 in
  ∃ ev2, run.1 = Json 200 ev2 ∧ events run.2 !! id = Some ev2 ∧
    Event.invitees ev2 !! i =
      Some (Invitee.mk (Invitee._id inv) (Some caller1) (Invitee.email inv)
              st2 (Invitee.inviteCode inv)).
Proof.
  intros Hst1 Hst2 Hcode Hev Hi Hinv Hu Hok w1 run. subst run w1.
  rewrite (respondToInvite_accepted env id caller1 status1 code w st1 ev i)
    by done.
  cbn [snd].
  erewrite (respondToInvite_accepted env id caller2 status2 code _ st2 _ i);
    [|done|done|simpl; apply lookup_insert_eq
     |simpl; by rewrite findIndex_responded|done].
  eexists. split_and!; [done|simpl; apply lookup_insert_eq|]. simpl.
  erewrite responded_lookup; [|by apply responded_lookup].
  simpl. by rewrite Hu.
Qed.

Lemma respondToInvite_first_binding_wins_witness :
  let w1 :=
    (respondToInvite env0 party_id alice_id (Some "accepted") (Some "code-1")
       world1).2 in
  let run :=
    respondToInvite env0 party_id bob_id (Some "declined") (Some "code-1") w1 in
  ∃ ev2, run.1 = Json 200 ev2 ∧ events run.2 !! party_id = Some ev2 ∧
    Event.invitees ev2 !! 1 =
      Some (Invitee.mk oid_1 (Some alice_id) (Some "a@x.com") declined
              (Some "code-1")).
Proof.
  apply (respondToInvite_first_binding_wins env0 party_id alice_id bob_id
           "accepted" "declined" "code-1" world1 accepted declined party1 1
           a_x_entry); reflexivity.
Defined.

(** X3.  An accepted response to an entry without user adds one to the
    number of entries bound to the caller, whatever that number was: a
    caller who is already the user of another entry of the event becomes the
    user of two. *)
Theorem respondToInvite_binds_caller_again
    env id caller status code w st ev i inv :
  parse_status (Some status) = Some st →
  truthy (Some code) = true →
  events w !! id = Some ev →
  findIndex (carries code) (Event.invitees ev) = Some i →
  Event.invitees ev !! i = Some inv →
  Invitee.user inv = None →
  (∀ t e, rejects env t (EventSave id e) = None) →
  let run := respondToInvite env id caller (Some status) (Some code) w in
  ∃ ev', events run.2 !! id = Some ev' ∧
    count (bound_to caller) (Event.invitees ev') =
      S (count (bound_to caller) (Event.invitees ev)) ∧
    (0 < count (bound_to caller) (Event.invitees ev) →
     ¬ unique_invitees (Event.invitees ev')).
Proof.
  intros Hst Hcode Hev Hi Hinv Hu Hok run. subst run.
  rewrite (respondToInvite_accepted env id caller status code w st ev i)
    by done.
  eexists. split; [simpl; apply lookup_insert_eq|]. simpl.
  assert (count (bound_to caller)
            (responded caller st i (Event.invitees ev)) =
          S (count (bound_to caller) (Event.invitees ev))) as Hcount.
  { unfold responded.
    pose proof (count_alter (bound_to caller) (Invitee.set_status st) i
                  (Event.invitees ev) inv Hinv) as H1.
    pose proof (count_alter (bound_to caller)
                  (λ inv, if negb (bool_decide (is_Some (Invitee.user inv)))
                          then Invitee.set_user (Some caller) inv else inv)
                  i (alter (Invitee.set_status st) i (Event.invitees ev))
                  (Invitee.set_status st inv)) as H2.
    rewrite list_lookup_alter_eq, Hinv in H2. specialize (H2 eq_refl).
    cbv beta in H2.
    assert (bound_to caller inv = false) as E1
      by (unfold bound_to; by rewrite Hu).
    assert (bound_to caller (Invitee.set_status st inv) = false) as E2
      by (unfold bound_to; simpl; by rewrite Hu).
    assert (bound_to caller
              (if negb (bool_decide
                          (is_Some (Invitee.user (Invitee.set_status st inv))))
               then Invitee.set_user (Some caller) (Invitee.set_status st inv)
               else Invitee.set_status st inv) = true) as E3.
    { simpl. rewrite Hu. simpl. unfold bound_to. simpl.
      apply String.eqb_refl. }
    rewrite E1, E2 in H1. rewrite E2, E3 in H2. lia. }
  split; [done|]. intros Hpos [Huniq _]. specialize (Huniq caller). lia.
Qed.

Lemma respondToInvite_binds_caller_again_witness :
  let run :=
    respondToInvite env0 party_id bob_id (Some "accepted") (Some "code-1") world1
  in
  ∃ ev', events run.2 !! party_id = Some ev' ∧
    count (bound_to bob_id) (Event.invitees ev') = 2 ∧
    ¬ unique_invitees (Event.invitees ev').
Proof.
  intros run.
  destruct (respondToInvite_binds_caller_again env0 party_id bob_id "accepted"
              "code-1" world1 accepted party1 1 a_x_entry)
    as (ev'&Hev'&Hc&Hn); [reflexivity..|].
  exists ev'. split; [exact Hev'|]. split; [exact Hc|].
  apply Hn. apply Nat.lt_0_1.
Defined.

(** X4.  After an accepted response, [verifyInvitation] with the same code
    answers with the entry's id, the status just set and the code (the
    creator of the event being a user). *)
Theorem respondToInvite_then_verifyInvitation
    env id caller status code w st ev i inv creator :
  parse_status (Some status) = Some st →
  truthy (Some code) = true →
  events w !! id = Some ev →
  findIndex (carries code) (Event.invitees ev) = Some i →
  Event.invitees ev !! i = Some inv →
  users w !! Event.creator ev = Some creator →
  (∀ t e, rejects env t (EventSave id e) = None) →
  let w' := (respondToInvite env id caller (Some status) (Some code) w).2 in
  (verifyInvitation id code w').1 =
  Json 200
    (Verified.mk
       (EventView.mk id (Event.name ev) (Event.date ev) (Event.location ev)
          (Event.description ev) (User.name creator))
       (InvitationView.mk (Invitee._id inv) st (Some code))).
Proof.
  intros Hst Hcode Hev Hi Hinv Hcr Hok w'. subst w'.
  rewrite (respondToInvite_accepted env id caller status code w st ev i)
    by done.
  rewrite verifyInvitation_eq. cbn [fst snd]. simpl events.
  rewrite lookup_insert_eq. cbn [fmap option_fmap option_map].
  rewrite find_carries_select. cbn [Event.invitees Event.set_invitees].
  rewrite (find_findIndex _ _ i) by by rewrite findIndex_responded.
  rewrite (responded_lookup _ _ _ _ inv Hinv).
  cbn [fmap option_fmap option_map]. simpl users.
  change (Event.creator _) with (Event.creator ev). rewrite Hcr.
  destruct (findIndex_Some _ _ _ Hi) as (x&Hx&Hp&_).
  rewrite Hinv in Hx. injection Hx as <-.
  unfold verified. simpl. by rewrite (carries_Some _ _ Hp).
Qed.

Lemma respondToInvite_then_verifyInvitation_witness :
  let w' :=
    (respondToInvite env0 party_id bob_id (Some "declined") (Some "code-0")
       world1).2 in
  (verifyInvitation party_id "code-0" w').1 =
  Json 200
    (Verified.mk (EventView.mk party_id "Party" 0 (Some "Home") None "Alice")
       (InvitationView.mk oid_0 declined (Some "code-0"))).
Proof.
  apply (respondToInvite_then_verifyInvitation env0 party_id bob_id "declined"
           "code-0" world1 declined party1 0 bob_entry alice); reflexivity.
Defined.

(** ** [addInvitees]: what a call appends, and repeating it *)

(** X5.  [addInvitees] looks at the body first: without an array it answers
    400 whoever asks and whether or not the event exists; with an array and
    no event of that id it answers NotFound.  Neither changes the world. *)
Theorem addInvitees_rejects_before_loading env id requester w :
  addInvitees env id requester None w =
    (Next (AppError "Please provide invitees array" 400), w) ∧
  (∀ specs, events w !! id = None →
     fails_with (addInvitees env id requester (Some specs) w).1 NotFound ∧
     (addInvitees env id requester (Some specs) w).2 = w).
Proof.
  split; [done|]. intros specs Hev.
  unfold addInvitees, Event_findById. run. rewrite Hev. simpl.
  split; [|done]. by eexists.
Qed.

Lemma addInvitees_rejects_before_loading_witness :
  fails_with (addInvitees env0 no_event_id alice_id (Some [a_x]) world0).1 NotFound ∧
  (addInvitees env0 no_event_id alice_id (Some [a_x]) world0).2 = world0.
Proof.
  apply (addInvitees_rejects_before_loading env0 no_event_id alice_id world0).
  reflexivity.
Defined.

(** X6.  A call by the creator whose batch holds no malformed user id
    appends to the invitee list, in order, at most one entry per spec, each
    as [appended_for] says: pending, with a code and an email, a bound
    entry carrying the email of its user and not one from the spec.  Every
    spec draws a uuid, appended or not, and every appended entry one store
    id.  The answer is 200 with that event, which is then the stored one,
    or the error of the rejected save, and then the stored event is as
    before. *)
Theorem addInvitees_appends env id requester specs w ev :
  events w !! id = Some ev →
  Event.creator ev = requester →
  well_formed specs = true →
  let run := addInvitees env id requester (Some specs) w in
  ∃ added,
    Forall (appended_for (users w) specs) added ∧
    length added ≤ length specs ∧
    uuids run.2 = uuids w + length specs ∧
    oids run.2 = oids w + length added ∧
    users run.2 = users w ∧
    (∀ ev', run.1 = Json 200 ev' →
       ev' = Event.set_invitees (Event.invitees ev ++ added) ev ∧
       events run.2 !! id = Some ev') ∧
    (∀ err, run.1 = Next err → events run.2 = events w).
Proof.
  intros Hev Hc Hwf run. subst run.
  destruct (addInvitees_call env id requester (Some specs) w)
    as [(err&Heq&[?|[?|(ev0&?&?)]])
       |[(specs'&ev0&raw&w1&[= <-]&_&_&Hwf'&_)
        |(specs'&ev0&ev'&w1&[= <-]&Hev0&_&_&Hl&Hs&Hr)]];
    [done|congruence|congruence|congruence|].
  rewrite Hev in Hev0. injection Hev0 as <-.
  destruct (addInvitees_loop_appends env specs ev w Hwf)
    as (added&w1'&Hl'&Hall&Hlen&Hu&Ho&_).
  rewrite Hl in Hl'. injection Hl' as -> <-.
  destruct Hs as (Hus&Hevs&_).
  exists added.
  destruct (rejects env _ _); rewrite Hr; simpl;
    (split_and!; [done..| |]); try done.
  intros ev' [= <-]. split; [done|]. apply lookup_insert_eq.
Qed.

Lemma addInvitees_appends_witness :
  let run :=
    addInvitees env0 party_id alice_id (Some [a_x; ghost_spec; bob_again])
      world0
  in
  ∃ added,
    Forall (appended_for (users world0) [a_x; ghost_spec; bob_again]) added ∧
    length added ≤ 3 ∧ uuids run.2 = 3 ∧ oids run.2 = length added.
Proof.
  intros run.
  destruct (addInvitees_appends env0 party_id alice_id
              [a_x; ghost_spec; bob_again] world0 party)
    as (added&Hall&Hlen&Hu&Ho&_); [reflexivity..|].
  exists added. split; [exact Hall|]. split; [exact Hlen|].
  split; [exact Hu|exact Ho].
Defined.

Lemma accepted_spec_None_app us l l' spec :
  accepted_spec us l spec = None → accepted_spec us (l ++ l') spec = None.
Proof.
  unfold accepted_spec. rewrite !existsb_app.
  destruct (truthy (InviteeSpec.userId spec)).
  - destruct (_ ≫= _); [|done]. by destruct (existsb _ l).
  - destruct (truthy (InviteeSpec.email spec)); [|done].
    by destruct (existsb _ l).
Qed.

Lemma accepted_spec_settled us l spec u e id st c :
  in_stored_form spec = true →
  accepted_spec us l spec = Some (u, e) →
  accepted_spec us (l ++ [Invitee.mk id u e st c]) spec = None.
Proof.
  intros Hform Hacc. pose proof Hacc as Hacc'.
  unfold accepted_spec in *. rewrite !existsb_app. simpl.
  destruct (truthy (InviteeSpec.userId spec)) eqn:Ht.
  - unfold in_stored_form in Hform. rewrite Ht in Hform. simpl in Hform.
    apply bool_decide_eq_true in Hform.
    destruct (InviteeSpec.userId spec) as [raw|]; [|done]. simpl in *.
    rewrite Hform in *. simpl in *.
    destruct (us !! raw) as [user|]; [|done].
    destruct (existsb _ l); [done|]. injection Hacc as <- <-.
    unfold bound_to. simpl. by rewrite String.eqb_refl.
  - destruct (truthy (InviteeSpec.email spec)); [|done].
    destruct (existsb _ l); [done|]. injection Hacc as <- <-.
    simpl. by rewrite String.eqb_refl.
Qed.

(** After the loop no spec of a batch in stored form would add an entry. *)
Lemma addInvitees_loop_settles env specs event w :
  forallb in_stored_form specs = true →
  ∃ event' w',
    addInvitees_loop env event specs w = (Ok event', w') ∧
    users w' = users w ∧
    Event.invitees event `prefix_of` Event.invitees event' ∧
    Forall (λ spec,
              accepted_spec (users w) (Event.invitees event') spec = None)
           specs.
Proof.
  revert event w. induction specs as [|spec specs IH]; intros event w Hform.
  - by exists event, w.
  - simpl in Hform. apply andb_true_iff in Hform as [Hspec Hform].
    simpl. unfold mbind, M_bind.
    rewrite addInvitees_step_eq, (in_stored_form_well _ Hspec).
    destruct (accepted_spec _ _ _) as [[u e]|] eqn:Hacc.
    + destruct (IH (Event.set_invitees
                      (Event.invitees event ++
                         [Invitee.mk (ObjectId env (oids w)) u e pending
                            (Some (uuidv4 env (uuids w)))]) event)
                   (next_oid (next_uuid w)) Hform)
        as (ev'&w'&->&Hu&[rest Hpre]&Hall).
      simpl in *. exists ev', w'.
      split_and!; [done..| |].
      * rewrite Hpre, <- app_assoc. by eexists.
      * constructor; [|done]. rewrite Hpre.
        apply accepted_spec_None_app. by apply accepted_spec_settled.
    + destruct (IH event (next_uuid w) Hform)
        as (ev'&w'&->&Hu&[rest Hpre]&Hall).
      simpl in *. exists ev', w'. split_and!; [done..|by eexists|].
      constructor; [|done]. rewrite Hpre. by apply accepted_spec_None_app.
Qed.

(** Specs that would add nothing leave the event as it is. *)
Lemma addInvitees_loop_settled env specs event w :
  well_formed specs = true →
  Forall (λ spec, accepted_spec (users w) (Event.invitees event) spec = None)
         specs →
  ∃ w', addInvitees_loop env event specs w = (Ok event, w') ∧
        same_store w w'.
Proof.
  unfold well_formed. revert w.
  induction specs as [|spec specs IH]; intros w Hwf Hall.
  - by exists w.
  - simpl in Hwf. apply andb_true_iff in Hwf as [Hs%negb_true_iff Hwf].
    apply Forall_cons in Hall as [Hspec Hall].
    simpl. unfold mbind, M_bind. rewrite addInvitees_step_eq, Hs, Hspec.
    destruct (IH (next_uuid w) Hwf Hall) as (w'&->&Hst). by exists w'.
Qed.

(** X7.  Repeating a call changes nothing further: when the creator sends
    the same batch twice, every user id of the batch is in stored form and
    the store accepts both saves, the second call answers with the event
    the first one stored, and that event stays stored. *)
Theorem addInvitees_twice env id requester specs w ev :
  events w !! id = Some ev →
  Event.creator ev = requester →
  forallb in_stored_form specs = true →
  (∀ t e, rejects env t (EventSave id e) = None) →
  let first := addInvitees env id requester (Some specs) w in
  let second := addInvitees env id requester (Some specs) first.2 in
  ∃ ev1, first.1 = Json 200 ev1 ∧ second.1 = Json 200 ev1 ∧
         events second.2 !! id = Some ev1.
Proof.
  intros Hev Hc Hform Hok first second.
  pose proof (forallb_in_stored_form_well _ Hform) as Hwf.
  destruct (addInvitees_loop_settles env specs ev w Hform)
    as (ev1&w1&Hl&Hu&_&Hall).
  assert (Event.creator ev1 = requester) as Hc1.
  { destruct (addInvitees_loop_appends env specs ev w Hwf) as (?&?&Hl'&_).
    rewrite Hl in Hl'. injection Hl' as -> _. done. }
  assert (first =
    (Json 200 ev1, set_events <[id := ev1]> (record (EventSave id ev1) w1)))
    as Hfirst.
  { subst first.
    destruct (addInvitees_call env id requester (Some specs) w)
      as [(err&Heq&[?|[?|(ev0&?&?)]])
         |[(specs'&ev0&raw&w1'&[= <-]&_&_&Hwf'&_)
          |(specs'&ev0&ev'&w1'&[= <-]&Hev0&_&_&Hl'&_&Hr)]];
      [done|congruence|congruence|congruence|].
    rewrite Hev in Hev0. injection Hev0 as <-.
    rewrite Hl in Hl'. injection Hl' as <- <-. by rewrite Hok in Hr. }
  exists ev1. split; [by rewrite Hfirst|].
  subst second. rewrite Hfirst. cbn [snd].
  set (w2 := set_events <[id := ev1]> (record (EventSave id ev1) w1)).
  destruct (addInvitees_loop_settled env specs ev1 w2 Hwf) as (w3&Hl2&_).
  { subst w2. simpl. by rewrite Hu. }
  destruct (addInvitees_call env id requester (Some specs) w2)
    as [(err&Heq&[?|[Hnone|(ev0&Hev0&?)]])
       |[(specs'&ev0&raw&w3'&[= <-]&_&_&Hwf'&_)
        |(specs'&ev0&ev'&w3'&[= <-]&Hev0&_&_&Hl'&_&Hr)]].
  - done.
  - subst w2. simpl in Hnone. by rewrite lookup_insert_eq in Hnone.
  - subst w2. simpl in Hev0. rewrite lookup_insert_eq in Hev0. congruence.
  - congruence.
  - subst w2. simpl in Hev0. rewrite lookup_insert_eq in Hev0.
    injection Hev0 as <-. rewrite Hl2 in Hl'. injection Hl' as <- <-.
    rewrite Hok in Hr. rewrite Hr. split; [done|]. simpl.
    apply lookup_insert_eq.
Qed.

Lemma addInvitees_twice_witness :
  let first :=
    addInvitees env0 party_id alice_id (Some [a_x; bob_spec; a_x]) world0 in
  let second :=
    addInvitees env0 party_id alice_id (Some [a_x; bob_spec; a_x]) first.2 in
  ∃ ev1, first.1 = Json 200 ev1 ∧ second.1 = Json 200 ev1 ∧
         events second.2 !! party_id = Some ev1.
Proof.
  apply (addInvitees_twice env0 party_id alice_id [a_x; bob_spec; a_x] world0
           party); reflexivity.
Defined.

(** ** [removeInvitee] *)

(** One call: it leaves without an effect, or saves the event once without
    the first entry that has the id. *)
Lemma removeInvitee_call env id requester inviteeId w :
  removeInvitee env id requester inviteeId w =
  match events w !! id with
  | None => (Next (AppError ("Event not found with id of " ++ id) 404), w)
  | Some ev =>
      if negb (String.eqb (Event.creator ev) requester) then
        (Next (AppError "Not authorized to remove invitees from this event"
                 401), w)
      else
        match findIndex (has_id inviteeId) (Event.invitees ev) with
        | None => (Next (AppError "Invitee not found" 404), w)
        | Some i =>
            let ev' :=
              Event.set_invitees (delete i (Event.invitees ev)) ev in
            match rejects env (length (trace w)) (EventSave id ev') with
            | Some err => (Next err, record (EventSave id ev') w)
            | None =>
                (Json 200 ev',
                 set_events <[id := ev']> (record (EventSave id ev') w))
            end
        end
  end.
Proof.
  unfold removeInvitee, Event_findById, Event_save. run.
  destruct (events w !! id) as [ev|]; simpl; [|done].
  destruct (negb _); simpl; [done|].
  fold (has_id inviteeId).
  destruct (findIndex _ _) as [i|]; simpl; [|done].
  by destruct (rejects env _ _).
Qed.

(** X8.  [removeInvitee] answers NotFound for an event that does not exist,
    Unauthorized for a requester who is not the creator, and NotFound when
    no entry of the event has the id; in all three cases the world is left
    as it was. *)
Theorem removeInvitee_rejects_without_effect env id requester inviteeId w :
  let run := removeInvitee env id requester inviteeId w in
  (events w !! id = None → fails_with run.1 NotFound ∧ run.2 = w) ∧
  (∀ ev, events w !! id = Some ev → Event.creator ev ≠ requester →
     fails_with run.1 Unauthorized ∧ run.2 = w) ∧
  (∀ ev, events w !! id = Some ev → Event.creator ev = requester →
     (∀ inv, inv ∈ Event.invitees ev → Invitee._id inv ≠ inviteeId) →
     fails_with run.1 NotFound ∧ run.2 = w).
Proof.
  intros run. subst run. rewrite removeInvitee_call. split_and!.
  - intros ->. split; [|done]. by eexists.
  - intros ev -> Hc.
    destruct (String.eqb_spec (Event.creator ev) requester); [done|].
    simpl. split; [|done]. by eexists.
  - intros ev -> Hc Hno.
    destruct (String.eqb_spec (Event.creator ev) requester); [|done].
    simpl. rewrite findIndex_None.
    + split; [|done]. by eexists.
    + intros inv Hin. apply String.eqb_neq. by apply Hno.
Qed.

Lemma removeInvitee_rejects_without_effect_witness :
  (fails_with (removeInvitee env0 no_event_id alice_id oid_0 world1).1 NotFound ∧
   (removeInvitee env0 no_event_id alice_id oid_0 world1).2 = world1) ∧
  (fails_with (removeInvitee env0 party_id bob_id oid_0 world1).1 Unauthorized ∧
   (removeInvitee env0 party_id bob_id oid_0 world1).2 = world1) ∧
  (fails_with (removeInvitee env0 party_id alice_id oid_9 world1).1 NotFound ∧
   (removeInvitee env0 party_id alice_id oid_9 world1).2 = world1).
Proof.
  split; [|split].
  - destruct (removeInvitee_rejects_without_effect env0 no_event_id alice_id
                oid_0 world1) as (H&_&_). apply H. reflexivity.
  - destruct (removeInvitee_rejects_without_effect env0 party_id bob_id oid_0
                world1) as (_&H&_).
    apply (H party1); [reflexivity|discriminate].
  - destruct (removeInvitee_rejects_without_effect env0 party_id alice_id
                oid_9 world1) as (_&_&H).
    apply (H party1); [reflexivity..|].
    intros inv Hin.
    apply elem_of_cons in Hin as [->|Hin]; [discriminate|].
    apply elem_of_cons in Hin as [->|Hin]; [discriminate|].
    inversion Hin.
Defined.

(** X9.  For the creator and an id some entry has, [removeInvitee] performs
    one save, of the event without the first entry that has the id: the
    entries before it and after it stay, in order, and nothing else of the
    event changes.  If the store accepts the save the answer is 200 with
    that event, which is then the stored one; otherwise the stored event is
    as before. *)
Theorem removeInvitee_removes_first env id requester inviteeId w ev i :
  events w !! id = Some ev →
  Event.creator ev = requester →
  findIndex (has_id inviteeId) (Event.invitees ev) = Some i →
  let run := removeInvitee env id requester inviteeId w in
  let ev' :=
    Event.set_invitees
      (take i (Event.invitees ev) ++ drop (S i) (Event.invitees ev)) ev in
  (∃ inv, Event.invitees ev !! i = Some inv ∧ Invitee._id inv = inviteeId ∧
     ∀ j inv', j < i → Event.invitees ev !! j = Some inv' →
               Invitee._id inv' ≠ inviteeId) ∧
  S (length (Event.invitees ev')) = length (Event.invitees ev) ∧
  trace run.2 = trace w ++ [EventSave id ev'] ∧
  match rejects env (length (trace w)) (EventSave id ev') with
  | None => run.1 = Json 200 ev' ∧ events run.2 = <[id := ev']> (events w)
  | Some err => run.1 = Next err ∧ events run.2 = events w
  end.
Proof.
  intros Hev Hc Hi run ev'. subst run. rewrite removeInvitee_call, Hev.
  destruct (String.eqb_spec (Event.creator ev) requester); [|done].
  simpl. rewrite Hi. cbv zeta. rewrite delete_take_drop. fold ev'.
  destruct (findIndex_Some _ _ _ Hi) as (inv&Hinv&Hp&Hlt).
  split_and!.
  - exists inv. split_and!; [done|by apply String.eqb_eq|].
    intros j inv' Hj Hinv'. apply String.eqb_neq. by eapply Hlt.
  - subst ev'. simpl. apply lookup_lt_Some in Hinv.
    rewrite length_app, length_take, length_drop. lia.
  - by destruct (rejects env _ _).
  - by destruct (rejects env _ _).
Qed.

Lemma removeInvitee_removes_first_witness :
  let run := removeInvitee env0 party_id alice_id oid_0 world1 in
  let ev' := Event.set_invitees [a_x_entry] party1 in
  trace run.2 = [EventSave party_id ev'] ∧
  run.1 = Json 200 ev' ∧ events run.2 = <[party_id := ev']> (events world1).
Proof.
  intros run ev'.
  destruct (removeInvitee_removes_first env0 party_id alice_id oid_0 world1
              party1 0) as (_&_&Htr&Hr); [reflexivity..|].
  split; [exact Htr|exact Hr].
Defined.

Lemma find_carries_delete code (l : list Invitee.t) i inv :
  NoDup (codes l) → l !! i = Some inv →
  Invitee.inviteCode inv = Some code →
  find (carries code) (delete i l) = None.
Proof.
  intros Hnd Hi Hc. apply find_None_carries. intros inv' Hin Hc'.
  rewrite delete_take_drop in Hin.
  rewrite <- (take_drop_middle l i inv Hi) in Hnd.
  unfold codes in Hnd. rewrite omap_app in Hnd. simpl in Hnd.
  rewrite Hc in Hnd. apply NoDup_app in Hnd as (_&Hdisj&Hnd2).
  apply NoDup_cons in Hnd2 as [Hnot _].
  apply elem_of_app in Hin as [Hin|Hin].
  - apply (Hdisj code); [|by left].
    apply list_elem_of_omap. by exists inv'.
  - apply Hnot. apply list_elem_of_omap. by exists inv'.
Qed.

(** X10.  Once an entry is removed its code opens nothing (the codes of the
    list being pairwise distinct): after an accepted [removeInvitee],
    [verifyInvitation] with the code of the removed entry is answered
    InvalidInput, and so is [respondToInvite], which leaves the world as it
    is. *)
Theorem removeInvitee_revokes_code
    env id requester inviteeId w ev i inv code caller status :
  events w !! id = Some ev →
  Event.creator ev = requester →
  findIndex (has_id inviteeId) (Event.invitees ev) = Some i →
  Event.invitees ev !! i = Some inv →
  Invitee.inviteCode inv = Some code →
  NoDup (codes (Event.invitees ev)) →
  (∀ t e, rejects env t (EventSave id e) = None) →
  let w' := (removeInvitee env id requester inviteeId w).2 in
  fails_with (verifyInvitation id code w').1 InvalidInput ∧
  fails_with (respondToInvite env id caller status (Some code) w').1
    InvalidInput ∧
  (respondToInvite env id caller status (Some code) w').2 = w'.
Proof.
  intros Hev Hc Hi Hinv Hcode Hnd Hok w'.
  assert (Hfind := find_carries_delete code _ i inv Hnd Hinv Hcode).
  assert (events w' !! id =
          Some (Event.set_invitees (delete i (Event.invitees ev)) ev))
    as Hev'.
  { subst w'. rewrite removeInvitee_call, Hev.
    destruct (String.eqb_spec (Event.creator ev) requester); [|done].
    simpl. rewrite Hi. cbv zeta. rewrite Hok. simpl.
    apply lookup_insert_eq. }
  clearbody w'. split.
  - rewrite verifyInvitation_eq, Hev'. cbn [fst fmap option_fmap option_map].
    rewrite find_carries_select. simpl. rewrite Hfind. simpl. by eexists.
  - destruct (respondToInvite_call env id caller status (Some code) w')
      as [(err&Heq&[Hk|[_ Hnone]]&_)|(st&code'&ev0&j&_&[= <-]&Hev0&Hj&_)].
    + rewrite Heq. split; [by exists err|done].
    + congruence.
    + rewrite Hev' in Hev0. injection Hev0 as <-. simpl in Hj.
      destruct (findIndex_Some _ _ _ Hj) as (x&Hx&_).
      apply find_findIndex in Hj. fold (carries code) in Hj.
      rewrite Hfind in Hj. congruence.
Qed.

Lemma removeInvitee_revokes_code_witness :
  let w' := (removeInvitee env0 party_id alice_id oid_0 world1).2 in
  fails_with (verifyInvitation party_id "code-0" w').1 InvalidInput ∧
  fails_with
    (respondToInvite env0 party_id bob_id (Some "accepted") (Some "code-0") w').1
    InvalidInput ∧
  (respondToInvite env0 party_id bob_id (Some "accepted") (Some "code-0") w').2
  = w'.
Proof.
  apply (removeInvitee_revokes_code env0 party_id alice_id oid_0 world1 party1
           0 bob_entry "code-0" bob_id (Some "accepted"));
    try reflexivity.
  repeat constructor; intros Hin;
    repeat (apply elem_of_cons in Hin as [Hin|Hin]; [discriminate|]);
    inversion Hin.
Defined.

Lemma findIndex_snoc_fresh inviteeId (l : list Invitee.t) x :
  (∀ inv, inv ∈ l → Invitee._id inv ≠ inviteeId) →
  Invitee._id x = inviteeId →
  findIndex (has_id inviteeId) (l ++ [x]) = Some (length l).
Proof.
  intros Hno Hx. induction l as [|a l IH]; simpl.
  - unfold has_id. by rewrite Hx, String.eqb_refl.
  - unfold has_id at 1.
    destruct (String.eqb_spec (Invitee._id a) inviteeId) as [Heq|_].
    { exfalso. by apply (Hno a); [left|]. }
    rewrite IH; [done|]. intros inv Hin. apply Hno. by right.
Qed.

Lemma delete_snoc {A} (l : list A) x : delete (length l) (l ++ [x]) = l.
Proof. induction l as [|a l IH]; simpl; [done|]. by rewrite IH. Qed.

(** X11.  Adding one invitee and removing it again gives the event back:
    when a call by the creator with one spec appends an entry and the id the
    store gave it is the id of no older entry, [removeInvitee] with that id
    answers with the event as it was before the call, and that event is
    stored again (every save being accepted). *)
Theorem addInvitees_then_removeInvitee env id requester spec w ev ev1 :
  events w !! id = Some ev →
  Event.creator ev = requester →
  (∀ t e, rejects env t (EventSave id e) = None) →
  (∀ inv, inv ∈ Event.invitees ev → Invitee._id inv ≠ ObjectId env (oids w)) →
  let first := addInvitees env id requester (Some [spec]) w in
  first.1 = Json 200 ev1 →
  length (Event.invitees ev1) = S (length (Event.invitees ev)) →
  let second := removeInvitee env id requester (ObjectId env (oids w)) first.2
  in
  second.1 = Json 200 ev ∧ events second.2 !! id = Some ev.
Proof.
  intros Hev Hc Hok Hfresh first Hfirst Hlen second.
  destruct (addInvitees_call env id requester (Some [spec]) w)
    as [(err&Heq&_)
       |[(specs'&ev0&raw&w1&_&_&_&_&Heq&_)
        |(specs'&ev0&ev'&w1&[= <-]&Hev0&_&Hwf&Hl&_&Hr)]].
  { subst first. rewrite Heq in Hfirst. done. }
  { subst first. rewrite Heq in Hfirst. done. }
  rewrite Hev in Hev0. injection Hev0 as <-.
  rewrite Hok in Hr. fold first in Hr.
  rewrite Hr in Hfirst. injection Hfirst as ->.
  unfold well_formed in Hwf. simpl in Hwf.
  rewrite andb_true_r in Hwf. apply negb_true_iff in Hwf.
  revert Hl. simpl. unfold mbind, M_bind. rewrite addInvitees_step_eq, Hwf.
  destruct (accepted_spec _ _ _) as [[u e]|]; intros [= <- <-].
  2:{ lia. }
  subst second. rewrite Hr. cbn [snd].
  rewrite removeInvitee_call. simpl events. rewrite lookup_insert_eq.
  cbn [Event.creator Event.set_invitees Event.invitees].
  destruct (String.eqb_spec (Event.creator ev) requester); [|done].
  simpl negb. cbv iota.
  rewrite findIndex_snoc_fresh by done. cbv zeta.
  rewrite delete_snoc, set_invitees_same, !Hok. cbn [fst snd]. simpl events.
  by rewrite lookup_insert_eq.
Qed.

Lemma addInvitees_then_removeInvitee_witness :
  let first := addInvitees env0 party_id alice_id (Some [bob_spec]) world0 in
  let second := removeInvitee env0 party_id alice_id oid_0 first.2 in
  second.1 = Json 200 party ∧ events second.2 !! party_id = Some party.
Proof.
  apply (addInvitees_then_removeInvitee env0 party_id alice_id bob_spec world0
           party (Event.set_invitees
                    [Invitee.mk oid_0 (Some bob_id) (Some "bob@x.com")
                       pending (Some "code-0")] party));
    try reflexivity.
  intros inv Hin. inversion Hin.
Defined.

(** ** [sendInvitations]: rejections, the two result lists, the effects *)

(** X12.  [sendInvitations] answers NotFound for an event that does not
    exist, Unauthorized for a caller who is not the creator, and
    InvalidInput for a missing or empty list of ids, in that order of
    checks; an event whose creator is no user makes it fail with a server
    error.  None of these performs an effect. *)
Theorem sendInvitations_rejects_without_effect
    env protocol host eventId caller inviteeIds w :
  let run := sendInvitations env protocol host eventId caller inviteeIds w in
  (events w !! eventId = None → fails_with run.1 NotFound ∧ run.2 = w) ∧
  (∀ ev, events w !! eventId = Some ev →
     users w !! Event.creator ev = None →
     run.1 = Next TypeError ∧ run.2 = w) ∧
  (∀ ev creator, events w !! eventId = Some ev →
     users w !! Event.creator ev = Some creator →
     Event.creator ev ≠ caller →
     fails_with run.1 Unauthorized ∧ run.2 = w) ∧
  (∀ ev creator, events w !! eventId = Some ev →
     users w !! Event.creator ev = Some creator →
     Event.creator ev = caller →
     inviteeIds = None ∨ inviteeIds = Some [] →
     fails_with run.1 InvalidInput ∧ run.2 = w).
Proof.
  intros run. subst run.
  unfold sendInvitations, Event_findById, User_populate. run. split_and!.
  - intros ->. simpl. split; [|done]. by eexists.
  - intros ev -> ->. done.
  - intros ev creator -> -> Hc. simpl.
    destruct (String.eqb_spec (Event.creator ev) caller); [done|]. simpl.
    split; [|done]. by eexists.
  - intros ev creator -> -> Hc Hids. simpl.
    destruct (String.eqb_spec (Event.creator ev) caller); [|done]. simpl.
    destruct Hids as [->| ->]; (split; [|done]); by eexists.
Qed.

Lemma sendInvitations_rejects_without_effect_witness :
  (fails_with
     (sendInvitations env0 "https" "photomingle.test" party_id bob_id
        (Some [oid_0]) world1).1 Unauthorized ∧
   (sendInvitations env0 "https" "photomingle.test" party_id bob_id
      (Some [oid_0]) world1).2 = world1) ∧
  (fails_with
     (sendInvitations env0 "https" "photomingle.test" party_id alice_id
        (Some []) world1).1 InvalidInput ∧
   (sendInvitations env0 "https" "photomingle.test" party_id alice_id
      (Some []) world1).2 = world1).
Proof.
  split.
  - destruct (sendInvitations_rejects_without_effect env0 "https"
                "photomingle.test" party_id bob_id (Some [oid_0]) world1)
      as (_&_&H&_).
    apply (H party1 alice); [reflexivity..|discriminate].
  - destruct (sendInvitations_rejects_without_effect env0 "https"
                "photomingle.test" party_id alice_id (Some []) world1)
      as (_&_&_&H).
    apply (H party1 alice); [reflexivity..|]. right. reflexivity.
Defined.

Section SendInvitationsMore.
Variable env : Env.
Variables protocol host eventId : string.
Variable event : Event.t.
Variable creator : User.t.

Abbreviation step' :=
  (sendInvitations_step env protocol host eventId event creator).
Abbreviation loop' :=
  (sendInvitations_loop env protocol host eventId event creator).

Lemma reported_ids_add_sent x acc :
  reported_ids (add_sent x acc) ≡ₚ SentInvitation.id x :: reported_ids acc.
Proof.
  unfold reported_ids, add_sent. simpl. rewrite fmap_app. simpl.
  rewrite <- app_assoc. simpl. by rewrite <- Permutation_middle.
Qed.

Lemma reported_ids_add_failed x acc :
  reported_ids (add_failed x acc) ≡ₚ FailedInvitation.id x :: reported_ids acc.
Proof.
  unfold reported_ids, add_failed. simpl. rewrite fmap_app. simpl.
  rewrite app_assoc. by rewrite <- Permutation_cons_append.
Qed.

(** A turn reports its id once, leaves the collections but the
    notifications alone, and performs only effects of the invitation. *)
Lemma sendInvitations_step_reports acc inviteeId w :
  ∃ acc' w' effs,
    step' acc inviteeId w = (Ok acc', w') ∧
    reported_ids acc' ≡ₚ inviteeId :: reported_ids acc ∧
    users w' = users w ∧ events w' = events w ∧ photos w' = photos w ∧
    trace w' = trace w ++ effs ∧
    Forall (invitation_effect env protocol host eventId event creator
              [inviteeId]) effs.
Proof.
  rewrite sendInvitations_step_eq. simpl.
  destruct (find _ _) as [invitee|] eqn:Hf.
  2:{ eexists _, _, []. rewrite app_nil_r.
      split_and!; [done|apply reported_ids_add_failed|done..]. }
  apply find_has_id in Hf as [Hmem Hid].
  assert (invitation_effect env protocol host eventId event creator
            [inviteeId]
            (SgSend (invitation_email env protocol host eventId event creator
                       invitee))) as Hsend.
  { exists invitee. split_and!; [done| |done]. rewrite Hid. by left. }
  destruct (rejects env _ (SgSend _)) as [e|].
  { destruct e as [| | | |? [?|]]; eexists _, _, _; unfold record_all; simpl;
      (split_and!;
       [done|apply reported_ids_add_failed|done|done|done
       |simpl; rewrite <- ?app_assoc; reflexivity|by repeat constructor]). }
  destruct (bool_decide _);
    [destruct (rejects env _ (NotificationCreate _))|];
    eexists _, _, _; unfold record_all; simpl;
    (split_and!;
     [done
     |first [apply reported_ids_add_failed|apply reported_ids_add_sent]
     |done|done|done
     |simpl; rewrite <- ?app_assoc; reflexivity|by repeat constructor]).
Qed.

Lemma invitation_effect_weaken ids ids' eff :
  (∀ x, x ∈ ids → x ∈ ids') →
  invitation_effect env protocol host eventId event creator ids eff →
  invitation_effect env protocol host eventId event creator ids' eff.
Proof.
  intros Hsub. destruct eff; simpl; try done.
  intros (invitee&?&?&?). exists invitee. split_and!; auto.
Qed.

Lemma sendInvitations_loop_reports_all ids acc w :
  ∃ acc' w' effs,
    loop' acc ids w = (Ok acc', w') ∧
    reported_ids acc' ≡ₚ ids ++ reported_ids acc ∧
    users w' = users w ∧ events w' = events w ∧ photos w' = photos w ∧
    trace w' = trace w ++ effs ∧
    Forall (invitation_effect env protocol host eventId event creator ids)
           effs.
Proof.
  revert acc w. induction ids as [|inviteeId ids IH]; intros acc w.
  - exists acc, w, []. rewrite app_nil_r. by split_and!.
  - simpl. unfold mbind, M_bind.
    destruct (sendInvitations_step_reports acc inviteeId w)
      as (acc1&w1&effs1&->&Hp1&Hu1&He1&Hph1&Ht1&Hall1).
    destruct (IH acc1 w1) as (acc2&w2&effs2&->&Hp2&Hu2&He2&Hph2&Ht2&Hall2).
    exists acc2, w2, (effs1 ++ effs2).
    split_and!; [done| |congruence..| |].
    + rewrite Hp2, Hp1. by rewrite <- Permutation_middle.
    + by rewrite Ht2, Ht1, app_assoc.
    + apply Forall_app. split.
      * eapply Forall_impl; [exact Hall1|]. intros eff.
        apply invitation_effect_weaken. intros x ->%list_elem_of_singleton.
        by left.
      * eapply Forall_impl; [exact Hall2|]. intros eff.
        apply invitation_effect_weaken. intros x Hx. by right.
Qed.

End SendInvitationsMore.

Lemma sendInvitations_run env protocol host eventId caller ids w ev creator :
  events w !! eventId = Some ev →
  users w !! Event.creator ev = Some creator →
  Event.creator ev = caller →
  ids ≠ [] →
  sendInvitations env protocol host eventId caller (Some ids) w =
  match sendInvitations_loop env protocol host eventId ev creator
          (Invitations.mk [] []) ids w with
  | (Ok result, w') => (Json 200 result, w')
  | (Throw e, w') => (Next e, w')
  end.
Proof.
  intros Hev Hcr Hc Hne.
  unfold sendInvitations, Event_findById, User_populate. run.
  rewrite Hev. simpl. rewrite Hcr. simpl.
  destruct (String.eqb_spec (Event.creator ev) caller); [|done]. simpl.
  destruct ids as [|inviteeId ids]; [done|].
  by destruct (sendInvitations_loop _ _ _ _ _ _ _ _ _) as [[?|?] ?].
Qed.

(** X13.  A call by the creator with a non-empty batch answers 200, and its
    two lists together report every id of the batch exactly once, a repeated
    id as often as it is repeated: the reported ids are a permutation of the
    batch. *)
Theorem sendInvitations_reports_each_id_once
    env protocol host eventId caller ids w ev creator :
  events w !! eventId = Some ev →
  users w !! Event.creator ev = Some creator →
  Event.creator ev = caller →
  ids ≠ [] →
  ∃ result,
    (sendInvitations env protocol host eventId caller (Some ids) w).1
      = Json 200 result ∧
    reported_ids result ≡ₚ ids ∧
    length (Invitations.sent result) + length (Invitations.failed result)
      = length ids.
Proof.
  intros Hev Hcr Hc Hne.
  rewrite (sendInvitations_run _ _ _ _ _ _ _ ev creator) by done.
  destruct (sendInvitations_loop_reports_all env protocol host eventId ev
              creator ids (Invitations.mk [] []) w)
    as (result&w'&effs&->&Hp&_).
  exists result. split; [done|].
  rewrite app_nil_r in Hp. split; [done|].
  apply Permutation_length in Hp. unfold reported_ids in Hp.
  by rewrite length_app, !length_fmap in Hp.
Qed.

Lemma sendInvitations_reports_each_id_once_witness :
  ∃ result,
    (sendInvitations mail_down "https" "photomingle.test" party_id alice_id
       (Some [oid_1; oid_7; oid_1]) world1).1 = Json 200 result ∧
    reported_ids result ≡ₚ [oid_1; oid_7; oid_1] ∧
    length (Invitations.sent result) + length (Invitations.failed result) = 3.
Proof.
  apply (sendInvitations_reports_each_id_once mail_down "https"
           "photomingle.test" party_id alice_id [oid_1; oid_7; oid_1]
           world1 party1 alice); [reflexivity..|discriminate].
Defined.

(** X14.  A call by the creator with a non-empty batch leaves the users, the
    events and the photos as they were, and what it does to the outside is
    only this: it sends the invitation message of entries of the event that
    the batch names, asks for notifications to be created, and logs.  It
    saves no document and sends no other message. *)
Theorem sendInvitations_only_invites
    env protocol host eventId caller ids w ev creator :
  events w !! eventId = Some ev →
  users w !! Event.creator ev = Some creator →
  Event.creator ev = caller →
  ids ≠ [] →
  let run := sendInvitations env protocol host eventId caller (Some ids) w in
  users run.2 = users w ∧ events run.2 = events w ∧
  photos run.2 = photos w ∧
  ∃ effs, trace run.2 = trace w ++ effs ∧
    Forall (invitation_effect env protocol host eventId ev creator ids) effs.
Proof.
  intros Hev Hcr Hc Hne run. subst run.
  rewrite (sendInvitations_run _ _ _ _ _ _ _ ev creator) by done.
  destruct (sendInvitations_loop_reports_all env protocol host eventId ev
              creator ids (Invitations.mk [] []) w)
    as (result&w'&effs&->&_&Hu&He&Hp&Ht&Hall).
  simpl. split_and!; [done..|]. by exists effs.
Qed.

Lemma sendInvitations_only_invites_witness :
  let run :=
    sendInvitations env0 "https" "photomingle.test" party_id alice_id
      (Some [oid_1; oid_0]) world1 in
  events run.2 = events world1 ∧
  ∃ effs, trace run.2 = effs ∧
    Forall (invitation_effect env0 "https" "photomingle.test" party_id party1
              alice [oid_1; oid_0]) effs.
Proof.
  intros run.
  destruct (sendInvitations_only_invites env0 "https" "photomingle.test" party_id
              alice_id [oid_1; oid_0] world1 party1 alice)
    as (_&He&_&Heffs); [reflexivity..|discriminate|].
  split; [exact He|exact Heffs].
Defined.

(** X15.  An invitee can be reported as failed although the message went
    out: for an entry with a user identity, when SendGrid accepts the
    message and the store then rejects the notification, the id is listed
    under failed with the reason "Failed to send email", nothing is listed
    as sent, the message is in the trace and no notification is stored. *)
Theorem sendInvitations_failed_though_sent
    env protocol host eventId caller inviteeId w ev creator invitee err :
  events w !! eventId = Some ev →
  users w !! Event.creator ev = Some creator →
  Event.creator ev = caller →
  find (has_id inviteeId) (Event.invitees ev) = Some invitee →
  is_Some (Invitee.user invitee) →
  let msg := invitation_email env protocol host eventId ev creator invitee in
  rejects env (length (trace w)) (SgSend msg) = None →
  rejects env (S (length (trace w)))
    (NotificationCreate (invite_notification eventId ev creator invitee))
    = Some err →
  let run :=
    sendInvitations env protocol host eventId caller (Some [inviteeId]) w in
  run.1 = Json 200
            (Invitations.mk []
               [FailedInvitation.mk inviteeId (Invitee.email invitee)
                  "Failed to send email"]) ∧
  trace run.2 !! length (trace w) = Some (SgSend msg) ∧
  notifications run.2 = notifications w.
Proof.
  intros Hev Hcr Hc Hf Hu msg Hsend Hcreate run. subst run.
  rewrite (sendInvitations_run _ _ _ _ _ _ _ ev creator) by done.
  simpl. unfold mbind, M_bind. rewrite sendInvitations_step_eq, Hf. simpl.
  fold msg. rewrite Hsend, bool_decide_eq_true_2, Hcreate by done.
  simpl. split_and!; [done| |done].
  rewrite <- !app_assoc. simpl. by apply list_lookup_middle.
Qed.

Lemma sendInvitations_failed_though_sent_witness :
  let run :=
    sendInvitations notifications_down "https" "photomingle.test" party_id
      alice_id (Some [oid_0]) world1 in
  run.1 = Json 200
            (Invitations.mk []
               [FailedInvitation.mk oid_0 (Some "bob@x.com")
                  "Failed to send email"]) ∧
  trace run.2 !! 0 =
    Some (SgSend (invitation_email notifications_down "https"
                    "photomingle.test" party_id party1 alice bob_entry)) ∧
  notifications run.2 = [].
Proof.
  apply (sendInvitations_failed_though_sent notifications_down "https"
           "photomingle.test" party_id alice_id oid_0 world1 party1 alice
           bob_entry (ValidationError "Notification validation failed"));
    try reflexivity.
  eexists. reflexivity.
Defined.

(** ** [processPhoto]: every way it can end *)

(** [processPhoto], outcome by outcome, up to the loop over the matches. *)
Lemma processPhoto_eq env photoId w :
  processPhoto env photoId w =
  match photos w !! photoId with
  | None =>
      (Ok tt, record (Log ("Photo not found with id: " ++ photoId)%string) w)
  | Some photo =>
      match events w !! Photo.event photo with
      | None =>
          (Ok tt,
           record (Log ("Event not found for photo: " ++ photoId)%string) w)
      | Some event =>
          let t := length (trace w) in
          let path := Photo.path photo in
          match rekognition_detectFaces env t path with
          | None =>
              (Ok tt,
               record_all [DetectFaces path; Log "Error detecting faces:";
                           Log "Error processing photo:"] w)
          | Some dresp =>
              if no_faces dresp then
                let saved := Photo.set_isProcessed true photo in
                match rejects env (S t) (PhotoSave photoId saved) with
                | None =>
                    (Ok tt,
                     set_photos <[photoId := saved]>
                       (record_all [DetectFaces path; PhotoSave photoId saved]
                          w))
                | Some _ =>
                    (Ok tt,
                     record_all [DetectFaces path; PhotoSave photoId saved;
                                 Log "Error processing photo:"] w)
                end
              else
                match rekognition_searchFaces env (S t) path with
                | None =>
                    (Ok tt,
                     record_all [DetectFaces path; SearchFaces path;
                                 Log "Error searching faces:";
                                 Log "Error processing photo:"] w)
                | Some sresp =>
                    match processPhoto_loop env (Photo.event photo) event
                            photoId photo
                            (default [] (SearchResponse.FaceMatches sresp))
                            (record_all [DetectFaces path; SearchFaces path]
                               w) with
                    | (Ok photo', w3) =>
                        let saved := Photo.set_isProcessed true photo' in
                        match rejects env (length (trace w3))
                                (PhotoSave photoId saved) with
                        | None =>
                            (Ok tt,
                             set_photos <[photoId := saved]>
                               (record (PhotoSave photoId saved) w3))
                        | Some _ =>
                            (Ok tt,
                             record_all [PhotoSave photoId saved;
                                         Log "Error processing photo:"] w3)
                        end
                    | (Throw _, w3) =>
                        (Ok tt, record (Log "Error processing photo:") w3)
                    end
                end
          end
      end
  end.
Proof.
  unfold processPhoto, Photo_findById, Event_findById, Photo_save,
    detectFaces, searchFaces.
  unfold try_catch, mbind, M_bind, gets, perform, console_error.
  destruct (photos w !! photoId) as [photo|]; [|done].
  destruct (events w !! Photo.event photo) as [event|]; [|done].
  cbv zeta.
  destruct (rekognition_detectFaces env _ _) as [dresp|]; [|done].
  destruct (no_faces dresp);
    cbn [trace record]; rewrite length_app; cbn [length];
    replace (length (trace w) + 1) with (S (length (trace w))) by lia.
  { by destruct (rejects env _ _). }
  destruct (rekognition_searchFaces env _ _) as [sresp|]; [|done].
  unfold record_all. simpl foldl.
  destruct (processPhoto_loop _ _ _ _ _ _ _) as [[photo'|e] w3]; [|done].
  by destruct (rejects env _ _).
Qed.

(** The loop performs only notification creations and log lines, and only
    adds to the notifications. *)
Lemma processPhoto_loop_effects env eventId event photoId matches photo w :
  ∃ r w' effs,
    processPhoto_loop env eventId event photoId photo matches w = (r, w') ∧
    users w' = users w ∧ events w' = events w ∧ photos w' = photos w ∧
    trace w' = trace w ++ effs ∧ Forall (pipeline_effect photoId) effs ∧
    notifications w `prefix_of` notifications w'.
Proof.
  revert photo w. induction matches as [|m matches IH]; intros photo w.
  - exists (Ok photo), w, []. rewrite app_nil_r. by split_and!.
  - simpl. unfold mbind, M_bind. rewrite processPhoto_step_eq.
    destruct (identified m).
    2:{ eexists _, w, []. rewrite app_nil_r. by split_and!. }
    destruct (resolves (users w) m); [|apply IH].
    destruct (rejects env _ _) as [e|].
    { eexists _, _, _. unfold record_all. simpl.
      split_and!;
        [done|done|done|done
        |simpl; rewrite <- ?app_assoc; reflexivity
        |by repeat constructor|done]. }
    destruct (IH (add_faces [detected_face m] photo)
                 (set_notifications
                    (.++ [Notification.of_data
                            (tagged_notification eventId event photoId m)])
                    (record (NotificationCreate
                               (tagged_notification eventId event photoId m))
                       w)))
      as (r&w'&effs&->&Hu&He&Hp&Ht&Hall&Hpre).
    simpl in *. eexists r, w', (_ :: effs).
    rewrite Ht, <- app_assoc. split_and!; try done.
    + by constructor.
    + etrans; [|exact Hpre]. by apply prefix_app_r.
Qed.

(** X16.  However the photo, the store and Rekognition answer,
    [processPhoto] returns without throwing, so the call that is not awaited
    cannot reject.  It leaves the users and the events as they were, changes
    no photo but the one it was given, only adds to the notifications, and
    performs only effects of the pipeline: it sends no message and saves no
    event, no notification and no other photo. *)
Theorem processPhoto_contained env photoId w :
  let run := processPhoto env photoId w in
  run.1 = Ok tt ∧
  users run.2 = users w ∧ events run.2 = events w ∧
  (∀ k, k ≠ photoId → photos run.2 !! k = photos w !! k) ∧
  notifications w `prefix_of` notifications run.2 ∧
  ∃ effs, trace run.2 = trace w ++ effs ∧
          Forall (pipeline_effect photoId) effs.
Proof.
  intros run. subst run. rewrite processPhoto_eq.
  destruct (photos w !! photoId) as [photo|];
    [|simpl; split_and!; try done; eexists [_]; split; [done|];
      by repeat constructor].
  destruct (events w !! Photo.event photo) as [event|];
    [|simpl; split_and!; try done; eexists [_]; split; [done|];
      by repeat constructor].
  cbv zeta.
  destruct (rekognition_detectFaces env _ _) as [dresp|].
  2:{ cbn [fst snd].
      rewrite users_record_all, events_record_all, photos_record_all,
        notifications_record_all, trace_record_all.
      split_and!; try done. eexists. split; [done|]. by repeat constructor. }
  destruct (no_faces dresp).
  { destruct (rejects env _ _); cbn [fst snd]; simpl;
      rewrite <- ?app_assoc; simpl.
    - split_and!; try done. eexists. split; [done|]. by repeat constructor.
    - split_and!; try done.
      + intros k Hk. by rewrite lookup_insert_ne.
      + eexists. split; [done|]. by repeat constructor. }
  destruct (rekognition_searchFaces env _ _) as [sresp|].
  2:{ cbn [fst snd].
      rewrite users_record_all, events_record_all, photos_record_all,
        notifications_record_all, trace_record_all.
      split_and!; try done. eexists. split; [done|]. by repeat constructor. }
  destruct (processPhoto_loop_effects env (Photo.event photo) event photoId
              (default [] (SearchResponse.FaceMatches sresp)) photo
              (record_all [DetectFaces (Photo.path photo);
                           SearchFaces (Photo.path photo)] w))
    as (r&w3&effs&->&Hu&He&Hp&Ht&Hall&Hpre).
  rewrite users_record_all in Hu. rewrite events_record_all in He.
  rewrite photos_record_all in Hp. rewrite trace_record_all in Ht.
  rewrite notifications_record_all in Hpre.
  assert (Forall (pipeline_effect photoId)
            ([DetectFaces (Photo.path photo); SearchFaces (Photo.path photo)]
             ++ effs)) as Hall2.
  { apply Forall_app. split; [by repeat constructor|done]. }
  rewrite <- app_assoc in Ht.
  destruct r as [photo'|e]; [cbv zeta; destruct (rejects env _ _)|];
    cbn [fst snd]; simpl; rewrite ?Hu, ?He, ?Hp, ?Ht, <- ?app_assoc; simpl;
    (split_and!; try done);
    try (intros k Hk; by rewrite lookup_insert_ne);
    (eexists; split; [reflexivity|]);
    repeat first [apply Forall_cons; split; [done|]
                 |apply Forall_app; split; [done|]
                 |apply Forall_nil|done].
Qed.

(** X17.  When the photo does not exist, or its event does not,
    [processPhoto] writes one log line and does nothing else: Rekognition is
    not called. *)
Theorem processPhoto_missing env photoId w :
  photos w !! photoId = None ∨
  (∃ photo, photos w !! photoId = Some photo ∧
            events w !! Photo.event photo = None) →
  ∃ message, processPhoto env photoId w = (Ok tt, record (Log message) w).
Proof.
  rewrite processPhoto_eq. intros [->|(photo&->&->)]; by eexists.
Qed.

Lemma processPhoto_missing_witness :
  ∃ message,
    processPhoto studio no_photo_id world2 = (Ok tt, record (Log message) world2).
Proof.
  apply (processPhoto_missing studio no_photo_id world2). left. reflexivity.
Defined.

(** X18.  When Rekognition fails, at the detection or, after faces were
    detected, at the search, the photo is left as it was stored, unprocessed
    if it was, and no notification is created: the run only logs. *)
Theorem processPhoto_rekognition_failure env photoId w photo event :
  photos w !! photoId = Some photo →
  events w !! Photo.event photo = Some event →
  rekognition_detectFaces env (length (trace w)) (Photo.path photo) = None ∨
  (∃ dresp,
     rekognition_detectFaces env (length (trace w)) (Photo.path photo)
       = Some dresp ∧
     no_faces dresp = false ∧
     rekognition_searchFaces env (S (length (trace w))) (Photo.path photo)
       = None) →
  let run := processPhoto env photoId w in
  photos run.2 = photos w ∧ notifications run.2 = notifications w ∧
  ∀ id p, PhotoSave id p ∈ trace run.2 → PhotoSave id p ∈ trace w.
Proof.
  intros Hphoto Hevent Hfail run. subst run.
  rewrite processPhoto_eq, Hphoto, Hevent. cbv zeta.
  destruct Hfail as [->|(dresp&->&->&->)]; cbn [fst snd];
    rewrite photos_record_all, notifications_record_all, trace_record_all;
    (split_and!; [done..|]);
    intros id p [Hin|Hin]%elem_of_app; try done;
    repeat (apply elem_of_cons in Hin as [[=]|Hin]); inversion Hin.
Qed.

(** X19.  Notifications can outlive a failed run: when the first two
    matches resolve, the store accepts the notification of the first and
    rejects that of the second, the run stops there; the photo is left as it
    was stored, with no face and unprocessed if it was, while the first
    notification stays in the collection. *)
Theorem processPhoto_partial_notifications
    env photoId w photo event dresp sresp m1 m2 rest err :
  photos w !! photoId = Some photo →
  events w !! Photo.event photo = Some event →
  rekognition_detectFaces env (length (trace w)) (Photo.path photo)
    = Some dresp →
  no_faces dresp = false →
  rekognition_searchFaces env (S (length (trace w))) (Photo.path photo)
    = Some sresp →
  SearchResponse.FaceMatches sresp = Some (m1 :: m2 :: rest) →
  resolves (users w) m1 = true →
  resolves (users w) m2 = true →
  let note := tagged_notification (Photo.event photo) event photoId in
  rejects env (2 + length (trace w)) (NotificationCreate (note m1)) = None →
  rejects env (3 + length (trace w)) (NotificationCreate (note m2))
    = Some err →
  let run := processPhoto env photoId w in
  photos run.2 = photos w ∧
  notifications run.2 = notifications w ++ [Notification.of_data (note m1)].
Proof.
  intros Hphoto Hevent Hdetect Hfaces Hsearch Hm Hr1 Hr2 note Hok Hrej run.
  subst run.
  rewrite processPhoto_eq, Hphoto, Hevent. cbv zeta.
  rewrite Hdetect, Hfaces, Hsearch, Hm. simpl default.
  cbn [processPhoto_loop]. unfold mbind, M_bind.
  rewrite processPhoto_step_eq, (resolves_identified _ _ Hr1).
  rewrite users_record_all, Hr1.
  rewrite trace_record_all, length_app. cbn [length].
  replace (length (trace w) + 2) with (2 + length (trace w)) by lia.
  fold note. rewrite Hok.
  rewrite processPhoto_step_eq, (resolves_identified _ _ Hr2).
  cbn [users trace set_notifications record].
  rewrite users_record_all, Hr2.
  rewrite trace_record_all, !length_app. cbn [length].
  replace (length (trace w) + 2 + 1) with (3 + length (trace w)) by lia.
  fold note. rewrite Hrej. cbn [fst snd]. simpl.
  done.
Qed.

Lemma processPhoto_rekognition_failure_witness :
  let run := processPhoto rekognition_down group_photo_id world2 in
  photos run.2 = photos world2 ∧ notifications run.2 = [] ∧
  ∀ id p, PhotoSave id p ∈ trace run.2 → PhotoSave id p ∈ [].
Proof.
  apply (processPhoto_rekognition_failure rekognition_down group_photo_id world2
           group_photo party1); [reflexivity..|]. left. reflexivity.
Defined.

Lemma processPhoto_partial_notifications_witness :
  let run := processPhoto fourth_effect_fails group_photo_id world2 in
  photos run.2 = photos world2 ∧
  notifications run.2 =
    [Notification.of_data (tagged_notification party_id party1 group_photo_id bob_match)].
Proof.
  apply (processPhoto_partial_notifications fourth_effect_fails group_photo_id world2
           group_photo party1
           (DetectResponse.mk (Some [FaceDetail.mk box; FaceDetail.mk box]))
           (SearchResponse.mk (Some [bob_match; alice_match]))
           bob_match alice_match [] (Rejected "write failed" None));
    reflexivity.
Defined.

(** ** The notification dispatcher, [getEvent] and [markAsRead] *)

(** X20.  The notification [createNotification] returns and its record can
    disagree: when the message is sent and the store then rejects the save
    of [isSent], the call still succeeds, the returned notification says
    [isSent = true] and the stored record says [false]. *)
Theorem createNotification_sent_but_not_recorded env d w err :
  truthy (NotificationData.email d) = true →
  let t := length (trace w) in
  let sent := Notification.set_isSent true (Notification.of_data d) in
  rejects env t (NotificationCreate d) = None →
  rejects env (S t) (SgSend (notification_email env d)) = None →
  rejects env (S (S t)) (NotificationSave (length (notifications w)) sent)
    = Some err →
  let run := createNotification env d w in
  run.1 = Ok sent ∧
  notifications run.2 = notifications w ++ [Notification.of_data d] ∧
  Notification.isSent sent = true ∧
  Notification.isSent (Notification.of_data d) = false.
Proof.
  intros He t sent Hc Hs Hn run. subst run.
  rewrite createNotification_eq. fold t.
  rewrite Hc, He, Hs. fold sent. rewrite Hn. cbn [fst snd].
  by rewrite notifications_record_all.
Qed.

Lemma createNotification_sent_but_not_recorded_witness :
  let run := createNotification notification_save_fails hello_bob world0 in
  let sent := Notification.set_isSent true (Notification.of_data hello_bob) in
  run.1 = Ok sent ∧
  notifications run.2 = [Notification.of_data hello_bob] ∧
  Notification.isSent sent = true ∧
  Notification.isSent (Notification.of_data hello_bob) = false.
Proof.
  apply (createNotification_sent_but_not_recorded notification_save_fails
           hello_bob world0 (Rejected "write failed" None)); reflexivity.
Defined.

Lemma existsb_exists_invitee (p : Invitee.t → bool) l :
  existsb p l = true ↔ ∃ inv, inv ∈ l ∧ p inv = true.
Proof.
  rewrite existsb_exists. split; intros (inv&Hin&Hp); exists inv;
    (split; [by apply list_elem_of_In|done]).
Qed.

(** X21.  [getEvent] reads only.  For an event whose creator is a user it
    answers 200 with the event, its creator and the users of its invitees
    exactly when the caller is the creator, or the event is not private, or
    an entry has the caller as user and that user exists; otherwise it
    answers Unauthorized. *)
Theorem getEvent_access id caller w ev creator :
  events w !! id = Some ev →
  users w !! Event.creator ev = Some creator →
  let run := getEvent id caller w in
  run.2 = w ∧
  (may_read (users w) ev caller →
   run.1 = Json 200
             (PopulatedEvent.mk ev creator
                (populate_user (users w) <$> Event.invitees ev))) ∧
  (¬ may_read (users w) ev caller → fails_with run.1 Unauthorized).
Proof.
  intros Hev Hcr run. subst run.
  unfold getEvent, Event_findById, User_populate. run.
  rewrite Hev. simpl. rewrite Hcr. simpl.
  set (isInvitee := existsb _ (Event.invitees ev)).
  assert (isInvitee = true ↔
          ∃ inv, inv ∈ Event.invitees ev ∧ Invitee.user inv = Some caller ∧
                 is_Some (users w !! caller)) as Hinv.
  { subst isInvitee. rewrite existsb_exists_invitee.
    split; intros (inv&Hin&H); exists inv; (split; [done|]).
    - apply andb_true_iff in H as [Hp Hu].
      apply bool_decide_eq_true in Hp. unfold populate_user in Hp.
      unfold strict_eq in Hu.
      destruct (Invitee.user inv) as [u|]; [|done].
      apply String.eqb_eq in Hu as ->. done.
    - destruct H as [Hu Hsome]. apply andb_true_iff. split.
      + apply bool_decide_eq_true. unfold populate_user. by rewrite Hu.
      + unfold strict_eq. rewrite Hu. apply String.eqb_refl. }
  destruct (String.eqb_spec (Event.creator ev) caller) as [Hc|Hc];
    simpl; [|destruct isInvitee eqn:Hi; simpl;
             [|destruct (Event.isPrivate ev) eqn:Hp; simpl]].
  - split_and!; [done|done|]. intros Hno. exfalso. apply Hno. by left.
  - split_and!; [done|done|]. intros Hno. exfalso. apply Hno.
    right; right. by apply Hinv.
  - split_and!; [done| |by eexists].
    intros [Heq|[Heq|Hex]]; [by apply Hc in Heq|congruence|].
    apply Hinv in Hex. discriminate.
  - split_and!; [done|done|]. intros Hno. exfalso. apply Hno.
    right; by left.
Qed.

Lemma getEvent_access_witness :
  (getEvent party_id bob_id world1).1 =
    Json 200 (PopulatedEvent.mk party1 alice [Some bob; None]) ∧
  fails_with (getEvent party_id carol_id world1).1 Unauthorized.
Proof.
  split.
  - destruct (getEvent_access party_id bob_id world1 party1 alice)
      as (_&H&_); [reflexivity..|].
    apply H. right; right. exists bob_entry.
    split; [apply list_elem_of_In; left; reflexivity|].
    split; [reflexivity|]. eexists. reflexivity.
  - destruct (getEvent_access party_id carol_id world1 party1 alice)
      as (_&_&H); [reflexivity..|].
    apply H. intros [Hc|[Hp|(inv&Hin&Hu&_)]]; [discriminate..|].
    apply elem_of_cons in Hin as [->|Hin]; [discriminate|].
    apply elem_of_cons in Hin as [->|Hin]; [discriminate|].
    inversion Hin.
Defined.

(** [markAsRead], outcome by outcome. *)
Lemma markAsRead_eq env handle caller w :
  markAsRead env handle caller w =
  match notifications w !! handle with
  | None =>
      (Next (AppError
               ("Notification not found with id of " ++ pretty handle)%string
               404), w)
  | Some n =>
      match Notification.recipient n with
      | None => (Next TypeError, w)
      | Some recipient =>
          if negb (String.eqb recipient caller) then
            (Next (AppError "Not authorized to update this notification" 401),
             w)
          else
            let n' := Notification_set_isRead true n in
            match rejects env (length (trace w)) (NotificationSave handle n')
            with
            | Some err => (Next err, record (NotificationSave handle n') w)
            | None =>
                (Json 200 n',
                 set_notifications <[handle := n']>
                   (record (NotificationSave handle n') w))
            end
      end
  end.
Proof.
  unfold markAsRead, Notification_save. run.
  destruct (notifications w !! handle) as [n|]; simpl; [|done].
  destruct (Notification.recipient n) as [recipient|]; simpl; [|done].
  destruct (negb _); simpl; [done|].
  by destruct (rejects env _ _).
Qed.

(** X22.  [markAsRead] answers NotFound for a notification that does not
    exist and Unauthorized for a caller who is not its recipient; a
    notification without recipient makes it fail with a server error.  In
    none of these cases is anything written. *)
Theorem markAsRead_rejects_without_effect env handle caller w :
  let run := markAsRead env handle caller w in
  (notifications w !! handle = None →
   fails_with run.1 NotFound ∧ run.2 = w) ∧
  (∀ n, notifications w !! handle = Some n →
     Notification.recipient n = None →
     run.1 = Next TypeError ∧ run.2 = w) ∧
  (∀ n recipient, notifications w !! handle = Some n →
     Notification.recipient n = Some recipient → recipient ≠ caller →
     fails_with run.1 Unauthorized ∧ run.2 = w).
Proof.
  intros run. subst run. rewrite markAsRead_eq. split_and!.
  - intros ->. split; [|done]. by eexists.
  - by intros n -> ->.
  - intros n recipient -> -> Hne.
    destruct (String.eqb_spec recipient caller); [done|]. simpl.
    split; [|done]. by eexists.
Qed.

Lemma markAsRead_rejects_without_effect_witness :
  (fails_with (markAsRead env0 5 bob_id world3).1 NotFound ∧
   (markAsRead env0 5 bob_id world3).2 = world3) ∧
  ((markAsRead env0 1 bob_id world3).1 = Next TypeError ∧
   (markAsRead env0 1 bob_id world3).2 = world3) ∧
  (fails_with (markAsRead env0 0 alice_id world3).1 Unauthorized ∧
   (markAsRead env0 0 alice_id world3).2 = world3).
Proof.
  split; [|split].
  - destruct (markAsRead_rejects_without_effect env0 5 bob_id world3)
      as (H&_&_). apply H. reflexivity.
  - destruct (markAsRead_rejects_without_effect env0 1 bob_id world3)
      as (_&H&_). apply (H stray_note); reflexivity.
  - destruct (markAsRead_rejects_without_effect env0 0 alice_id world3)
      as (_&_&H). apply (H bob_note bob_id); [reflexivity..|discriminate].
Defined.

(** X23.  When the recipient marks a notification as read and the store
    accepts, the record at that place has [isRead] true and is otherwise
    what it was, every other record is untouched, and marking it again
    leaves the collection as the first call left it. *)
Theorem markAsRead_marks_once env handle caller w n :
  notifications w !! handle = Some n →
  Notification.recipient n = Some caller →
  (∀ t m, rejects env t (NotificationSave handle m) = None) →
  let n' := Notification_set_isRead true n in
  let first := markAsRead env handle caller w in
  let second := markAsRead env handle caller first.2 in
  first.1 = Json 200 n' ∧
  notifications first.2 = <[handle := n']> (notifications w) ∧
  Notification_set_isRead (Notification.isRead n) n' = n ∧
  second.1 = Json 200 n' ∧
  notifications second.2 = notifications first.2.
Proof.
  intros Hn Hr Hok n' first second.
  assert (first =
          (Json 200 n',
           set_notifications <[handle := n']>
             (record (NotificationSave handle n') w))) as Hfirst.
  { subst first. rewrite markAsRead_eq, Hn, Hr, String.eqb_refl. simpl.
    fold n'. by rewrite Hok. }
  assert (<[handle := n']> (notifications w) !! handle = Some n') as Hn'.
  { apply list_lookup_insert_eq. by eapply lookup_lt_Some. }
  split_and!.
  - by rewrite Hfirst.
  - by rewrite Hfirst.
  - subst n'. by destruct n.
  - subst second. rewrite Hfirst. cbn [snd]. rewrite markAsRead_eq.
    simpl notifications. rewrite Hn'.
    change (Notification.recipient n') with (Notification.recipient n).
    rewrite Hr, String.eqb_refl. simpl. by rewrite Hok.
  - subst second. rewrite Hfirst. cbn [snd]. rewrite markAsRead_eq.
    simpl notifications. rewrite Hn'.
    change (Notification.recipient n') with (Notification.recipient n).
    rewrite Hr, String.eqb_refl. simpl. rewrite Hok. simpl.
    by rewrite list_insert_insert_eq.
Qed.

Lemma markAsRead_marks_once_witness :
  let n' := Notification_set_isRead true bob_note in
  let first := markAsRead env0 0 bob_id world3 in
  let second := markAsRead env0 0 bob_id first.2 in
  first.1 = Json 200 n' ∧
  notifications first.2 = [n'; stray_note] ∧
  Notification_set_isRead false n' = bob_note ∧
  second.1 = Json 200 n' ∧
  notifications second.2 = notifications first.2.
Proof.
  apply (markAsRead_marks_once env0 0 bob_id world3 bob_note); reflexivity.
Defined.

(** ** Batches in stored form, issued codes, and the tagged photo *)

(** X24.  Over any sequence of [addInvitees] calls on an event, whoever
    asks, whose bodies name users by ids in stored form: no user identity
    and no email of an entry without user identity gains a second entry.
    The number of entries bound to a user, and the number of user-less
    entries carrying an email, stays what it was or goes from zero to one;
    so a list with at most one entry per user identity and per email keeps
    that property. *)
Theorem addInvitees_stored_form_no_second_entry env id calls w ev :
  Forall (λ call : string * option (list InviteeSpec.t),
            forallb in_stored_form (default [] call.2) = true) calls →
  events w !! id = Some ev →
  ∃ ev', events (addInvitees_calls env id calls w) !! id = Some ev' ∧
    grows_uniquely (Event.invitees ev) (Event.invitees ev') ∧
    (unique_invitees (Event.invitees ev) →
     unique_invitees (Event.invitees ev')).
Proof.
  intros Hform Hev.
  destruct (addInvitees_calls_grows env id calls w ev Hform Hev)
    as (ev'&Hev'&Hg).
  exists ev'. split_and!; [done..|]. by apply grows_uniquely_unique.
Qed.

Lemma addInvitees_stored_form_no_second_entry_witness :
  ∃ ev', events (addInvitees_calls env0 party_id two_calls world0) !! party_id
         = Some ev' ∧
    length (Event.invitees ev') = 2 ∧
    unique_invitees (Event.invitees ev').
Proof.
  destruct (addInvitees_stored_form_no_second_entry env0 party_id two_calls
              world0 party) as (ev'&Hev'&_&Hu);
    [repeat constructor|reflexivity|].
  exists ev'. split; [exact Hev'|]. split.
  - vm_compute in Hev'. injection Hev' as <-. reflexivity.
  - apply Hu. split; intros x; vm_compute; lia.
Defined.

(** X25.  Over any sequence of [addInvitees] calls the entries already in
    the list stay where they are, unchanged, code included: the old list is
    a prefix of the new one.  And when the uuid source does not repeat a
    name and the codes in the list are distinct names it handed out before,
    the codes of the new list are pairwise distinct. *)
Theorem addInvitees_keeps_entries_and_distinct_codes env id calls w ev :
  events w !! id = Some ev →
  ∃ ev', events (addInvitees_calls env id calls w) !! id = Some ev' ∧
    Event.invitees ev `prefix_of` Event.invitees ev' ∧
    (uuid_injective_from env (uuids w) →
     fresh_codes env (uuids w) (Event.invitees ev) →
     NoDup (codes (Event.invitees ev'))).
Proof.
  intros Hev.
  destruct (addInvitees_calls_codes env (uuids w) id calls w ev Hev)
    as (ev'&Hev'&Hpre&Hfr).
  exists ev'. split_and!; [done..|]. intros Hinj H.
  by apply Hfr.
Qed.

Lemma addInvitees_keeps_entries_and_distinct_codes_witness :
  let calls :=
    [(alice_id, Some [bob_again; InviteeSpec.mk None (Some "c@x.com")]);
     (bob_id, Some [a_x]);
     (alice_id, Some [no_id_spec])] in
  ∃ ev', events (addInvitees_calls env0 party_id calls world1) !! party_id
         = Some ev' ∧
    [bob_entry; a_x_entry] `prefix_of` Event.invitees ev' ∧
    length (Event.invitees ev') = 4 ∧
    NoDup (codes (Event.invitees ev')).
Proof.
  intros calls.
  destruct (addInvitees_keeps_entries_and_distinct_codes env0 party_id calls
              world1 party1) as (ev'&Hev'&Hpre&Hnd); [reflexivity|].
  exists ev'. split; [exact Hev'|]. split; [exact Hpre|]. split.
  - vm_compute in Hev'. injection Hev' as <-. reflexivity.
  - apply Hnd.
    + intros i j _ _ Hij. simpl in Hij. injection Hij as Hij.
      exact (pretty_nat_inj _ _ Hij).
    + split; [by repeat constructor; intros Hin;
               repeat (apply elem_of_cons in Hin as [[=]|Hin]);
               inversion Hin|].
      intros i Hi Hin.
      assert (Hc : ∀ n : nat,
                 ("code-" ++ pretty i = "code-" ++ pretty n)%string →
                 (2 ≤ i)%nat → (n < 2)%nat → False).
      { intros n Heq ??. injection Heq as Heq.
        apply pretty_nat_inj in Heq. lia. }
      apply elem_of_cons in Hin as [Heq|Hin];
        [apply (Hc 0); [exact Heq|exact Hi|lia]|].
      apply elem_of_cons in Hin as [Heq|Hin];
        [apply (Hc 1); [exact Heq|exact Hi|lia]|].
      inversion Hin.
Defined.

(** X26.  When the photo and its event are found, a face is detected, the
    search answers with matches whose external identities are well-formed
    ids, and the store accepts the notifications and the save:
    [processPhoto] returns, the stored photo has [isProcessed] true and,
    appended in match order, one face per match whose identity is the id
    of a user, with the face id of the match, that user and the
    similarity; the collection has gained, in the same order, one
    [photo_tagged] notification per such match, unread and unsent,
    addressed to that user and naming the event and the photo; and the
    one save of the photo is the last effect, after every creation of a
    notification.  A match whose identity is the id of no user adds
    nothing; if every match resolves, there is a face and a notification
    for each. *)
Theorem processPhoto_tags_resolving_matches
    env photoId w photo event dresp sresp :
  photos w !! photoId = Some photo →
  events w !! Photo.event photo = Some event →
  rekognition_detectFaces env (length (trace w)) (Photo.path photo)
    = Some dresp →
  no_faces dresp = false →
  rekognition_searchFaces env (S (length (trace w))) (Photo.path photo)
    = Some sresp →
  let matches := default [] (SearchResponse.FaceMatches sresp) in
  let found := resolved (users w) matches in
  forallb identified matches = true →
  (∀ t d, rejects env t (NotificationCreate d) = None) →
  (∀ t p, rejects env t (PhotoSave photoId p) = None) →
  let run := processPhoto env photoId w in
  ∃ faces notes creations,
    let stored :=
      Photo.set_isProcessed true
        (Photo.set_detectedFaces (Photo.detectedFaces photo ++ faces) photo)
    in
    run.1 = Ok tt ∧
    photos run.2 = <[photoId := stored]> (photos w) ∧
    notifications run.2 = notifications w ++ notes ∧
    trace run.2 =
      trace w ++
      [DetectFaces (Photo.path photo); SearchFaces (Photo.path photo)] ++
      creations ++ [PhotoSave photoId stored] ∧
    length faces = length found ∧ length notes = length found ∧
    length creations = length found ∧
    Forall (λ eff, ∃ d, eff = NotificationCreate d) creations ∧
    (∀ i m, found !! i = Some m →
       ∃ c, castObjectId (Face.ExternalImageId (FaceMatch.Face m)) = Some c ∧
         is_Some (users w !! c) ∧
         faces !! i =
           Some (DetectedFace.mk (Face.FaceId (FaceMatch.Face m)) (Some c)
                   (FaceBox.mk None None None None)
                   (FaceMatch.Similarity m)) ∧
         notes !! i =
           Some (Notification.mk (Some c) None photo_tagged
                   "You were recognized in a photo"
                   ("You were recognized in a photo from the event: " ++
                    Event.name event)%string
                   (Some (Photo.event photo)) (Some photoId) false false)) ∧
    ((∀ m, m ∈ matches → resolves (users w) m = true) → found = matches).
Proof.
  intros Hphoto Hevent Hdetect Hfaces Hsearch matches found Hids Hnote Hsave
    run.
  destruct (processPhoto_run env photoId w photo event dresp sresp)
    as (Hr&_&Hok); [done..|].
  destruct (Hok Hids Hnote Hsave) as (Hp&Hn&Htr).
  fold run in Hr, Hp, Hn, Htr. fold matches found in Hp, Hn, Htr.
  exists (detected_face <$> found),
    (Notification.of_data <$>
       (tagged_notification (Photo.event photo) event photoId <$> found)),
    (NotificationCreate <$>
       (tagged_notification (Photo.event photo) event photoId <$> found)).
  cbv zeta. split_and!; [done|done|done|done| | | | | |].
  - by rewrite length_fmap.
  - by rewrite !length_fmap.
  - by rewrite !length_fmap.
  - apply Forall_fmap, Forall_forall. intros d _. by exists d.
  - intros i m Hi.
    assert (resolves (users w) m = true) as Hm.
    { apply list_elem_of_lookup_2, list_elem_of_In in Hi.
      by apply filter_In in Hi as [_ ?]. }
    unfold resolves in Hm. apply bool_decide_eq_true in Hm.
    destruct (castObjectId (Face.ExternalImageId (FaceMatch.Face m)))
      as [c|] eqn:Hc; [|by destruct Hm].
    exists c. split; [done|]. split; [done|].
    rewrite !list_lookup_fmap, Hi. simpl.
    unfold detected_face, tagged_notification, Notification.of_data. simpl.
    by rewrite Hc.
  - intros Hall. subst found. unfold resolved. clear -Hall.
    induction matches as [|m l IH]; [done|]. simpl.
    rewrite (Hall m) by (by left).
    f_equal. apply IH. intros m' Hm'. apply Hall. by right.
Qed.

Lemma processPhoto_tags_resolving_matches_witness :
  let run := processPhoto studio group_photo_id world2 in
  let tagged :=
    Photo.set_isProcessed true
      (Photo.set_detectedFaces
         [DetectedFace.mk "face-bob" (Some bob_id)
            (FaceBox.mk None None None None) (95 # 1)%Q]
         group_photo) in
  let note :=
    Notification.mk (Some bob_id) None photo_tagged
      "You were recognized in a photo"
      "You were recognized in a photo from the event: Party"
      (Some party_id) (Some group_photo_id) false false in
  run.1 = Ok tt ∧
  photos run.2 = <[group_photo_id := tagged]> (photos world2) ∧
  notifications run.2 = [note].
Proof.
  intros run tagged note.
  destruct (processPhoto_tags_resolving_matches studio group_photo_id world2
              group_photo party1
              (DetectResponse.mk (Some [FaceDetail.mk box; FaceDetail.mk box]))
              (SearchResponse.mk (Some [bob_match; ghost_match])))
    as (faces&notes&creations&Hr&Hp&Hn&_&Hlf&Hln&_&_&Hi&_);
    [reflexivity..|].
  destruct (Hi 0 bob_match eq_refl) as (c&Hc&_&Hf&Hnote).
  vm_compute in Hc. injection Hc as <-.
  destruct faces as [|f [|??]]; [discriminate| |discriminate].
  destruct notes as [|n [|??]]; [discriminate| |discriminate].
  injection Hf as ->. injection Hnote as ->.
  split; [exact Hr|]. split; [exact Hp|exact Hn].
Defined.
